(** * Fine calculation, fine ledger and overdue sweep of the library portal

    A shallow embedding of [server/services/fineService.js] together with
    the parts of the Mongoose models ([Borrow], [Fine], [User], [Book],
    [SystemConfig], [Notification]) and of
    [server/services/notificationService.js] that the service runs through.

    Modelling conventions.
    - JavaScript numbers that carry money, rates and the grace period are
      exact rationals ([Q]); instants are integers, milliseconds since the
      epoch ([Z]), as [Date] and [moment] store them. The engine and the
      database hold doubles: a statement about a balance gives the sum as
      the code forms it, and claims that it equals a simpler one only
      where the double additions are exact. [Double] has the additions on
      doubles themselves.
    - MongoDB collections are lists; the [_id] of a document is its index.
      Documents of these collections are never deleted by the service.
    - Every service method is a function from the database to the database
      after the call and either the value it resolves to or the error it
      rejects with. A rejection keeps the writes made before it: there is
      no transaction in the source. The writes to the collections of the
      ledger themselves are taken to go through.
    - What the outside world decides (whether a transport delivers, whether
      a Mongoose call of the notification service resolves) is an explicit
      argument of type [Env.t]. The clock is an explicit argument [now]; one
      call sees one instant. *)

From Stdlib Require Import ZArith QArith Qround Qminmax Lia Lqa Ascii String SpecFloat.
From stdpp Require Import base option list relations.

Local Open Scope Z_scope.

(** ** JavaScript numbers and moment.js *)

Module Js.

(** [Math.round]: the nearest integer, halves towards plus infinity. *)
Definition Math_round (x : Q) : Z := Qfloor (x + (1 # 2))%Q.

(** [Math.round(x * 100) / 100], the rounding of line 59. *)
Definition round2 (x : Q) : Q := (inject_Z (Math_round (x * 100)) / 100)%Q.

Definition Math_max (x y : Q) : Q := Qmax x y.
Definition Math_min (x y : Q) : Q := Qmin x y.

(** Strict equality and comparison of numbers. *)
Definition num_eqb (x y : Q) : bool := Qeq_bool x y.
Definition num_leb (x y : Q) : bool := Qle_bool x y.

(** An amount with at most two decimals: a whole number of cents. *)
Definition whole_cents (x : Q) : Prop := exists k : Z, (x == inject_Z k / 100)%Q.

End Js.

(** ** Strings and doubles *)

Module JsString.

(** The characters of a [string] stand for code units below 256; those
    that [String.prototype.trim] removes are the white space and the
    line terminators among them. *)
Definition isWhiteSpace (c : ascii) : bool :=
  let n := N_of_ascii c in
  ((9 <=? n) && (n <=? 13) || (n =? 32) || (n =? 160))%N.

Fixpoint trimStart (s : list ascii) : list ascii :=
  match s with
  | [] => []
  | c :: r => if isWhiteSpace c then trimStart r else s
  end.

(** [s.trim()], which a schema path declared with [trim: true] applies
    to the value it is given. *)
Definition trim (s : string) : string :=
  string_of_list_ascii
    (rev (trimStart (rev (trimStart (list_ascii_of_string s))))).

End JsString.

(** The numbers of the engine and of the database are IEEE 754 doubles.
    The model computes amounts and balances in exact rationals; this
    module has the double operations themselves, for the places where
    the two differ. *)
Module Double.

Definition prec : Z := 53.
Definition emax : Z := 1024.



Definition add (x y : spec_float) : spec_float := SFadd prec emax x y.
Definition opp (x : spec_float) : spec_float := SFopp x.

(** [{ $inc: { fineBalance: delta } }] on the stored double. *)
Definition inc (delta balance : spec_float) : spec_float := add balance delta.

End Double.

Module Moment.

Inductive unit := days | hours.

Definition unit_ms (u : unit) : Z :=
  match u with
  | days => 86400000
  | hours => 3600000
  end.

(** [this.diff(that, u)]: the difference of the two instants in units of
    [u], truncated towards zero (moment's [absFloor]). The server clock has
    one fixed UTC offset, so moment's daylight-saving correction of the
    day difference is zero. *)
Definition diff (this that : Z) (u : unit) : Z := Z.quot (this - that) (unit_ms u).

(** [moment().add(n, 'days')] as an instant. *)
Definition add_days (this n : Z) : Z := this + n * unit_ms days.

(** [Date.UTC(y, m, d)]: midnight UTC of a civil date of the Gregorian
    calendar, in milliseconds since the epoch. *)
Definition days_from_civil (y m d : Z) : Z :=
  let y' := if m <=? 2 then y - 1 else y in
  let era := y' / 400 in
  let yoe := y' - era * 400 in
  let mp := (m + 9) mod 12 in
  let doy := (153 * mp + 2) / 5 + d - 1 in
  let doe := yoe * 365 + yoe / 4 - yoe / 100 + doy in
  era * 146097 + doe - 719468.

Definition utc (y m d : Z) : Z := days_from_civil y m d * unit_ms days.

End Moment.

(** ** SystemConfig *)

Module SystemConfig.

(** The policy documents the fine service reads, keyed as in the source;
    [None] is a key with no document. *)
Record t := mk {
  grace_period_days : option Q;
  fine_daily_rate : option Q;
  fine_hourly_rate : option Q;
  fine_rate_type : option string;
  max_fine_amount : option Q
}.

(** [SystemConfig.getValue(key, defaultValue)]. *)
Definition getValue {A} (doc : option A) (defaultValue : A) : A :=
  match doc with
  | Some value => value
  | None => defaultValue
  end.

End SystemConfig.

(** ** The fine calculator *)

Module Calculator.

(** [this.defaultConfig] of the service. *)
Record DefaultConfig := {
  gracePeriod : Q;
  dailyRate : Q;
  hourlyRate : Q;
  maxFine : Q;
  lostBookMultiplier : Q
}.

Definition defaultConfig : DefaultConfig :=
  {| gracePeriod := 2; dailyRate := 50; hourlyRate := 5; maxFine := 2000;
     lostBookMultiplier := 2 |}.

(** The object [calculateOverdueFine] resolves to. The grace branch returns
    only [fineAmount] and [gracePeriodUsed]; the other properties are then
    undefined ([None]). *)
Record Result := {
  fineAmount : Q;
  gracePeriodUsed : bool;
  overdueDays : option Z;
  rateType : option string;
  rate_daily : option Q;
  rate_hourly : option Q
}.

(** Lines 31-65 of [calculateOverdueFine]: everything after the loan has
    been loaded and accepted. *)
Definition compute (cfg : SystemConfig.t) (now dueDate : Z) : Result :=
  let gracePeriod :=
    SystemConfig.getValue (SystemConfig.grace_period_days cfg) (gracePeriod defaultConfig) in
  let dailyRate :=
    SystemConfig.getValue (SystemConfig.fine_daily_rate cfg) (dailyRate defaultConfig) in
  let hourlyRate :=
    SystemConfig.getValue (SystemConfig.fine_hourly_rate cfg) (hourlyRate defaultConfig) in
  let rateType :=
    SystemConfig.getValue (SystemConfig.fine_rate_type cfg) "per_day"%string in
  let overdueDays := Moment.diff now dueDate Moment.days in
  if Js.num_leb (inject_Z overdueDays) gracePeriod then
    {| fineAmount := 0; gracePeriodUsed := true; overdueDays := None;
       rateType := None; rate_daily := None; rate_hourly := None |}
  else
    let fineAmount :=
      if String.eqb rateType "per_hour" then
        let overdueHours := Moment.diff now dueDate Moment.hours in
        (Js.Math_max 0 (inject_Z overdueHours - gracePeriod * 24) * hourlyRate)%Q
      else
        (Js.Math_max 0 (inject_Z overdueDays - gracePeriod) * dailyRate)%Q in
    let maxFine :=
      SystemConfig.getValue (SystemConfig.max_fine_amount cfg) (maxFine defaultConfig) in
    let fineAmount := Js.Math_min fineAmount maxFine in
    {| fineAmount := Js.round2 fineAmount; gracePeriodUsed := false;
       overdueDays := Some overdueDays; rateType := Some rateType;
       rate_daily := Some dailyRate; rate_hourly := Some hourlyRate |}.

(** The amount before the cap and the rounding (lines 46-52). *)
Definition rawAmount (cfg : SystemConfig.t) (now dueDate : Z) : Q :=
  let gracePeriod :=
    SystemConfig.getValue (SystemConfig.grace_period_days cfg) (gracePeriod defaultConfig) in
  let dailyRate :=
    SystemConfig.getValue (SystemConfig.fine_daily_rate cfg) (dailyRate defaultConfig) in
  let hourlyRate :=
    SystemConfig.getValue (SystemConfig.fine_hourly_rate cfg) (hourlyRate defaultConfig) in
  let rateType :=
    SystemConfig.getValue (SystemConfig.fine_rate_type cfg) "per_day"%string in
  if String.eqb rateType "per_hour" then
    (Js.Math_max 0 (inject_Z (Moment.diff now dueDate Moment.hours) - gracePeriod * 24)
     * hourlyRate)%Q
  else
    (Js.Math_max 0 (inject_Z (Moment.diff now dueDate Moment.days) - gracePeriod)
     * dailyRate)%Q.

(** The policy values one calculation reads. *)
Definition grace_of (cfg : SystemConfig.t) : Q :=
  SystemConfig.getValue (SystemConfig.grace_period_days cfg) (gracePeriod defaultConfig).
Definition daily_of (cfg : SystemConfig.t) : Q :=
  SystemConfig.getValue (SystemConfig.fine_daily_rate cfg) (dailyRate defaultConfig).
Definition cap_of (cfg : SystemConfig.t) : Q :=
  SystemConfig.getValue (SystemConfig.max_fine_amount cfg) (maxFine defaultConfig).
Definition rate_type_of (cfg : SystemConfig.t) : string :=
  SystemConfig.getValue (SystemConfig.fine_rate_type cfg) "per_day"%string.

(** Whole days overdue, as line 38 computes them. *)
Definition days_overdue (now dueDate : Z) : Z := Moment.diff now dueDate Moment.days.

End Calculator.

(** ** Documents *)

Module Borrow.

Inductive type_t := reservation | borrowed | returned | overdue | lost.
Inductive status_t := active | completed | cancelled | status_overdue.

#[global] Instance type_eq_dec : EqDecision type_t.
Proof. solve_decision. Defined.
#[global] Instance status_eq_dec : EqDecision status_t.
Proof. solve_decision. Defined.

(** The fields of [borrowSchema] the fine service reads or writes. [user]
    and [book] are references (indices into the collections). A loan that
    has been issued carries its due date; the sweep only selects such
    loans. *)
Record t := mk {
  user : nat;
  book : nat;
  type : type_t;
  status : status_t;
  dueDate : Z;
  isLost : bool;
  lostAt : option Z
}.

End Borrow.

Module Fine.

Inductive type_t := overdue | lost | damaged | reservation_expired.
Inductive status_t := pending | paid | waived | cancelled.

#[global] Instance type_eq_dec : EqDecision type_t.
Proof. solve_decision. Defined.
#[global] Instance status_eq_dec : EqDecision status_t.
Proof. solve_decision. Defined.

Record t := mk {
  user : nat;
  borrow : nat;
  amount : Q;
  type : type_t;
  status : status_t;
  dueDate : Z;
  paidAt : option Z;
  paidBy : option nat;
  waivedBy : option nat;
  waivedAt : option Z;
  waiverReason : option string;
  baseAmount : Q;
  rateType : string;
  rate : Q;
  gracePeriod : Q;
  overdueDays : Z;
  bookValue : Q;
  replacementCost : Q
}.

(** The schema validators that can reject what the service writes:
    [amount: { min: 0 }] and the enum of [rateType]. *)
Definition validate (f : t) : bool :=
  Js.num_leb 0 (amount f) &&
  (String.eqb (rateType f) "per_hour" || String.eqb (rateType f) "per_day"
   || String.eqb (rateType f) "fixed").

(** [fineSchema.methods.markAsPaid], before its [save]. *)
Definition markAsPaid (now : Z) (by_ : nat) (f : t) : t :=
  mk (user f) (borrow f) (amount f) (type f) paid (dueDate f)
     (Some now) (Some by_) (waivedBy f) (waivedAt f) (waiverReason f)
     (baseAmount f) (rateType f) (rate f) (gracePeriod f) (overdueDays f)
     (bookValue f) (replacementCost f).

(** [fineSchema.methods.waiveFine], before its [save]; the schema trims
    [waiverReason]. *)
Definition waiveFine (now : Z) (by_ : nat) (reason : string) (f : t) : t :=
  mk (user f) (borrow f) (amount f) (type f) waived (dueDate f)
     (paidAt f) (paidBy f) (Some by_) (Some now) (Some (JsString.trim reason))
     (baseAmount f) (rateType f) (rate f) (gracePeriod f) (overdueDays f)
     (bookValue f) (replacementCost f).

End Fine.

Module User.

Record t := mk {
  fineBalance : Q;
  phone : option string;
  email : option string
}.

(** [{ $inc: { fineBalance: delta } }]. *)
Definition inc (delta : Q) (u : t) : t :=
  mk (fineBalance u + delta)%Q (phone u) (email u).

End User.

Module Book.

Record t := mk { price : Q }.

End Book.

Module Notification.

Inductive channel := sms | email | in_app.
Inductive type_t := fine_notice | fine_paid | fine_waived.
Inductive status_t := pending | sent | failed | delivered.

#[global] Instance channel_eq_dec : EqDecision channel.
Proof. solve_decision. Defined.
#[global] Instance status_eq_dec : EqDecision status_t.
Proof. solve_decision. Defined.

Record t := mk {
  user : nat;
  type : type_t;
  channels : list channel;
  status : status_t;
  smsStatus : status_t;
  emailStatus : status_t;
  sentAt : option Z;
  failedAt : option Z;
  failureReason : option string;
  retryCount : nat;
  maxRetries : nat
}.

(** [notificationSchema.methods.markAsSent], before its [save]. *)
Definition markAsSent (now : Z) (c : channel) (n : t) : t :=
  let smsStatus' := if decide (c = sms) then sent else smsStatus n in
  let emailStatus' :=
    if decide (c = sms) then emailStatus n
    else if decide (c = email) then sent else emailStatus n in
  let all := bool_decide (smsStatus' = sent) && bool_decide (emailStatus' = sent) in
  mk (user n) (type n) (channels n)
     (if all then sent else status n) smsStatus' emailStatus'
     (if all then Some now else sentAt n) (failedAt n) (failureReason n)
     (retryCount n) (maxRetries n).

(** [notificationSchema.methods.markAsFailed], before its [save]. *)
Definition markAsFailed (now : Z) (c : channel) (reason : string) (n : t) : t :=
  let smsStatus' := if decide (c = sms) then failed else smsStatus n in
  let emailStatus' :=
    if decide (c = sms) then emailStatus n
    else if decide (c = email) then failed else emailStatus n in
  let retry := (retryCount n <? maxRetries n)%nat in
  mk (user n) (type n) (channels n)
     (if retry then pending else failed) smsStatus' emailStatus'
     (sentAt n) (Some now) (Some reason)
     (if retry then (retryCount n + 1)%nat else retryCount n) (maxRetries n).

End Notification.

(** ** The database, errors and the monad of service calls *)

Record Db := mkDb {
  borrows : list Borrow.t;
  fines : list Fine.t;
  users : list User.t;
  books : list Book.t;
  config : SystemConfig.t;
  notifications : list Notification.t
}.

(** The rejections of the services. The comment of each constructor is the
    message of the [Error] in the source, or the failure it stands for. *)
Inductive error :=
| BorrowNotFound        (* 'Borrow record not found' *)
| InvalidBorrow         (* 'Invalid borrow record or already completed' *)
| DuplicateFine         (* 'Fine already exists for this borrow' *)
| DuplicateLostFine     (* 'Fine already exists for this lost book' *)
| FineNotFound          (* 'Fine not found' *)
| AlreadyPaid           (* 'Fine is already paid' *)
| CannotWaivePaid       (* 'Cannot waive already paid fine' *)
| ValidationError       (* a Mongoose validator rejected the document *)
| TypeError             (* a property of [null] was read *)
| PopulateFailed        (* a [populate] of the notification service rejected *)
| NotificationNotSaved  (* [Notification.create] or a [save] rejected *)
| SmsFailed             (* [sendSMS] rejected *)
| EmailFailed.          (* [sendEmail] rejected *)

Definition message (e : error) : string :=
  match e with
  | BorrowNotFound => "Borrow record not found"
  | InvalidBorrow => "Invalid borrow record or already completed"
  | DuplicateFine => "Fine already exists for this borrow"
  | DuplicateLostFine => "Fine already exists for this lost book"
  | FineNotFound => "Fine not found"
  | AlreadyPaid => "Fine is already paid"
  | CannotWaivePaid => "Cannot waive already paid fine"
  | ValidationError => "Validation failed"
  | TypeError => "Cannot read properties of null"
  | PopulateFailed => "populate failed"
  | NotificationNotSaved => "notification not saved"
  | SmsFailed => "SMS configuration not available"
  | EmailFailed => "Email service not initialized"
  end.

Inductive result (A : Type) :=
| Ok (value : A)
| Err (e : error).
Arguments Ok {A} value.
Arguments Err {A} e.

(** An [async] method: the database after the call and its outcome. *)
Definition M (A : Type) : Type := Db -> Db * result A.

Definition ret {A} (a : A) : M A := fun db => (db, Ok a).
Definition throw {A} (e : error) : M A := fun db => (db, Err e).
Definition bind {A B} (m : M A) (k : A -> M B) : M B :=
  fun db =>
    match m db with
    | (db', Ok a) => k a db'
    | (db', Err e) => (db', Err e)
    end.

Declare Scope svc_scope.
Delimit Scope svc_scope with svc.
Notation "x <- m ;; k" := (bind m (fun x => k))
  (at level 90, m at level 80, k at level 90, right associativity) : svc_scope.
Notation "m ;;; k" := (bind m (fun _ => k))
  (at level 90, k at level 90, right associativity) : svc_scope.
Local Open Scope svc_scope.

Definition get : M Db := fun db => (db, Ok db).

(** The writes of the service, one per collection. *)
Definition set_fines (l : list Fine.t) (db : Db) : Db :=
  mkDb (borrows db) l (users db) (books db) (config db) (notifications db).
Definition set_users (l : list User.t) (db : Db) : Db :=
  mkDb (borrows db) (fines db) l (books db) (config db) (notifications db).
Definition set_borrows (l : list Borrow.t) (db : Db) : Db :=
  mkDb l (fines db) (users db) (books db) (config db) (notifications db).
Definition set_notifications (l : list Notification.t) (db : Db) : Db :=
  mkDb (borrows db) (fines db) (users db) (books db) (config db) l.

(** ** What the outside world decides during one service call *)

Module Env.

(** The [user] object handed to [sendNotification]: [_id], [phone] and
    [email] are the properties it reads. *)
Record Recipient := mkRecipient {
  rid : nat;
  rphone : option string;
  remail : option string
}.

Record t := mk {
  (** what the [populate] chain of [sendFineNotice] leaves in [user];
      [None] when a [populate] rejects *)
  populated : option Recipient;
  (** [Notification.create] resolves *)
  create_resolves : bool;
  (** [sendSMS] resolves (gateway configured and reachable) *)
  sms_resolves : bool;
  (** [sendEmail] resolves (transporter initialised, mail accepted) *)
  email_resolves : bool;
  (** the [save] of [markAsSent] resolves *)
  sent_saved : bool;
  (** the [save] of [markAsFailed] resolves *)
  failed_saved : bool
}.

End Env.

(** ** notificationService.js *)

Module NotificationService.

Import Notification.

(** [notification.save()] for the document with [_id = nid]. *)
Definition save (resolves : bool) (nid : nat) (n : Notification.t) : M unit :=
  if resolves then
    fun db => (set_notifications (<[nid := n]> (notifications db)) db, Ok tt)
  else throw NotificationNotSaved.

(** [sendSMS] and [sendEmail]: both log and rethrow what goes wrong. *)
Definition sendSMS (env : Env.t) : M unit :=
  if Env.sms_resolves env then ret tt else throw SmsFailed.

Definition sendEmail (env : Env.t) : M unit :=
  if Env.email_resolves env then ret tt else throw EmailFailed.

(** The document [notification] lives in memory during the loop:
    [markAsSent] and [markAsFailed] mutate it and then save it. A step of
    the [try] block therefore yields the document as it stands, with the
    error if it threw. *)
Definition Step : Type := Db -> Db * (Notification.t * option error).

(** [results.c = await this.send...(...); await notification.markAsSent(c)]. *)
Definition deliver (send : M unit) (env : Env.t) (now : Z) (nid : nat)
    (c : channel) (n : Notification.t) : Step :=
  fun db =>
    match send db with
    | (db1, Err e) => (db1, (n, Some e))
    | (db1, Ok _) =>
        let n' := markAsSent now c n in
        match save (Env.sent_saved env) nid n' db1 with
        | (db2, Err e) => (db2, (n', Some e))
        | (db2, Ok _) => (db2, (n', None))
        end
    end.

(** The [try] block of the channel loop (lines 124-136). *)
Definition try_channel (env : Env.t) (now : Z) (user : Env.Recipient)
    (nid : nat) (c : channel) (n : Notification.t) : Step :=
  fun db =>
    let r1 :=
      if bool_decide (c = sms) && bool_decide (is_Some (Env.rphone user)) then
        deliver (sendSMS env) env now nid sms n db
      else (db, (n, None)) in
    match r1 with
    | (db1, (n1, Some e)) => (db1, (n1, Some e))
    | (db1, (n1, None)) =>
        if bool_decide (c = email) && bool_decide (is_Some (Env.remail user)) then
          deliver (sendEmail env) env now nid email n1 db1
        else (db1, (n1, None))
    end.

(** One iteration of the channel loop with its [catch] (lines 137-141):
    a failed channel is recorded on the notification and does not reject,
    unless the [save] of [markAsFailed] itself rejects. *)
Definition send_channel (env : Env.t) (now : Z) (user : Env.Recipient)
    (nid : nat) (c : channel) (n : Notification.t) : M Notification.t :=
  fun db =>
    match try_channel env now user nid c n db with
    | (db1, (n1, None)) => (db1, Ok n1)
    | (db1, (n1, Some e)) =>
        let n2 := markAsFailed now c (message e) n1 in
        match save (Env.failed_saved env) nid n2 db1 with
        | (db2, Err e') => (db2, Err e')
        | (db2, Ok _) => (db2, Ok n2)
        end
    end.

Fixpoint send_channels (env : Env.t) (now : Z) (user : Env.Recipient)
    (nid : nat) (cs : list channel) (n : Notification.t) : M unit :=
  match cs with
  | [] => ret tt
  | c :: cs' =>
      n' <- send_channel env now user nid c n ;;
      send_channels env now user nid cs' n'
  end.

(** [Notification.create]: the new document with the schema defaults. *)
Definition create (env : Env.t) (user : nat) (ty : type_t) (cs : list channel)
  : M (nat * Notification.t) :=
  if Env.create_resolves env then
    fun db =>
      let n := Notification.mk user ty cs pending pending pending None None None 0 3 in
      (set_notifications (notifications db ++ [n]) db,
       Ok (length (notifications db), n))
  else throw NotificationNotSaved.

(** [sendNotification]; resolves to the [notificationId]. Its outer
    [catch] logs and rethrows. *)
Definition sendNotification (env : Env.t) (now : Z) (user : Env.Recipient)
    (ty : type_t) (cs : list channel) : M nat :=
  d <- create env (Env.rid user) ty cs ;;
  send_channels env now user d.1 cs d.2 ;;;
  ret d.1.

(** [sendFineNotice]: the [populate] chain, then [sendNotification] over
    SMS and e-mail. Its [catch] logs and rethrows. *)
Definition sendFineNotice (env : Env.t) (now : Z) (fine : nat * Fine.t) : M nat :=
  match Env.populated env with
  | None => throw PopulateFailed
  | Some user => sendNotification env now user fine_notice [sms; email]
  end.

End NotificationService.

(** ** Collection queries and writes used by the fine service *)

(** [Fine.findOne({ borrow, type })]: the first matching document. *)
Definition Fine_findOne (borrowId : nat) (ty : Fine.type_t) (db : Db)
  : option (nat * Fine.t) :=
  list_find (fun f => Fine.borrow f = borrowId /\ Fine.type f = ty) (fines db).

(** [Fine.create]: validate, then append; the [_id] is the next index. *)
Definition Fine_create (f : Fine.t) : M (nat * Fine.t) :=
  if Fine.validate f then
    fun db => (set_fines (fines db ++ [f]) db, Ok (length (fines db), f))
  else throw ValidationError.

(** [User.findByIdAndUpdate(id, { $inc: { fineBalance: delta } })]: no
    document, no write. *)
Definition User_inc (uid : nat) (delta : Q) : M unit :=
  fun db =>
    match users db !! uid with
    | Some u => (set_users (<[uid := User.inc delta u]> (users db)) db, Ok tt)
    | None => (db, Ok tt)
    end.

(** [doc.user._id] of a populated reference: a [TypeError] when the
    referenced user does not exist ([populate] leaves [null]). *)
Definition populated_user (uid : nat) : M (nat * User.t) :=
  fun db =>
    match users db !! uid with
    | Some u => (db, Ok (uid, u))
    | None => (db, Err TypeError)
    end.

(** ** fineService.js *)

Module FineService.

Import Calculator.

(** [calculateOverdueFine(borrowId)]. *)
Definition calculateOverdueFine (now : Z) (borrowId : nat) : M Calculator.Result :=
  fun db =>
    match borrows db !! borrowId with
    | None => (db, Err InvalidBorrow)
    | Some borrow =>
        if decide (Borrow.status borrow = Borrow.completed) then (db, Err InvalidBorrow)
        else (db, Ok (Calculator.compute (config db) now (Borrow.dueDate borrow)))
    end.

(** The document handed to [Fine.create] by [createOverdueFine]
    (lines 96-107); an undefined property takes its schema default. *)
Definition overdueFineData (cfg : SystemConfig.t) (now : Z) (uid borrowId : nat)
    (c : Calculator.Result) : Fine.t :=
  let rateType := Calculator.rateType c in
  let rate :=
    match rateType with
    | Some s => if String.eqb s "per_hour" then Calculator.rate_hourly c
                else Calculator.rate_daily c
    | None => Calculator.rate_daily c
    end in
  Fine.mk uid borrowId (fineAmount c) Fine.overdue Fine.pending
    (Moment.add_days now 7) None None None None None
    (fineAmount c) (default "per_day"%string rateType) (default 50%Q rate)
    (SystemConfig.getValue (SystemConfig.grace_period_days cfg) (gracePeriod defaultConfig))
    (default 0 (Calculator.overdueDays c)) 0 0.

(** [createOverdueFine(borrowId, issuedBy)]; [None] is the [null] it
    resolves to when no fine is needed. *)
Definition createOverdueFine (env : Env.t) (now : Z) (borrowId : nat)
  : M (option (nat * Fine.t)) :=
  db <- get ;;
  match borrows db !! borrowId with
  | None => throw BorrowNotFound
  | Some borrow =>
      match Fine_findOne borrowId Fine.overdue db with
      | Some _ => throw DuplicateFine
      | None =>
          fineCalculation <- calculateOverdueFine now borrowId ;;
          if Js.num_eqb (fineAmount fineCalculation) 0 then ret None
          else
            user <- populated_user (Borrow.user borrow) ;;
            fine <- Fine_create
                      (overdueFineData (config db) now user.1 borrowId fineCalculation) ;;
            User_inc user.1 (fineAmount fineCalculation) ;;;
            NotificationService.sendFineNotice env now fine ;;;
            ret (Some fine)
      end
  end.

(** [replacementCost || borrow.book.price]: a cost that is [null] or [0]
    is falsy; the price is then read from the populated book. *)
Definition bookValue (replacementCost : option Q) (borrow : Borrow.t) : M Q :=
  match replacementCost with
  | Some c => if Js.num_eqb c 0 then
                fun db => match books db !! Borrow.book borrow with
                          | Some b => (db, Ok (Book.price b))
                          | None => (db, Err TypeError)
                          end
              else ret c
  | None => fun db => match books db !! Borrow.book borrow with
                      | Some b => (db, Ok (Book.price b))
                      | None => (db, Err TypeError)
                      end
  end.

(** [Borrow.findByIdAndUpdate(borrowId, { isLost: true, lostAt, status })]. *)
Definition markLost (now : Z) (borrowId : nat) : M unit :=
  fun db =>
    match borrows db !! borrowId with
    | Some b =>
        let b' := Borrow.mk (Borrow.user b) (Borrow.book b) (Borrow.type b)
                    Borrow.completed (Borrow.dueDate b) true (Some now) in
        (set_borrows (<[borrowId := b']> (borrows db)) db, Ok tt)
    | None => (db, Ok tt)
    end.

(** The document handed to [Fine.create] by [createLostBookFine]
    (lines 146-157) for a book value [v]. *)
Definition lostFineData (now : Z) (uid borrowId : nat) (v : Q) : Fine.t :=
  let fineAmount := (v * lostBookMultiplier defaultConfig)%Q in
  Fine.mk uid borrowId fineAmount Fine.lost Fine.pending
    (Moment.add_days now 14) None None None None None
    fineAmount "fixed" 0 0 0 v fineAmount.

(** [createLostBookFine(borrowId, issuedBy, replacementCost = null)]. *)
Definition createLostBookFine (env : Env.t) (now : Z) (borrowId : nat)
    (replacementCost : option Q) : M (nat * Fine.t) :=
  db <- get ;;
  match borrows db !! borrowId with
  | None => throw BorrowNotFound
  | Some borrow =>
      match Fine_findOne borrowId Fine.lost db with
      | Some _ => throw DuplicateLostFine
      | None =>
          bookValue <- bookValue replacementCost borrow ;;
          let fineAmount := (bookValue * lostBookMultiplier defaultConfig)%Q in
          user <- populated_user (Borrow.user borrow) ;;
          fine <- Fine_create (lostFineData now user.1 borrowId bookValue) ;;
          markLost now borrowId ;;;
          User_inc user.1 fineAmount ;;;
          NotificationService.sendFineNotice env now fine ;;;
          ret fine
      end
  end.

(** [fine.save()] after a model method mutated the document. *)
Definition Fine_save (fineId : nat) (f : Fine.t) : M unit :=
  fun db => (set_fines (<[fineId := f]> (fines db)) db, Ok tt).

Definition recipient (u : nat * User.t) : Env.Recipient :=
  Env.mkRecipient u.1 (User.phone u.2) (User.email u.2).

(** [payFine(fineId, paidBy, paymentMethod, receiptNumber)]. *)
Definition payFine (env : Env.t) (now : Z) (fineId paidBy : nat) : M (nat * Fine.t) :=
  db <- get ;;
  match fines db !! fineId with
  | None => throw FineNotFound
  | Some fine =>
      if decide (Fine.status fine = Fine.paid) then throw AlreadyPaid
      else
        let fine' := Fine.markAsPaid now paidBy fine in
        Fine_save fineId fine' ;;;
        user <- populated_user (Fine.user fine') ;;
        User_inc user.1 (- Fine.amount fine')%Q ;;;
        NotificationService.sendNotification env now (recipient user)
          Notification.fine_paid [Notification.email] ;;;
        ret (fineId, fine')
  end.

(** [waiveFine(fineId, waivedBy, reason)]. *)
Definition waiveFine (env : Env.t) (now : Z) (fineId waivedBy : nat) (reason : string)
  : M (nat * Fine.t) :=
  db <- get ;;
  match fines db !! fineId with
  | None => throw FineNotFound
  | Some fine =>
      if decide (Fine.status fine = Fine.paid) then throw CannotWaivePaid
      else
        let fine' := Fine.waiveFine now waivedBy reason fine in
        Fine_save fineId fine' ;;;
        user <- populated_user (Fine.user fine') ;;
        User_inc user.1 (- Fine.amount fine')%Q ;;;
        NotificationService.sendNotification env now (recipient user)
          Notification.fine_waived [Notification.email] ;;;
        ret (fineId, fine')
  end.

(** The query of the sweep: [{ status: 'active', dueDate: { $lt: now },
    type: 'borrowed' }], as the list of the [_id]s it selects. *)
Definition overdueBorrows (now : Z) (db : Db) : list nat :=
  (filter (fun ib => Borrow.status ib.2 = Borrow.active /\ Borrow.dueDate ib.2 < now
                     /\ Borrow.type ib.2 = Borrow.borrowed)
          (imap pair (borrows db))).*1.

(** The body of the [for] loop with its [try]/[catch] (lines 355-364):
    the database after it and what it adds to [processedCount]. Each loan
    meets its own outside world [env borrowId]. *)
Definition processBorrow (env : nat -> Env.t) (now : Z) (borrowId : nat) (db : Db)
  : Db * nat :=
  match Fine_findOne borrowId Fine.overdue db with
  | Some _ => (db, 0%nat)
  | None =>
      match createOverdueFine (env borrowId) now borrowId db with
      | (db', Ok _) => (db', 1%nat)
      | (db', Err _) => (db', 0%nat)
      end
  end.

Fixpoint sweep (env : nat -> Env.t) (now : Z) (ids : list nat) (db : Db) : Db * nat :=
  match ids with
  | [] => (db, 0%nat)
  | borrowId :: rest =>
      let (db1, c) := processBorrow env now borrowId db in
      let (db2, n) := sweep env now rest db1 in
      (db2, (c + n)%nat)
  end.

Record SweepResult := { processedCount : nat; totalOverdue : nat }.

(** [processOverdueFines()]. *)
Definition processOverdueFines (env : nat -> Env.t) (now : Z) (db : Db)
  : Db * SweepResult :=
  let ids := overdueBorrows now db in
  let (db', n) := sweep env now ids db in
  (db', {| processedCount := n; totalOverdue := length ids |}).

End FineService.

(** ** Vocabulary of the properties *)

(** The notification service writes to the notification collection only:
    the collections of the ledger are the same in [db'] as in [db]. *)
Definition same_ledger (db db' : Db) : Prop :=
  borrows db' = borrows db /\ fines db' = fines db /\ users db' = users db
  /\ books db' = books db /\ config db' = config db.

(** The number of fines of type 'overdue' recorded for a loan. *)
Definition overdue_fines (db : Db) (borrowId : nat) : nat :=
  length (filter (fun f => Fine.borrow f = borrowId /\ Fine.type f = Fine.overdue)
                 (fines db)).

(** The fine balance of a user, when the user exists. *)
Definition balance (db : Db) (uid : nat) : option Q :=
  User.fineBalance <$> users db !! uid.

(** [createOverdueFine] gets as far as writing the fine [f] for the loan
    [b] of user [u]: the conditions of lines 79-107. *)
Record charge (now : Z) (borrowId : nat) (db : Db)
    (b : Borrow.t) (u : User.t) (f : Fine.t) : Prop := {
  charge_borrow : borrows db !! borrowId = Some b;
  charge_fresh : Fine_findOne borrowId Fine.overdue db = None;
  charge_open : Borrow.status b <> Borrow.completed;
  charge_due :
    Js.num_eqb
      (Calculator.fineAmount (Calculator.compute (config db) now (Borrow.dueDate b))) 0
    = false;
  charge_user : users db !! Borrow.user b = Some u;
  charge_fine :
    f = FineService.overdueFineData (config db) now (Borrow.user b) borrowId
          (Calculator.compute (config db) now (Borrow.dueDate b));
  charge_valid : Fine.validate f = true
}.

(** The ledger after a fine [f] has been appended and the balance of its
    user [u] incremented. *)
Definition booked (db : Db) (uid : nat) (u : User.t) (f : Fine.t) : Db :=
  set_users (<[uid := User.inc (Fine.amount f) u]> (users db))
            (set_fines (fines db ++ [f]) db).

(** The ledger after the fine [fid] has been replaced by [f'] and the
    balance of its user [u] decremented by its amount. *)
Definition settled (db : Db) (fid : nat) (f' : Fine.t) (u : User.t) : Db :=
  set_users (<[Fine.user f' := User.inc (- Fine.amount f')%Q u]> (users db))
            (set_fines (<[fid := f']> (fines db)) db).

(** The operations of the ledger and the sweep, as calls with their
    arguments, their clock and their outside world. *)
Inductive call :=
| CreateOverdueFine (env : Env.t) (now : Z) (borrowId : nat)
| CreateLostBookFine (env : Env.t) (now : Z) (borrowId : nat) (replacementCost : option Q)
| PayFine (env : Env.t) (now : Z) (fineId paidBy : nat)
| WaiveFine (env : Env.t) (now : Z) (fineId waivedBy : nat) (reason : string)
| ProcessOverdueFines (env : nat -> Env.t) (now : Z).

(** The database after a call, resolved or rejected. *)
Definition after (c : call) (db : Db) : Db :=
  match c with
  | CreateOverdueFine env now borrowId =>
      (FineService.createOverdueFine env now borrowId db).1
  | CreateLostBookFine env now borrowId replacementCost =>
      (FineService.createLostBookFine env now borrowId replacementCost db).1
  | PayFine env now fineId paidBy =>
      (FineService.payFine env now fineId paidBy db).1
  | WaiveFine env now fineId waivedBy reason =>
      (FineService.waiveFine env now fineId waivedBy reason db).1
  | ProcessOverdueFines env now =>
      (FineService.processOverdueFines env now db).1
  end.

(** The database after a sequence of calls, one after the other. *)
Definition after_all (cs : list call) (db : Db) : Db :=
  foldl (fun d c => after c d) db cs.

(** The three ways one write of the ledger changes the fine collection:
    not at all, by a new fine (an overdue fine only for a loan that has
    none), or by settling a fine that is not paid. *)
Inductive fines_step (l l' : list Fine.t) : Prop :=
| fines_same : l' = l -> fines_step l l'
| fines_add f :
    l' = l ++ [f] ->
    (Fine.type f = Fine.overdue ->
     Forall (fun g => ~ (Fine.borrow g = Fine.borrow f /\ Fine.type g = Fine.overdue)) l) ->
    fines_step l l'
| fines_settle j g g' :
    l !! j = Some g ->
    Fine.status g <> Fine.paid ->
    l' = <[j := g']> l ->
    Fine.borrow g' = Fine.borrow g ->
    Fine.type g' = Fine.type g ->
    fines_step l l'.

(** The ledger after [createLostBookFine] has written the fine [f] for
    the loan [b] of user [u]. *)
Definition lost_booked (now : Z) (db : Db) (borrowId : nat) (b : Borrow.t)
    (u : User.t) (f : Fine.t) : Db :=
  set_users (<[Borrow.user b := User.inc (Fine.amount f) u]> (users db))
    (set_borrows
       (<[borrowId := Borrow.mk (Borrow.user b) (Borrow.book b) (Borrow.type b)
                        Borrow.completed (Borrow.dueDate b) true (Some now)]>
          (borrows db))
       (set_fines (fines db ++ [f]) db)).

(** ** The scenarios of the specification *)

Module Scenario.

(** Every outside call resolves; [populate] leaves a recipient without
    phone or e-mail. *)
Definition calm : Env.t :=
  Env.mk (Some (Env.mkRecipient 0 None None)) true true true true true.

(** [Notification.create] rejects. *)
Definition no_record : Env.t :=
  Env.mk (Some (Env.mkRecipient 0 None None)) false true true true true.

(** [populate] rejects: the fine notice populates the path 'book', which
    the fine schema does not have. *)
Definition unpopulated : Env.t := Env.mk None true true true true true.

(** Both transports reject for a recipient that has phone and e-mail. *)
Definition no_transport : Env.t :=
  Env.mk (Some (Env.mkRecipient 0 (Some "0700000000"%string) (Some "m@lib"%string)))
         true false false true true.

Definition member : User.t := User.mk 0 (Some "0700000000"%string) (Some "m@lib"%string).

(** The loan due 2024-01-01 of the concrete scenarios. *)
Definition loan : Borrow.t :=
  Borrow.mk 0 0 Borrow.borrowed Borrow.active (Moment.utc 2024 1 1) false None.

Definition returned_loan : Borrow.t :=
  Borrow.mk 0 0 Borrow.returned Borrow.completed (Moment.utc 2024 1 1) false None.

Definition library (b : Borrow.t) (cfg : SystemConfig.t) : Db :=
  mkDb [b] [] [member] [Book.mk 1000] cfg [].

(** Grace 2 days, 50 a day, per day, with the cap as given. *)
Definition policy (cap : Q) : SystemConfig.t :=
  SystemConfig.mk (Some 2%Q) (Some 50%Q) (Some 5%Q) (Some "per_day"%string) (Some cap).

(** The evaluation instant of the second scenario and the fine it
    produces for [loan] under [policy 2000]. *)
Definition fifth : Z := Moment.utc 2024 1 5.

Definition fine : Fine.t :=
  FineService.overdueFineData (policy 2000) fifth 0 0
    (Calculator.compute (policy 2000) fifth (Borrow.dueDate loan)).

(** The library after that fine has been created. *)
Definition charged : Db :=
  (FineService.createOverdueFine calm fifth 0 (library loan (policy 2000))).1.



(** The same library once the fine has been paid by staff member 7. *)
Definition paid_up : Db := (FineService.payFine calm fifth 0 7 charged).1.

End Scenario.

(** * Further parts of the code *)

(** ** Model methods and virtuals of [Fine] and [Borrow] *)

Module FineDoc.

(** [fineSchema.methods.isOverdue]: [new Date() > this.dueDate]. *)
Definition isOverdue (now : Z) (f : Fine.t) : bool := bool_decide (Fine.dueDate f < now).

(** The virtual [totalAmount] of [fineSchema]. *)
Definition totalAmount (f : Fine.t) : Q :=
  if bool_decide (Fine.status f = Fine.paid) || bool_decide (Fine.status f = Fine.waived)
  then Fine.amount f
  else if bool_decide (Fine.type f = Fine.overdue) && (0 <? Fine.overdueDays f) then
    let additionalAmount :=
      if String.eqb (Fine.rateType f) "per_hour" then
        (inject_Z (Fine.overdueDays f) * 24 * Fine.rate f)%Q
      else if String.eqb (Fine.rateType f) "per_day" then
        (inject_Z (Fine.overdueDays f) * Fine.rate f)%Q
      else 0%Q in
    (Fine.baseAmount f + additionalAmount)%Q
  else Fine.amount f.

End FineDoc.

Module BorrowDoc.

(** [Math.ceil] of a quotient of two integers. *)
Definition ceil_quotient (a b : Z) : Z := Qceiling (inject_Z a / inject_Z b).

(** The virtual [overdueDays] of [borrowSchema]: whole days, rounded up,
    never negative, and zero for a completed loan. *)
Definition overdueDays (now : Z) (b : Borrow.t) : Z :=
  if decide (Borrow.status b = Borrow.completed) then 0
  else
    let diffTime := now - Borrow.dueDate b in
    let diffDays := ceil_quotient diffTime (1000 * 60 * 60 * 24) in
    Z.max 0 diffDays.

(** [borrowSchema.methods.isOverdue]. *)
Definition isOverdue (now : Z) (b : Borrow.t) : bool :=
  if decide (Borrow.status b = Borrow.completed) then false
  else bool_decide (Borrow.dueDate b < now).

(** The document after [borrowSchema.methods.markAsOverdue], before its
    [save]. *)
Definition markedOverdue (now : Z) (b : Borrow.t) : Borrow.t :=
  if isOverdue now b then
    Borrow.mk (Borrow.user b) (Borrow.book b) Borrow.overdue Borrow.status_overdue
              (Borrow.dueDate b) (Borrow.isLost b) (Borrow.lostAt b)
  else b.

(** [borrow.markAsOverdue()] on the document with [_id = borrowId]: it
    saves only when the loan is overdue. *)
Definition markAsOverdue (now : Z) (borrowId : nat) : M unit :=
  fun db =>
    match borrows db !! borrowId with
    | Some b =>
        if isOverdue now b then
          (set_borrows (<[borrowId := markedOverdue now b]> (borrows db)) db, Ok tt)
        else (db, Ok tt)
    | None => (db, Ok tt)
    end.

End BorrowDoc.

(** ** The stock of a [Book] *)

Module BookStock.

Inductive availability := unavailable | low | available.

(** The fields of [bookSchema] its stock methods read and write; copies
    are whole numbers. *)
Record t := mk {
  totalCopies : Z;
  availableCopies : Z;
  isBorrowable : bool;
  isActive : bool
}.

(** The virtual [availabilityStatus]. *)
Definition availabilityStatus (b : t) : availability :=
  if availableCopies b =? 0 then unavailable
  else if Js.num_leb (inject_Z (availableCopies b)) (inject_Z (totalCopies b) * (2 # 10))
  then low
  else available.

(** [bookSchema.methods.canBeBorrowed]. *)
Definition canBeBorrowed (b : t) : bool :=
  isBorrowable b && (0 <? availableCopies b) && isActive b.

(** [bookSchema.methods.updateAvailableCopies], before its [save]. *)
Definition updateAvailableCopies (change : Z) (b : t) : t :=
  mk (totalCopies b)
     (Z.max 0 (Z.min (totalCopies b) (availableCopies b + change)))
     (isBorrowable b) (isActive b).

End BookStock.

(** A step of the ledger seen from one completed loan: the loan stays
    completed and keeps its number of overdue fines. *)
Definition settled_loan (id : nat) (db db' : Db) : Prop :=
  (exists b', borrows db' !! id = Some b' /\ Borrow.status b' = Borrow.completed)
  /\ overdue_fines db' id = overdue_fines db id.

(** ** Repeated failures of a notification *)

(** [notification.markAsFailed(channel, reason)] called once per entry
    of [fs], each entry with the instant of its call. *)
Definition record_failures (fs : list (Z * Notification.channel * string))
    (n : Notification.t) : Notification.t :=
  foldl (fun n f => Notification.markAsFailed f.1.1 f.1.2 f.2 n) n fs.

(** The document [Notification.create] starts from. *)
Definition fresh_notification (user : nat) (ty : Notification.type_t)
    (cs : list Notification.channel) : Notification.t :=
  Notification.mk user ty cs Notification.pending Notification.pending
                  Notification.pending None None None 0 3.

(** ** String helpers of the notification service *)

Module Text.

(** A JavaScript string is a sequence of UTF-16 code units, a [list N]. *)

Definition plus : N := 43.
Definition zero : N := 48.
Definition lt : N := 60.
Definition gt : N := 62.

(** The code units of ["254"]. *)
Definition kenya : list N := [50; 53; 52]%N.

(** The class [\s] of a regular expression: the white space and the
    line terminators of ECMAScript. *)
Definition isWhiteSpace (c : N) : bool :=
  ((9 <=? c) && (c <=? 13) || (c =? 32) || (c =? 160) || (c =? 5760)
   || (8192 <=? c) && (c <=? 8202) || (c =? 8232) || (c =? 8233)
   || (c =? 8239) || (c =? 8287) || (c =? 12288) || (c =? 65279))%N.

Definition visible (c : N) : Prop := isWhiteSpace c = false.

Fixpoint startsWith (p s : list N) : bool :=
  match p, s with
  | [], _ => true
  | _ :: _, [] => false
  | a :: p', b :: s' => (a =? b)%N && startsWith p' s'
  end.

Definition formatPhoneNumber (phone : list N) : list N :=
  let formatted := filter visible phone in
  let formatted := if startsWith [plus] formatted then drop 1 formatted else formatted in
  if negb (startsWith kenya formatted) && startsWith [zero] formatted
  then kenya ++ drop 1 formatted
  else formatted.

(** [replace(/<[^>]*>/g, '')] read from left to right: outside a match a
    ['<'] that has a ['>'] somewhere after it opens a match, which runs
    to the first ['>']; every other code unit is copied. *)
Fixpoint scan (inside : bool) (s : list N) : list N :=
  match s with
  | [] => []
  | c :: r =>
      if inside then
        if bool_decide (c = gt) then scan false r else scan true r
      else if bool_decide (c = lt) && bool_decide (gt ∈ r) then scan true r
      else c :: scan false r
  end.

Definition stripHtml (html : list N) : list N := scan false html.

(** What follows the first ['>'] of a string: the rest of the input
    after a match of [[^>]*>] at its start. *)
Fixpoint tag_end (s : list N) : option (list N) :=
  match s with
  | [] => None
  | c :: r => if bool_decide (c = gt) then Some r else tag_end r
  end.

(** No ['<'] of the string is followed, however far, by a ['>']. *)
Definition no_tag (s : list N) : Prop :=
  forall pre post, s = pre ++ lt :: post -> gt ∉ post.

End Text.

(** ** The role checks of the middleware *)

Module Auth.

(** An argument of [requireRole]: a role name, or an array of names. *)
Inductive arg :=
| Name (s : string)
| Names (l : list string).

(** What the checks read of a request: the role of [req.user], unset
    when no user is attached, and the [role] of the body and of the
    route parameters, as strings when present. *)
Record Req := mk {
  user : option string;
  body_role : option string;
  params_role : option string
}.

Inductive response :=
| next
| reply (status : Z) (message : string).

(** [a === role] for an element of the rest parameter: an array is never
    equal to a string. *)
Definition same_value (role : string) (a : arg) : bool :=
  match a with
  | Name s => String.eqb role s
  | Names _ => false
  end.

(** [list.includes(v)] for a list of names; [undefined] is in none. *)
Definition includes (l : list string) (v : option string) : bool :=
  match v with
  | Some s => existsb (String.eqb s) l
  | None => false
  end.

(** [a || b] on strings: the empty string is falsy. *)
Definition or_else (a b : option string) : option string :=
  match a with
  | Some s => if String.eqb s EmptyString then b else a
  | None => b
  end.

Definition requireRole (roles : list arg) (req : Req) : response :=
  match user req with
  | None => reply 401 "Authentication required"
  | Some role =>
      if existsb (same_value role) roles then next
      else reply 403 "Insufficient permissions"
  end.

Definition canManageUsers (req : Req) : response :=
  match user req with
  | None => reply 401 "Authentication required"
  | Some role =>
      let targetRole := or_else (body_role req) (params_role req) in
      if String.eqb role "admin" then next
      else if String.eqb role "chief_librarian" then
        if includes ["admin"; "chief_librarian"]%string targetRole
        then reply 403 "Cannot manage users of equal or higher role"
        else next
      else if String.eqb role "librarian" then
        if includes ["admin"; "chief_librarian"; "librarian"]%string targetRole
        then reply 403 "Cannot manage staff users"
        else next
      else reply 403 "Insufficient permissions to manage users"
  end.

Definition canManageBooks (req : Req) : response :=
  match user req with
  | None => reply 401 "Authentication required"
  | Some role =>
      if includes ["admin"; "chief_librarian"]%string (Some role) then next
      else reply 403 "Only Chief Librarian and Admin can manage books"
  end.

Definition canManageFines (req : Req) : response :=
  match user req with
  | None => reply 401 "Authentication required"
  | Some role =>
      if includes ["admin"; "chief_librarian"; "librarian"]%string (Some role) then next
      else reply 403 "Only staff can manage fines"
  end.

Definition canViewAudits (req : Req) : response :=
  match user req with
  | None => reply 401 "Authentication required"
  | Some role =>
      if String.eqb role "admin" then next
      else reply 403 "Only Admin can view audit logs"
  end.

(** The order of the staff roles that the comments of [canManageUsers]
    describe; every other role, and no role, is at the bottom. *)
Definition rank (role : option string) : nat :=
  match role with
  | Some r =>
      if String.eqb r "admin" then 3
      else if String.eqb r "chief_librarian" then 2
      else if String.eqb r "librarian" then 1
      else 0
  | None => 0
  end.

End Auth.

(** ** The routes that settle a fine *)

Module AuditLog.

Inductive status_t := success | failure.

(** What [logActivity] puts in an audit document. *)
Record t := mk {
  user : nat;
  action : string;
  entity : string;
  status : status_t;
  statusCode : Z
}.

End AuditLog.

Module FineRoutes.

(** [body(field).isIn(list)] and [body(field).notEmpty()] on a field
    that is a string or absent. *)
Definition isIn (l : list string) (v : option string) : bool :=
  match v with
  | Some s => existsb (String.eqb s) l
  | None => false
  end.

Definition notEmpty (v : option string) : bool :=
  match v with
  | Some s => negb (String.eqb s EmptyString)
  | None => false
  end.

(** [logActivity(action, entity)] wraps [res.send]: when the response is
    sent it creates an audit document for the user of the request,
    without waiting for it, and a rejection of [AuditLog.create] is
    logged and dropped; [recorded] says whether the creation resolves.
    The response of a middleware that comes before it in the chain is
    sent unwrapped. *)
Definition logActivity (recorded : bool) (action entity : string) (userId : nat)
    (statusCode : Z) (log : list AuditLog.t) : list AuditLog.t :=
  if recorded then
    log ++ [AuditLog.mk userId action entity
              (if statusCode <? 400 then AuditLog.success else AuditLog.failure)
              statusCode]
  else log.

(** [POST /:id/pay] from the point where [authenticateToken] has
    attached the user [userId] of role [role], on the database of the
    services and the audit log: the state after the request and the
    status code of the response. *)
Definition pay (env : Env.t) (recorded : bool) (now : Z) (role : string)
    (userId fineId : nat) (paymentMethod : option string)
    (st : Db * list AuditLog.t) : (Db * list AuditLog.t) * Z :=
  match Auth.canManageFines (Auth.mk (Some role) None None) with
  | Auth.reply status _ => (st, status)
  | Auth.next =>
      let send (db' : Db) (status : Z) :=
        ((db', logActivity recorded "fine_payment" "fine" userId status st.2), status) in
      if negb (isIn ["cash"; "mpesa"; "bank"]%string paymentMethod) then send st.1 400
      else
        match FineService.payFine env now fineId userId st.1 with
        | (db', Ok _) => send db' 200
        | (db', Err _) => send db' 500
        end
  end.

(** [POST /:id/waive], from the same point. *)
Definition waive (env : Env.t) (recorded : bool) (now : Z) (role : string)
    (userId fineId : nat) (reason : option string)
    (st : Db * list AuditLog.t) : (Db * list AuditLog.t) * Z :=
  match Auth.canManageFines (Auth.mk (Some role) None None) with
  | Auth.reply status _ => (st, status)
  | Auth.next =>
      let send (db' : Db) (status : Z) :=
        ((db', logActivity recorded "fine_waiver" "fine" userId status st.2), status) in
      match reason with
      | Some r =>
          if negb (notEmpty reason) then send st.1 400
          else
            match FineService.waiveFine env now fineId userId r st.1 with
            | (db', Ok _) => send db' 200
            | (db', Err _) => send db' 500
            end
      | None => send st.1 400
      end
  end.

End FineRoutes.

(** The three properties of a notification that no method changes. *)
Definition addressing (n : Notification.t)
  : nat * Notification.type_t * list Notification.channel :=
  (Notification.user n, Notification.type n, Notification.channels n).

(** Between [db] and [db'] the notification collection has kept its
    length and every document but the one at [nid], and that one has
    kept its addressing [a] if it had it. *)
Definition touches_only (nid : nat)
    (a : nat * Notification.type_t * list Notification.channel) (db db' : Db) : Prop :=
  length (notifications db') = length (notifications db)
  /\ (forall i, i <> nid -> notifications db' !! i = notifications db !! i)
  /\ ((exists n, notifications db !! nid = Some n /\ addressing n = a) ->
      exists n', notifications db' !! nid = Some n' /\ addressing n' = a).

(** * Properties *)

(** ** Numbers *)

Section JsFacts.

Import Js.
Local Open Scope Q_scope.

Lemma Math_round_comp x y : x == y -> Math_round x = Math_round y.
Proof. intros E. unfold Math_round. apply Qfloor_comp. now rewrite E. Qed.

Lemma Math_round_mono x y : x <= y -> (Math_round x <= Math_round y)%Z.
Proof. intros L. unfold Math_round. apply Qfloor_resp_le. lra. Qed.

Lemma Math_round_Z k : Math_round (inject_Z k) = k.
Proof.
  unfold Math_round.
  assert (L := Qfloor_le (inject_Z k + (1 # 2))).
  assert (U := Qlt_floor (inject_Z k + (1 # 2))).
  set (n := Qfloor (inject_Z k + (1 # 2))) in *.
  assert (A : inject_Z n < inject_Z (k + 1)).
  { rewrite inject_Z_plus. change (inject_Z 1) with 1. lra. }
  assert (B : inject_Z k < inject_Z (n + 1)) by lra.
  rewrite <- Zlt_Qlt in A, B. lia.
Qed.

Lemma round2_comp x y : x == y -> round2 x == round2 y.
Proof.
  intros E. unfold round2.
  rewrite (Math_round_comp (x * 100) (y * 100)); [reflexivity | now rewrite E].
Qed.

Lemma round2_mono x y : x <= y -> round2 x <= round2 y.
Proof.
  intros L. unfold round2.
  assert (M : (Math_round (x * 100) <= Math_round (y * 100))%Z)
    by (apply Math_round_mono; lra).
  rewrite Zle_Qle in M. unfold Qdiv.
  apply Qmult_le_compat_r; [exact M | discriminate].
Qed.

Lemma round2_whole_cents x : whole_cents x -> round2 x == x.
Proof.
  intros [k E]. unfold round2.
  rewrite (Math_round_comp (x * 100) (inject_Z k)).
  - rewrite Math_round_Z. now rewrite E.
  - rewrite E. field.
Qed.

Lemma num_leb_false x y : num_leb x y = false <-> y < x.
Proof.
  unfold num_leb. split.
  - intros F. apply Qnot_le_lt. intros L. apply Qle_bool_iff in L. congruence.
  - intros L. destruct (Qle_bool x y) eqn:E; [|reflexivity].
    apply Qle_bool_iff in E. lra.
Qed.

End JsFacts.

(** ** The fine calculator *)

Section CalculatorFacts.

Import Calculator FineService.
Local Open Scope Q_scope.

Lemma calculateOverdueFine_accepts db now id b :
  borrows db !! id = Some b ->
  Borrow.status b <> Borrow.completed ->
  calculateOverdueFine now id db = (db, Ok (compute (config db) now (Borrow.dueDate b))).
Proof.
  intros Hb Hs. unfold calculateOverdueFine. rewrite Hb.
  destruct (decide _); [contradiction | reflexivity].
Qed.

Lemma calculateOverdueFine_rejects db now id b :
  borrows db !! id = Some b ->
  Borrow.status b = Borrow.completed ->
  calculateOverdueFine now id db = (db, Err InvalidBorrow).
Proof.
  intros Hb Hs. unfold calculateOverdueFine. rewrite Hb.
  destruct (decide _); [reflexivity | contradiction].
Qed.

Lemma compute_within_grace cfg now due :
  inject_Z (days_overdue now due) <= grace_of cfg ->
  compute cfg now due =
    {| fineAmount := 0; gracePeriodUsed := true; overdueDays := None;
       rateType := None; rate_daily := None; rate_hourly := None |}.
Proof.
  intros L. unfold compute.
  apply Qle_bool_iff in L. unfold days_overdue, grace_of in L.
  unfold Js.num_leb. now rewrite L.
Qed.

Lemma compute_past_grace cfg now due :
  grace_of cfg < inject_Z (days_overdue now due) ->
  fineAmount (compute cfg now due)
  = Js.round2 (Js.Math_min (rawAmount cfg now due) (cap_of cfg))
  /\ gracePeriodUsed (compute cfg now due) = false.
Proof.
  intros L. apply num_leb_false in L. unfold days_overdue, grace_of in L.
  unfold compute, rawAmount. rewrite L.
  destruct (String.eqb _ _); split; reflexivity.
Qed.

Lemma rawAmount_per_day cfg now due :
  String.eqb (rate_type_of cfg) "per_hour" = false ->
  rawAmount cfg now due
  = Js.Math_max 0 (inject_Z (days_overdue now due) - grace_of cfg) * daily_of cfg.
Proof. intros E. unfold rawAmount. unfold rate_type_of in E. now rewrite E. Qed.

End CalculatorFacts.

(** The concrete scenarios 1 and 3 of the specification, and two dates. *)
Section CalculatorExamples.

Import Calculator FineService.
Local Open Scope Q_scope.

Example epoch : Moment.utc 1970 1 1 = 0%Z.
Proof. reflexivity. Qed.

Example new_year_2024 : Moment.utc 2024 1 1 = 1704067200000%Z.
Proof. reflexivity. Qed.

Example second_of_january :
  calculateOverdueFine (Moment.utc 2024 1 2) 0
    (Scenario.library Scenario.loan (Scenario.policy 2000))
  = (Scenario.library Scenario.loan (Scenario.policy 2000),
     Ok {| fineAmount := 0; gracePeriodUsed := true; overdueDays := None;
           rateType := None; rate_daily := None; rate_hourly := None |}).
Proof. reflexivity. Qed.

Example capped_at_80 :
  exists r,
    calculateOverdueFine (Moment.utc 2024 1 5) 0
      (Scenario.library Scenario.loan (Scenario.policy 80))
    = (Scenario.library Scenario.loan (Scenario.policy 80), Ok r)
    /\ fineAmount r == 80 /\ overdueDays r = Some 4%Z.
Proof. eexists. split; [reflexivity |]. split; reflexivity. Qed.

(** The day count and the hour count are two separate truncations: two
    days and five hours after the due instant the loan is within a grace
    period of two days, although it is 53 hours overdue. *)
Example within_grace_by_days :
  let now := (Moment.utc 2024 1 3 + 5 * 3600000)%Z in
  Moment.diff now (Moment.utc 2024 1 1) Moment.days = 2%Z
  /\ Moment.diff now (Moment.utc 2024 1 1) Moment.hours = 53%Z
  /\ fineAmount (compute (SystemConfig.mk (Some 2) (Some 50) (Some 5)
                            (Some "per_hour"%string) (Some 2000))
                   now (Moment.utc 2024 1 1)) = 0.
Proof. repeat split. Qed.

End CalculatorExamples.

Section CalculatorProperties.

Import Calculator FineService.
Local Open Scope Q_scope.

(** C1, as amended. For every loan that [calculateOverdueFine] accepts (it
    exists and its status is not 'completed') and whose whole-day overdue
    count is at most the configured grace period, [calculateOverdueFine]
    returns [fineAmount = 0] and [gracePeriodUsed = true], whatever the
    daily rate, the hourly rate, the rate type and the cap are. *)
Theorem grace_floor db now id b :
  borrows db !! id = Some b ->
  Borrow.status b <> Borrow.completed ->
  inject_Z (days_overdue now (Borrow.dueDate b)) <= grace_of (config db) ->
  exists r, calculateOverdueFine now id db = (db, Ok r)
            /\ fineAmount r = 0 /\ gracePeriodUsed r = true.
Proof.
  intros Hb Hs L. eexists. split.
  - apply calculateOverdueFine_accepts; eassumption.
  - rewrite compute_within_grace by exact L. split; reflexivity.
Qed.

Lemma grace_floor_witness :
  exists r,
    calculateOverdueFine (Moment.utc 2024 1 2) 0
      (Scenario.library Scenario.loan (Scenario.policy 2000))
    = (Scenario.library Scenario.loan (Scenario.policy 2000), Ok r)
    /\ fineAmount r = 0 /\ gracePeriodUsed r = true.
Proof.
  apply (grace_floor _ _ 0%nat Scenario.loan).
  - reflexivity.
  - discriminate.
  - vm_compute. discriminate.
Defined.

(** C1 as stated fails on a completed loan: one day after the due date,
    within the grace period of two days, [calculateOverdueFine] rejects
    with 'Invalid borrow record or already completed' instead of returning
    a zero fine. *)
Lemma grace_floor_completed_loan_rejected :
  let db := Scenario.library Scenario.returned_loan (Scenario.policy 2000) in
  let now := Moment.utc 2024 1 2 in
  borrows db !! 0%nat = Some Scenario.returned_loan
  /\ inject_Z (days_overdue now (Borrow.dueDate Scenario.returned_loan))
     <= grace_of (config db)
  /\ calculateOverdueFine now 0 db = (db, Err InvalidBorrow).
Proof.
  split; [reflexivity |]. split; [vm_compute; discriminate |].
  now apply calculateOverdueFine_rejects with Scenario.returned_loan.
Qed.

(** C3, as amended. For every accepted loan past the grace period whose
    raw amount (rate times units past grace) exceeds the configured
    [maxFine], the returned [fineAmount] is [maxFine] rounded to two
    decimals; it is exactly [maxFine] when [maxFine] is a whole number of
    cents. *)
Theorem cap_enforcement db now id b :
  borrows db !! id = Some b ->
  Borrow.status b <> Borrow.completed ->
  grace_of (config db) < inject_Z (days_overdue now (Borrow.dueDate b)) ->
  cap_of (config db) < rawAmount (config db) now (Borrow.dueDate b) ->
  exists r, calculateOverdueFine now id db = (db, Ok r)
            /\ fineAmount r == Js.round2 (cap_of (config db))
            /\ (Js.whole_cents (cap_of (config db)) ->
                fineAmount r == cap_of (config db)).
Proof.
  intros Hb Hs G C. eexists. split.
  - apply calculateOverdueFine_accepts; eassumption.
  - destruct (compute_past_grace _ _ _ G) as [-> _].
    assert (E : Js.round2 (Js.Math_min (rawAmount (config db) now (Borrow.dueDate b))
                                       (cap_of (config db)))
                == Js.round2 (cap_of (config db))).
    { apply round2_comp. apply Q.min_r. lra. }
    split; [exact E |].
    intros W. rewrite E. now apply round2_whole_cents.
Qed.

Lemma cap_enforcement_witness :
  exists r,
    calculateOverdueFine (Moment.utc 2024 1 5) 0
      (Scenario.library Scenario.loan (Scenario.policy 80))
    = (Scenario.library Scenario.loan (Scenario.policy 80), Ok r)
    /\ fineAmount r == Js.round2 80
    /\ (Js.whole_cents 80 -> fineAmount r == 80).
Proof.
  apply (cap_enforcement (Scenario.library Scenario.loan (Scenario.policy 80))
           (Moment.utc 2024 1 5) 0%nat Scenario.loan).
  - reflexivity.
  - discriminate.
  - vm_compute. reflexivity.
  - vm_compute. reflexivity.
Defined.

(** C3 as stated fails when the cap is not a whole number of cents: with
    [maxFine = 99.999] and a raw amount of 100, the rounding of line 59
    returns 100, not 99.999. *)
Lemma cap_enforcement_rounds_the_cap :
  let db := Scenario.library Scenario.loan (Scenario.policy (99999 # 1000)) in
  let now := Moment.utc 2024 1 5 in
  cap_of (config db) < rawAmount (config db) now (Borrow.dueDate Scenario.loan)
  /\ exists r, calculateOverdueFine now 0 db = (db, Ok r)
               /\ fineAmount r == 100
               /\ ~ fineAmount r == cap_of (config db).
Proof.
  split; [vm_compute; reflexivity |].
  eexists. split; [reflexivity |].
  split; vm_compute; [reflexivity | discriminate].
Qed.

(** C4, as amended. For the loan due on 2024-01-01 with a grace period of
    2 days, a daily rate of 50, the per_day rate type and no cap hit,
    [calculateOverdueFine] evaluated on 2024-01-05 returns
    [fineAmount = 100] (four whole days overdue, two of them past grace)
    when the time of day of the evaluation is not earlier than that of
    the due instant, and 50 otherwise; it never returns 150. *)
Theorem scenario_fifth_of_january db id b cap t_due t_now :
  borrows db !! id = Some b ->
  Borrow.status b <> Borrow.completed ->
  config db = Scenario.policy cap ->
  100 <= cap ->
  (0 <= t_due < 86400000)%Z ->
  (0 <= t_now < 86400000)%Z ->
  Borrow.dueDate b = (Moment.utc 2024 1 1 + t_due)%Z ->
  exists r, calculateOverdueFine (Moment.utc 2024 1 5 + t_now) id db = (db, Ok r)
            /\ fineAmount r == (if (t_due <=? t_now)%Z then 100 else 50)
            /\ ~ fineAmount r == 150.
Proof.
  intros Hb Hs Hc Hcap Hd Hn Hdue. eexists. split.
  - apply calculateOverdueFine_accepts; eassumption.
  - rewrite Hc, Hdue.
    set (now := (Moment.utc 2024 1 5 + t_now)%Z).
    set (due := (Moment.utc 2024 1 1 + t_due)%Z).
    assert (D : days_overdue now due = if (t_due <=? t_now)%Z then 4%Z else 3%Z).
    { unfold days_overdue, Moment.diff, now, due.
      change (Moment.utc 2024 1 5) with 1704412800000%Z.
      change (Moment.utc 2024 1 1) with 1704067200000%Z.
      change (Moment.unit_ms Moment.days) with 86400000%Z.
      symmetry. destruct (Z.leb_spec t_due t_now).
      - apply Z.quot_unique with (r := (t_now - t_due)%Z); lia.
      - apply Z.quot_unique with (r := (86400000 + t_now - t_due)%Z); lia. }
    assert (G : grace_of (Scenario.policy cap) < inject_Z (days_overdue now due)).
    { rewrite D. destruct (t_due <=? t_now)%Z; vm_compute; reflexivity. }
    destruct (compute_past_grace _ _ _ G) as [-> _].
    rewrite rawAmount_per_day by reflexivity. rewrite D.
    change (cap_of (Scenario.policy cap)) with cap.
    assert (E : Js.round2
                  (Js.Math_min
                     (Js.Math_max 0
                        (inject_Z (if (t_due <=? t_now)%Z then 4%Z else 3%Z)
                         - grace_of (Scenario.policy cap))
                      * daily_of (Scenario.policy cap)) cap)
                == (if (t_due <=? t_now)%Z then 100 else 50)).
    { destruct (t_due <=? t_now)%Z.
      - rewrite (round2_comp _ 100); [vm_compute; reflexivity |].
        rewrite Q.min_l; [vm_compute; reflexivity |].
        apply Qle_trans with 100; [vm_compute; discriminate | exact Hcap].
      - rewrite (round2_comp _ 50); [vm_compute; reflexivity |].
        rewrite Q.min_l; [vm_compute; reflexivity |].
        apply Qle_trans with 100; [vm_compute; discriminate | exact Hcap]. }
    split; [exact E |].
    rewrite E. destruct (t_due <=? t_now)%Z; vm_compute; discriminate.
Qed.

Lemma scenario_fifth_of_january_witness :
  exists r,
    calculateOverdueFine (Moment.utc 2024 1 5 + 0) 0
      (Scenario.library Scenario.loan (Scenario.policy 2000))
    = (Scenario.library Scenario.loan (Scenario.policy 2000), Ok r)
    /\ fineAmount r == (if (0 <=? 0)%Z then 100 else 50)
    /\ ~ fineAmount r == 150.
Proof.
  apply (scenario_fifth_of_january
           (Scenario.library Scenario.loan (Scenario.policy 2000)) 0%nat
           Scenario.loan 2000 0%Z 0%Z).
  - reflexivity.
  - discriminate.
  - reflexivity.
  - vm_compute. discriminate.
  - lia.
  - lia.
  - reflexivity.
Defined.

(** C4 as stated fails: at midnight of 2024-01-05 the loan due at midnight
    of 2024-01-01 is four whole days overdue, two past the grace period,
    and the fine is 100, not 150. *)
Lemma scenario_fifth_of_january_is_not_150 :
  let db := Scenario.library Scenario.loan (Scenario.policy 2000) in
  exists r, calculateOverdueFine (Moment.utc 2024 1 5) 0 db = (db, Ok r)
            /\ overdueDays r = Some 4%Z
            /\ fineAmount r == 100
            /\ ~ fineAmount r == 150.
Proof.
  eexists. split; [reflexivity |].
  split; [reflexivity |].
  split; vm_compute; [reflexivity | discriminate].
Qed.

(** C5, as amended. For a fixed policy under the per_day rate type whose
    daily rate is not negative, the fine amount computed by
    [calculateOverdueFine] does not decrease as the overdue-day count
    increases beyond the grace period, up to and at the cap. *)
Theorem monotonic_accrual db id b now1 now2 :
  borrows db !! id = Some b ->
  Borrow.status b <> Borrow.completed ->
  String.eqb (rate_type_of (config db)) "per_hour" = false ->
  0 <= daily_of (config db) ->
  grace_of (config db) < inject_Z (days_overdue now1 (Borrow.dueDate b)) ->
  (days_overdue now1 (Borrow.dueDate b) <= days_overdue now2 (Borrow.dueDate b))%Z ->
  exists r1 r2,
    calculateOverdueFine now1 id db = (db, Ok r1)
    /\ calculateOverdueFine now2 id db = (db, Ok r2)
    /\ fineAmount r1 <= fineAmount r2.
Proof.
  intros Hb Hs Hrt Hrate G1 Hd.
  assert (Hd' := Hd). rewrite Zle_Qle in Hd'.
  assert (G2 : grace_of (config db) < inject_Z (days_overdue now2 (Borrow.dueDate b)))
    by lra.
  do 2 eexists.
  split; [apply calculateOverdueFine_accepts; eassumption |].
  split; [apply calculateOverdueFine_accepts; eassumption |].
  destruct (compute_past_grace _ _ _ G1) as [-> _].
  destruct (compute_past_grace _ _ _ G2) as [-> _].
  rewrite !rawAmount_per_day by exact Hrt.
  apply round2_mono. apply Q.min_le_compat_r.
  apply Qmult_le_compat_r; [| exact Hrate].
  apply Q.max_le_compat_l. lra.
Qed.

Lemma monotonic_accrual_witness :
  exists r1 r2,
    calculateOverdueFine (Moment.utc 2024 1 4) 0
      (Scenario.library Scenario.loan (Scenario.policy 2000))
    = (Scenario.library Scenario.loan (Scenario.policy 2000), Ok r1)
    /\ calculateOverdueFine (Moment.utc 2024 1 5) 0
         (Scenario.library Scenario.loan (Scenario.policy 2000))
       = (Scenario.library Scenario.loan (Scenario.policy 2000), Ok r2)
    /\ fineAmount r1 <= fineAmount r2.
Proof.
  apply (monotonic_accrual (Scenario.library Scenario.loan (Scenario.policy 2000))
           0%nat Scenario.loan (Moment.utc 2024 1 4) (Moment.utc 2024 1 5)).
  - reflexivity.
  - discriminate.
  - reflexivity.
  - vm_compute. discriminate.
  - vm_compute. reflexivity.
  - vm_compute. discriminate.
Defined.

(** C5 as stated fails for a negative daily rate, which the configuration
    store accepts: at -50 a day the amount falls from -50 on the third
    overdue day to -100 on the fourth, well under the cap. *)
Lemma monotonic_accrual_negative_rate :
  let cfg := SystemConfig.mk (Some 2) (Some (-50)) (Some 5) (Some "per_day"%string)
               (Some 2000) in
  let db := Scenario.library Scenario.loan cfg in
  exists r1 r2,
    calculateOverdueFine (Moment.utc 2024 1 4) 0 db = (db, Ok r1)
    /\ calculateOverdueFine (Moment.utc 2024 1 5) 0 db = (db, Ok r2)
    /\ overdueDays r1 = Some 3%Z /\ overdueDays r2 = Some 4%Z
    /\ fineAmount r2 < fineAmount r1.
Proof.
  do 2 eexists. repeat (split; [reflexivity |]). vm_compute. reflexivity.
Qed.

End CalculatorProperties.

(** ** The notification service *)

Section NotificationFacts.

Import NotificationService.

#[local] Instance same_ledger_refl : Reflexive same_ledger.
Proof. intros db. repeat split. Qed.

#[local] Instance same_ledger_trans : Transitive same_ledger.
Proof.
  intros a b c (?&?&?&?&?) (?&?&?&?&?). repeat split; congruence.
Qed.

Lemma save_ledger ok nid n db db' r :
  save ok nid n db = (db', r) -> same_ledger db db'.
Proof.
  unfold save, throw. destruct ok; intros [= <- <-]; repeat split.
Qed.

Lemma deliver_ledger send env now nid c n db db' r :
  (forall d d' x, send d = (d', x) -> same_ledger d d') ->
  deliver send env now nid c n db = (db', r) -> same_ledger db db'.
Proof.
  intros Hs. unfold deliver.
  destruct (send db) as [db1 [[]|e]] eqn:E1.
  - destruct (save _ _ _ db1) as [db2 [[]|e]] eqn:E2; intros [= <- <-];
      (etrans; [eapply Hs, E1 | eapply save_ledger, E2]).
  - intros [= <- <-]. eapply Hs, E1.
Qed.

Lemma sendSMS_ledger env d d' x : sendSMS env d = (d', x) -> same_ledger d d'.
Proof. unfold sendSMS, ret, throw. destruct (Env.sms_resolves env); now intros [= <- <-]. Qed.

Lemma sendEmail_ledger env d d' x : sendEmail env d = (d', x) -> same_ledger d d'.
Proof. unfold sendEmail, ret, throw. destruct (Env.email_resolves env); now intros [= <- <-]. Qed.

Lemma try_channel_ledger env now user nid c n db db' r :
  try_channel env now user nid c n db = (db', r) -> same_ledger db db'.
Proof.
  unfold try_channel.
  destruct (bool_decide (c = Notification.sms) && _).
  - destruct (deliver (sendSMS env) env now nid Notification.sms n db)
      as [db1 [n1 [e|]]] eqn:E1.
    + intros [= <- <-]. eapply deliver_ledger, E1. apply sendSMS_ledger.
    + assert (same_ledger db db1)
        by (eapply deliver_ledger, E1; apply sendSMS_ledger).
      destruct (bool_decide (c = Notification.email) && _).
      * intros E2. etrans; [eassumption |].
        eapply deliver_ledger, E2. apply sendEmail_ledger.
      * now intros [= <- <-].
  - destruct (bool_decide (c = Notification.email) && _).
    + intros E2. eapply deliver_ledger, E2. apply sendEmail_ledger.
    + now intros [= <- <-].
Qed.

Lemma send_channel_ledger env now user nid c n db db' r :
  send_channel env now user nid c n db = (db', r) -> same_ledger db db'.
Proof.
  unfold send_channel.
  destruct (try_channel env now user nid c n db) as [db1 [n1 [e|]]] eqn:E1.
  - destruct (save _ _ _ db1) as [db2 [[]|e']] eqn:E2; intros [= <- <-];
      (etrans; [eapply try_channel_ledger, E1 | eapply save_ledger, E2]).
  - intros [= <- <-]. eapply try_channel_ledger, E1.
Qed.

Lemma send_channels_ledger env now user nid cs :
  forall n db db' r,
    send_channels env now user nid cs n db = (db', r) -> same_ledger db db'.
Proof.
  induction cs as [|c cs IH]; intros n db db' r; simpl.
  - unfold ret. now intros [= <- <-].
  - unfold bind.
    destruct (send_channel env now user nid c n db) as [db1 [n1|e]] eqn:E1.
    + intros E2. etrans; [eapply send_channel_ledger, E1 | eapply IH, E2].
    + intros [= <- <-]. eapply send_channel_ledger, E1.
Qed.

Lemma sendNotification_ledger env now user ty cs db db' r :
  sendNotification env now user ty cs db = (db', r) -> same_ledger db db'.
Proof.
  unfold sendNotification, bind, create, throw, ret.
  destruct (Env.create_resolves env); [| now intros [= <- <-]].
  destruct (send_channels _ _ _ _ _ _ _) as [db1 [[]|e]] eqn:E1;
    intros [= <- <-]; apply send_channels_ledger in E1;
    (etrans; [| exact E1]); repeat split.
Qed.

Lemma sendFineNotice_ledger env now fine db db' r :
  sendFineNotice env now fine db = (db', r) -> same_ledger db db'.
Proof.
  unfold sendFineNotice, throw. destruct (Env.populated env).
  - apply sendNotification_ledger.
  - now intros [= <- <-].
Qed.

(** When the failure of a channel can be recorded, the channel loop
    resolves whatever the transports do. *)
Lemma send_channels_resolves env now user nid cs :
  Env.failed_saved env = true ->
  forall n db, exists db', send_channels env now user nid cs n db = (db', Ok tt).
Proof.
  intros Hf. induction cs as [|c cs IH]; intros n db; simpl.
  - now exists db.
  - unfold bind, send_channel.
    destruct (try_channel env now user nid c n db) as [db1 [n1 [e|]]].
    + unfold save. rewrite Hf. apply IH.
    + apply IH.
Qed.

Lemma sendNotification_resolves env now user ty cs db :
  Env.create_resolves env = true ->
  Env.failed_saved env = true ->
  exists db', sendNotification env now user ty cs db
              = (db', Ok (length (notifications db))).
Proof.
  intros Hc Hf. unfold sendNotification, bind, create. rewrite Hc.
  edestruct (send_channels_resolves env now user) as [db' ->]; [exact Hf |].
  now exists db'.
Qed.

Lemma sendFineNotice_resolves env now fine db user :
  Env.populated env = Some user ->
  Env.create_resolves env = true ->
  Env.failed_saved env = true ->
  exists db', sendFineNotice env now fine db = (db', Ok (length (notifications db))).
Proof.
  intros Hp Hc Hf. unfold sendFineNotice. rewrite Hp.
  now apply sendNotification_resolves.
Qed.

Lemma sendFineNotice_rejects env now fine db :
  Env.populated env = None \/ Env.create_resolves env = false ->
  exists e, sendFineNotice env now fine db = (db, Err e).
Proof.
  unfold sendFineNotice, sendNotification, bind, create, throw.
  intros [-> | Hc]; [now eexists |].
  destruct (Env.populated env); rewrite ?Hc; now eexists.
Qed.

(** The notification service rejects with its own errors only. *)
Lemma send_channels_error env now user nid cs :
  forall n db db' e,
    send_channels env now user nid cs n db = (db', Err e) -> e = NotificationNotSaved.
Proof.
  induction cs as [|c cs IH]; intros n db db' e; simpl; [discriminate |].
  unfold bind, send_channel.
  destruct (try_channel env now user nid c n db) as [db1 [n1 [e1|]]].
  - unfold save, throw. destruct (Env.failed_saved env).
    + apply IH.
    + now intros [= _ <-].
  - apply IH.
Qed.

Lemma sendNotification_error env now user ty cs db db' e :
  sendNotification env now user ty cs db = (db', Err e) -> e = NotificationNotSaved.
Proof.
  unfold sendNotification, bind, create, throw, ret.
  destruct (Env.create_resolves env); [| now intros [= _ <-]].
  destruct (send_channels _ _ _ _ _ _ _) as [db1 [[]|e1]] eqn:E; [discriminate |].
  intros [= _ <-]. eapply send_channels_error, E.
Qed.

End NotificationFacts.

(** ** The fine ledger *)

Section LedgerFacts.

Import Calculator FineService NotificationService.

(** [createOverdueFine] either stops before any write, or charges. *)
Lemma createOverdueFine_cases env now id db :
  (exists r, createOverdueFine env now id db = (db, r)
             /\ forall x, r <> Ok (Some x))
  \/ (exists b u f, charge now id db b u f).
Proof.
  unfold createOverdueFine, bind, get.
  destruct (borrows db !! id) as [b|] eqn:Hb;
    [| left; eexists; split; [reflexivity | discriminate]].
  destruct (Fine_findOne id Fine.overdue db) eqn:Hf;
    [left; eexists; split; [reflexivity | discriminate] |].
  unfold calculateOverdueFine. rewrite Hb.
  destruct (decide (Borrow.status b = Borrow.completed)) as [Hs|Hs];
    [left; eexists; split; [reflexivity | discriminate] |].
  destruct (Js.num_eqb _ 0) eqn:Hz;
    [left; eexists; split; [reflexivity | discriminate] |].
  unfold populated_user.
  destruct (users db !! Borrow.user b) as [u|] eqn:Hu;
    [| left; eexists; split; [reflexivity | discriminate]].
  unfold Fine_create. cbn [fst].
  destruct (Fine.validate _) eqn:Hv;
    [| left; eexists; split; [reflexivity | discriminate]].
  right. exists b, u. eexists. split; eauto.
Qed.

(** When it charges, the outcome is that of the fine notice, sent after
    the fine has been written and the balance incremented. *)
Lemma createOverdueFine_charge env now id db b u f :
  charge now id db b u f ->
  createOverdueFine env now id db =
    match sendFineNotice env now (length (fines db), f) (booked db (Borrow.user b) u f) with
    | (db', Ok _) => (db', Ok (Some (length (fines db), f)))
    | (db', Err e) => (db', Err e)
    end.
Proof.
  intros [Hb Hf Hs Hz Hu -> Hv].
  unfold createOverdueFine, bind, get. rewrite Hb, Hf.
  unfold calculateOverdueFine. rewrite Hb.
  destruct (decide _) as [|_]; [contradiction |].
  rewrite Hz. unfold populated_user. rewrite Hu.
  unfold Fine_create. cbn [fst]. rewrite Hv.
  unfold User_inc. cbn [users set_fines]. rewrite Hu.
  unfold booked, ret. cbn [Fine.amount overdueFineData].
  destruct (sendFineNotice _ _ _ _) as [db' [nid|e]]; reflexivity.
Qed.

Lemma charge_fine_facts now id db b u f :
  charge now id db b u f ->
  Fine.borrow f = id /\ Fine.type f = Fine.overdue /\ Fine.status f = Fine.pending
  /\ Fine.user f = Borrow.user b /\ (0 < Fine.amount f)%Q.
Proof.
  intros [Hb Hf Hs Hz Hu -> Hv]. repeat split.
  unfold Fine.validate in Hv. apply andb_true_iff in Hv as [Hv _].
  cbn [Fine.amount overdueFineData] in *.
  apply Qle_bool_iff in Hv. apply Qeq_bool_neq in Hz.
  apply Qle_lteq in Hv as [|E]; [assumption |]. symmetry in E. contradiction.
Qed.

Lemma payFine_paid env now fid staff db f :
  fines db !! fid = Some f ->
  Fine.status f = Fine.paid ->
  payFine env now fid staff db = (db, Err AlreadyPaid).
Proof.
  intros Hf Hs. unfold payFine, bind, get. rewrite Hf.
  destruct (decide _); [reflexivity | contradiction].
Qed.

Lemma waiveFine_paid env now fid staff reason db f :
  fines db !! fid = Some f ->
  Fine.status f = Fine.paid ->
  waiveFine env now fid staff reason db = (db, Err CannotWaivePaid).
Proof.
  intros Hf Hs. unfold waiveFine, bind, get. rewrite Hf.
  destruct (decide _); [reflexivity | contradiction].
Qed.

(** On a fine that is not paid, [payFine] marks it paid and decrements the
    balance; its outcome is then that of the payment confirmation. *)
Lemma payFine_unpaid env now fid staff db f u :
  fines db !! fid = Some f ->
  Fine.status f <> Fine.paid ->
  users db !! Fine.user f = Some u ->
  payFine env now fid staff db =
    match sendNotification env now (recipient (Fine.user f, u))
            Notification.fine_paid [Notification.email]
            (settled db fid (Fine.markAsPaid now staff f) u) with
    | (db', Ok _) => (db', Ok (fid, Fine.markAsPaid now staff f))
    | (db', Err e) => (db', Err e)
    end.
Proof.
  intros Hf Hs Hu. unfold payFine, bind, get. rewrite Hf.
  destruct (decide _) as [|_]; [contradiction |].
  unfold Fine_save, populated_user, User_inc.
  cbn [users set_fines Fine.user Fine.markAsPaid fst]. rewrite Hu.
  cbn [users set_fines fst]. rewrite Hu.
  unfold settled, ret. cbn [Fine.user Fine.amount Fine.markAsPaid].
  destruct (sendNotification _ _ _ _ _ _) as [db' [nid|e]]; reflexivity.
Qed.

Lemma waiveFine_unpaid env now fid staff reason db f u :
  fines db !! fid = Some f ->
  Fine.status f <> Fine.paid ->
  users db !! Fine.user f = Some u ->
  waiveFine env now fid staff reason db =
    match sendNotification env now (recipient (Fine.user f, u))
            Notification.fine_waived [Notification.email]
            (settled db fid (Fine.waiveFine now staff reason f) u) with
    | (db', Ok _) => (db', Ok (fid, Fine.waiveFine now staff reason f))
    | (db', Err e) => (db', Err e)
    end.
Proof.
  intros Hf Hs Hu. unfold waiveFine, bind, get. rewrite Hf.
  destruct (decide _) as [|_]; [contradiction |].
  unfold Fine_save, populated_user, User_inc.
  cbn [users set_fines Fine.user Fine.waiveFine fst]. rewrite Hu.
  cbn [users set_fines fst]. rewrite Hu.
  unfold settled, ret. cbn [Fine.user Fine.amount Fine.waiveFine].
  destruct (sendNotification _ _ _ _ _ _) as [db' [nid|e]]; reflexivity.
Qed.

(** The ledger after a settlement, whatever the notification did. *)
Lemma payFine_ledger env now fid staff db f u :
  fines db !! fid = Some f ->
  Fine.status f <> Fine.paid ->
  users db !! Fine.user f = Some u ->
  same_ledger (settled db fid (Fine.markAsPaid now staff f) u)
              (payFine env now fid staff db).1.
Proof.
  intros Hf Hs Hu. rewrite (payFine_unpaid _ _ _ _ _ _ _ Hf Hs Hu).
  destruct (sendNotification _ _ _ _ _ _) as [db' [nid|e]] eqn:E;
    eapply sendNotification_ledger, E.
Qed.

Lemma waiveFine_ledger env now fid staff reason db f u :
  fines db !! fid = Some f ->
  Fine.status f <> Fine.paid ->
  users db !! Fine.user f = Some u ->
  same_ledger (settled db fid (Fine.waiveFine now staff reason f) u)
              (waiveFine env now fid staff reason db).1.
Proof.
  intros Hf Hs Hu. rewrite (waiveFine_unpaid _ _ _ _ _ _ _ _ Hf Hs Hu).
  destruct (sendNotification _ _ _ _ _ _) as [db' [nid|e]] eqn:E;
    eapply sendNotification_ledger, E.
Qed.

Lemma booked_fine db uid u f : fines (booked db uid u f) !! length (fines db) = Some f.
Proof. unfold booked. cbn. apply list_lookup_middle. reflexivity. Qed.

Lemma booked_user db uid u f :
  users db !! uid = Some u ->
  users (booked db uid u f) !! uid = Some (User.inc (Fine.amount f) u).
Proof.
  intros Hu. unfold booked. cbn. apply list_lookup_insert_eq.
  eapply lookup_lt_Some, Hu.
Qed.

Lemma settled_fine db fid f f' u :
  fines db !! fid = Some f ->
  fines (settled db fid f' u) !! fid = Some f'.
Proof.
  intros Hf. unfold settled. cbn. apply list_lookup_insert_eq.
  eapply lookup_lt_Some, Hf.
Qed.

Lemma settled_user db fid f' u :
  users db !! Fine.user f' = Some u ->
  users (settled db fid f' u) !! Fine.user f'
  = Some (User.inc (- Fine.amount f')%Q u).
Proof.
  intros Hu. unfold settled. cbn. apply list_lookup_insert_eq.
  eapply lookup_lt_Some, Hu.
Qed.

Lemma bookValue_reads rc b db db' r : bookValue rc b db = (db', r) -> db' = db.
Proof.
  unfold bookValue, ret.
  destruct rc as [c|]; [destruct (Js.num_eqb c 0) |];
    try destruct (books db !! Borrow.book b); now intros [= <- <-].
Qed.

Lemma createLostBookFine_charge env now id rc db b u v :
  borrows db !! id = Some b ->
  Fine_findOne id Fine.lost db = None ->
  bookValue rc b db = (db, Ok v) ->
  users db !! Borrow.user b = Some u ->
  Fine.validate (lostFineData now (Borrow.user b) id v) = true ->
  createLostBookFine env now id rc db =
    let f := lostFineData now (Borrow.user b) id v in
    match sendFineNotice env now (length (fines db), f)
            (lost_booked now db id b u f) with
    | (db', Ok _) => (db', Ok (length (fines db), f))
    | (db', Err e) => (db', Err e)
    end.
Proof.
  intros Hb Hf Hv Hu Hval.
  unfold createLostBookFine, bind, get. rewrite Hb, Hf, Hv.
  unfold populated_user. rewrite Hu.
  unfold Fine_create. cbn [fst]. rewrite Hval.
  unfold markLost, User_inc. cbn [borrows users set_fines set_borrows].
  rewrite Hb. cbn [borrows users set_fines set_borrows]. rewrite Hu.
  unfold lost_booked, ret. cbn [Fine.amount lostFineData].
  destruct (sendFineNotice _ _ _ _) as [db' [nid|e]]; reflexivity.
Qed.

(** [createLostBookFine] either stops before any write, or writes the
    fine, marks the loan lost, increments the balance and sends the
    notice, whose outcome it returns. *)
Lemma createLostBookFine_cases env now id rc db :
  (exists r, createLostBookFine env now id rc db = (db, r) /\ forall x, r <> Ok x)
  \/ (exists b u v,
        borrows db !! id = Some b
        /\ Fine_findOne id Fine.lost db = None
        /\ bookValue rc b db = (db, Ok v)
        /\ users db !! Borrow.user b = Some u
        /\ Fine.validate (lostFineData now (Borrow.user b) id v) = true
        /\ createLostBookFine env now id rc db =
             let f := lostFineData now (Borrow.user b) id v in
             match sendFineNotice env now (length (fines db), f)
                     (lost_booked now db id b u f) with
             | (db', Ok _) => (db', Ok (length (fines db), f))
             | (db', Err e) => (db', Err e)
             end).
Proof.
  unfold createLostBookFine, bind, get.
  destruct (borrows db !! id) as [b|] eqn:Hb;
    [| left; eexists; split; [reflexivity | discriminate]].
  destruct (Fine_findOne id Fine.lost db) eqn:Hf;
    [left; eexists; split; [reflexivity | discriminate] |].
  destruct (bookValue rc b db) as [db0 [v|e]] eqn:Hv;
    pose proof (bookValue_reads _ _ _ _ _ Hv) as ->;
    [| left; eexists; split; [reflexivity | discriminate]].
  unfold populated_user.
  destruct (users db !! Borrow.user b) as [u|] eqn:Hu;
    [| left; eexists; split; [reflexivity | discriminate]].
  unfold Fine_create. cbn [fst].
  destruct (Fine.validate _) eqn:Hval;
    [| left; eexists; split; [reflexivity | discriminate]].
  right. exists b, u, v. repeat (split; [assumption || reflexivity |]).
  unfold markLost, User_inc. cbn [borrows users set_fines set_borrows].
  rewrite Hb. cbn [borrows users set_fines set_borrows]. rewrite Hu.
  unfold lost_booked, ret. cbn [Fine.amount lostFineData].
  destruct (sendFineNotice _ _ _ _) as [db' [nid|e]]; reflexivity.
Qed.

(** Once [createOverdueFine] charges, the ledger after the call is the
    booked one, whether the fine notice resolves or rejects. *)
Lemma charge_written env now id db b u f :
  charge now id db b u f ->
  same_ledger (booked db (Borrow.user b) u f) (createOverdueFine env now id db).1.
Proof.
  intros C. rewrite (createOverdueFine_charge env now id db b u f C).
  destruct (sendFineNotice _ _ _ _) as [db' [nid|e]] eqn:E;
    eapply sendFineNotice_ledger, E.
Qed.

(** The same for [createLostBookFine], under the conditions of its
    writes. *)
Lemma lost_written env now id rc db b u v :
  borrows db !! id = Some b ->
  Fine_findOne id Fine.lost db = None ->
  bookValue rc b db = (db, Ok v) ->
  users db !! Borrow.user b = Some u ->
  Fine.validate (lostFineData now (Borrow.user b) id v) = true ->
  same_ledger (lost_booked now db id b u (lostFineData now (Borrow.user b) id v))
              (createLostBookFine env now id rc db).1.
Proof.
  intros Hb Hf Hv Hu Hval.
  rewrite (createLostBookFine_charge env now id rc db b u v Hb Hf Hv Hu Hval).
  cbn zeta.
  destruct (sendFineNotice _ _ _ _) as [db' [nid|e]] eqn:E;
    eapply sendFineNotice_ledger, E.
Qed.

(** The ledger right after a charge: the fine is on record and the
    balance of its user has been incremented. *)
Lemma charged_ledger env now id db b u f :
  charge now id db b u f ->
  let db1 := (createOverdueFine env now id db).1 in
  users db !! Fine.user f = Some u
  /\ fines db1 !! length (fines db) = Some f
  /\ users db1 !! Fine.user f = Some (User.inc (Fine.amount f) u)
  /\ Fine.status f = Fine.pending
  /\ (0 < Fine.amount f)%Q.
Proof.
  intros C db1.
  destruct (charge_fine_facts _ _ _ _ _ _ C) as (_ & _ & Hs & Hu & Hpos).
  destruct (charge_written env now id db b u f C) as (_ & Lf & Lu & _).
  fold db1 in Lf, Lu. rewrite Lf, Lu, Hu.
  split; [apply C |]. split; [apply booked_fine |].
  split; [apply booked_user, C |]. split; assumption.
Qed.

End LedgerFacts.

(** ** How the fine collection evolves *)

Section FineCollection.

Import Calculator FineService NotificationService.

Lemma filter_empty_iff {A} (P : A -> Prop) `{!forall x, Decision (P x)} (l : list A) :
  filter P l = [] <-> Forall (fun x => ~ P x) l.
Proof.
  induction l as [|x l IH]; [split; [constructor | reflexivity] |].
  rewrite filter_cons, Forall_cons. destruct (decide (P x)).
  - split; [discriminate | tauto].
  - rewrite IH. tauto.
Qed.

Lemma findOne_None_count db b :
  Fine_findOne b Fine.overdue db = None <-> overdue_fines db b = 0%nat.
Proof.
  unfold Fine_findOne, overdue_fines. rewrite list_find_None.
  split.
  - intros H. apply (filter_empty_iff (fun f => Fine.borrow f = b /\ Fine.type f = Fine.overdue)) in H.
    now rewrite H.
  - intros H. apply (filter_empty_iff (fun f => Fine.borrow f = b /\ Fine.type f = Fine.overdue)).
    now apply length_zero_iff_nil.
Qed.

Lemma findOne_Some_count db b :
  is_Some (Fine_findOne b Fine.overdue db) <-> (1 <= overdue_fines db b)%nat.
Proof.
  destruct (Fine_findOne b Fine.overdue db) eqn:E.
  - split; [intros _ | eauto].
    destruct (overdue_fines db b) eqn:C; [| lia].
    apply findOne_None_count in C. congruence.
  - apply findOne_None_count in E. rewrite E. split; [intros [? [=]] | lia].
Qed.

Lemma count_insert (P : Fine.t -> Prop) `{!forall x, Decision (P x)} l j g g' :
  l !! j = Some g -> (P g' <-> P g) ->
  length (filter P (<[j := g']> l)) = length (filter P l).
Proof.
  revert j. induction l as [|x l IH]; intros [|j] Hj Hp; try discriminate.
  - injection Hj as ->. change (<[0%nat := g']> (g :: l)) with (g' :: l).
    rewrite !filter_cons.
    destruct (decide (P g')), (decide (P g)); tauto || reflexivity.
  - change (<[S j := g']> (x :: l)) with (x :: <[j := g']> l).
    rewrite !filter_cons.
    destruct (decide (P x)); cbn [length]; rewrite (IH j Hj Hp); reflexivity.
Qed.

(** A paid fine is not touched by any step. *)
Lemma fines_step_paid l l' i f :
  fines_step l l' -> l !! i = Some f -> Fine.status f = Fine.paid -> l' !! i = Some f.
Proof.
  intros [-> | g -> _ | j g g' Hj Hs -> _ _] Hi Hp.
  - exact Hi.
  - now apply lookup_app_l_Some.
  - destruct (decide (j = i)) as [->|N].
    + rewrite Hi in Hj. injection Hj as ->. contradiction.
    + now rewrite list_lookup_insert_ne.
Qed.

(** The number of overdue fines of a loan never goes down, goes up by at
    most one, and only from zero. *)
Lemma fines_step_count l l' b :
  fines_step l l' ->
  let n := length (filter (fun f => Fine.borrow f = b /\ Fine.type f = Fine.overdue) l) in
  let n' := length (filter (fun f => Fine.borrow f = b /\ Fine.type f = Fine.overdue) l') in
  n' = n \/ (n = 0 /\ n' = 1)%nat.
Proof.
  intros [-> | f -> Hfresh | j g g' Hj Hs -> Hb Ht]; cbn zeta.
  - now left.
  - rewrite filter_app, length_app, filter_cons, filter_nil.
    destruct (decide _) as [[Hb Ht]|]; cbn; [| left; lia].
    right.
    assert (Z0 : length (filter (fun f => Fine.borrow f = b /\ Fine.type f = Fine.overdue) l)
                 = 0%nat).
    { apply length_zero_iff_nil.
      apply (filter_empty_iff (fun f => Fine.borrow f = b /\ Fine.type f = Fine.overdue)).
      rewrite <- Hb. now apply Hfresh. }
    rewrite Z0. split; reflexivity.
  - left. apply count_insert with (g := g); [exact Hj |]. now rewrite Hb, Ht.
Qed.

Lemma rtc_fines_step_paid l l' i f :
  rtc fines_step l l' -> l !! i = Some f -> Fine.status f = Fine.paid -> l' !! i = Some f.
Proof.
  induction 1 as [|l l1 l2 S _ IH]; intros Hi Hp; [exact Hi |].
  apply IH; [| exact Hp]. eapply fines_step_paid; eassumption.
Qed.

Lemma rtc_fines_step_count l l' b :
  rtc fines_step l l' ->
  let n := length (filter (fun f => Fine.borrow f = b /\ Fine.type f = Fine.overdue) l) in
  let n' := length (filter (fun f => Fine.borrow f = b /\ Fine.type f = Fine.overdue) l') in
  n' = n \/ (n = 0 /\ n' = 1)%nat.
Proof.
  induction 1 as [|l l1 l2 S _ IH]; cbn zeta in *; [now left |].
  pose proof (fines_step_count _ _ b S) as H. cbn zeta in H. lia.
Qed.

Lemma createOverdueFine_step env now id db :
  fines_step (fines db) (fines (createOverdueFine env now id db).1).
Proof.
  destruct (createOverdueFine_cases env now id db) as [(r & -> & _) | (b & u & f & C)].
  - now apply fines_same.
  - rewrite (createOverdueFine_charge _ _ _ _ _ _ _ C).
    assert (L : same_ledger (booked db (Borrow.user b) u f)
                  (match sendFineNotice env now (length (fines db), f)
                           (booked db (Borrow.user b) u f) with
                   | (db', Ok _) => (db', Ok (Some (length (fines db), f)))
                   | (db', Err e) => (db', Err e)
                   end).1).
    { destruct (sendFineNotice _ _ _ _) as [db' [nid|e]] eqn:E;
        eapply sendFineNotice_ledger, E. }
    destruct L as (_ & -> & _).
    apply fines_add with f; [reflexivity |].
    intros _. destruct (charge_fine_facts _ _ _ _ _ _ C) as (-> & _).
    apply (list_find_None (fun g => Fine.borrow g = id /\ Fine.type g = Fine.overdue)).
    apply C.
Qed.

Lemma createLostBookFine_step env now id rc db :
  fines_step (fines db) (fines (createLostBookFine env now id rc db).1).
Proof.
  destruct (createLostBookFine_cases env now id rc db)
    as [(r & -> & _) | (b & u & v & _ & _ & _ & _ & _ & ->)].
  - now apply fines_same.
  - cbn zeta.
    destruct (sendFineNotice _ _ _ _) as [db' [nid|e]] eqn:E;
      apply sendFineNotice_ledger in E as (_ & E & _); cbn [fst]; rewrite E;
      (apply fines_add with (lostFineData now (Borrow.user b) id v);
       [reflexivity | discriminate]).
Qed.

Lemma payFine_step env now fid staff db :
  fines_step (fines db) (fines (payFine env now fid staff db).1).
Proof.
  destruct (fines db !! fid) as [f|] eqn:Hf.
  - destruct (decide (Fine.status f = Fine.paid)) as [Hs|Hs].
    + rewrite (payFine_paid _ _ _ _ _ _ Hf Hs). now apply fines_same.
    + destruct (users db !! Fine.user f) as [u|] eqn:Hu.
      * destruct (payFine_ledger env now fid staff db f u Hf Hs Hu) as (_ & -> & _).
        now apply fines_settle with fid f (Fine.markAsPaid now staff f).
      * unfold payFine, bind, get. rewrite Hf.
        destruct (decide _) as [|_]; [contradiction |].
        unfold Fine_save, populated_user.
        cbn [users set_fines Fine.user Fine.markAsPaid fst]. rewrite Hu. cbn.
        now apply fines_settle with fid f (Fine.markAsPaid now staff f).
  - unfold payFine, bind, get. rewrite Hf. now apply fines_same.
Qed.

Lemma waiveFine_step env now fid staff reason db :
  fines_step (fines db) (fines (waiveFine env now fid staff reason db).1).
Proof.
  destruct (fines db !! fid) as [f|] eqn:Hf.
  - destruct (decide (Fine.status f = Fine.paid)) as [Hs|Hs].
    + rewrite (waiveFine_paid _ _ _ _ _ _ _ Hf Hs). now apply fines_same.
    + destruct (users db !! Fine.user f) as [u|] eqn:Hu.
      * destruct (waiveFine_ledger env now fid staff reason db f u Hf Hs Hu)
          as (_ & -> & _).
        now apply fines_settle with fid f (Fine.waiveFine now staff reason f).
      * unfold waiveFine, bind, get. rewrite Hf.
        destruct (decide _) as [|_]; [contradiction |].
        unfold Fine_save, populated_user.
        cbn [users set_fines Fine.user Fine.waiveFine fst]. rewrite Hu. cbn.
        now apply fines_settle with fid f (Fine.waiveFine now staff reason f).
  - unfold waiveFine, bind, get. rewrite Hf. now apply fines_same.
Qed.

Lemma processBorrow_step env now id db :
  fines_step (fines db) (fines (processBorrow env now id db).1).
Proof.
  unfold processBorrow.
  destruct (Fine_findOne id Fine.overdue db); [now apply fines_same |].
  pose proof (createOverdueFine_step (env id) now id db) as S.
  destruct (createOverdueFine (env id) now id db) as [db' [x|e]]; exact S.
Qed.

Lemma sweep_steps env now ids :
  forall db, rtc fines_step (fines db) (fines (sweep env now ids db).1).
Proof.
  induction ids as [|id ids IH]; intros db; cbn [sweep]; [reflexivity |].
  pose proof (processBorrow_step env now id db) as S.
  destruct (processBorrow env now id db) as [db1 c].
  specialize (IH db1).
  destruct (sweep env now ids db1) as [db2 n].
  eapply rtc_l; eassumption.
Qed.

Lemma after_steps c db : rtc fines_step (fines db) (fines (after c db)).
Proof.
  destruct c; cbn [after].
  - apply rtc_once, createOverdueFine_step.
  - apply rtc_once, createLostBookFine_step.
  - apply rtc_once, payFine_step.
  - apply rtc_once, waiveFine_step.
  - unfold processOverdueFines.
    pose proof (sweep_steps env now (overdueBorrows now db) db) as S.
    destruct (sweep env now (overdueBorrows now db) db) as [db' n]. exact S.
Qed.

Lemma after_all_steps cs :
  forall db, rtc fines_step (fines db) (fines (after_all cs db)).
Proof.
  induction cs as [|c cs IH]; intros db; [reflexivity |].
  cbn. etrans; [apply after_steps | apply IH].
Qed.

(** A loan that already has an overdue fine passes through the loop body
    untouched and uncounted. *)
Lemma overdueBorrows_spec now db id :
  id ∈ overdueBorrows now db
  <-> exists b, borrows db !! id = Some b
                /\ Borrow.status b = Borrow.active
                /\ Borrow.dueDate b < now
                /\ Borrow.type b = Borrow.borrowed.
Proof.
  unfold overdueBorrows. rewrite list_elem_of_fmap. split.
  - intros ([i b] & -> & H). apply list_elem_of_filter in H as [P H].
    apply elem_of_lookup_imap in H as (j & y & [= -> ->] & Hj).
    exists y. split; [exact Hj | exact P].
  - intros (b & Hb & P). exists (id, b). split; [reflexivity |].
    apply list_elem_of_filter. split; [exact P |].
    apply elem_of_lookup_imap. now exists id, b.
Qed.

Lemma count_app_other (l : list Fine.t) f id :
  Fine.borrow f <> id \/ Fine.type f <> Fine.overdue ->
  length (filter (fun g => Fine.borrow g = id /\ Fine.type g = Fine.overdue) (l ++ [f]))
  = length (filter (fun g => Fine.borrow g = id /\ Fine.type g = Fine.overdue) l).
Proof.
  intros H. rewrite filter_app, length_app, filter_cons, filter_nil.
  destruct (decide _) as [[? ?]|]; cbn; [tauto | lia].
Qed.

Lemma processBorrow_skips env now id db :
  (1 <= overdue_fines db id)%nat ->
  processBorrow env now id db = (db, 0%nat).
Proof.
  intros H. apply findOne_Some_count in H as [x E].
  unfold processBorrow. now rewrite E.
Qed.

Lemma sweep_skips env now id ids :
  forall db,
    (1 <= overdue_fines db id)%nat ->
    sweep env now ids db = sweep env now (filter (fun j => j <> id) ids) db.
Proof.
  induction ids as [|j ids IH]; intros db H; [reflexivity |].
  rewrite filter_cons. destruct (decide (j <> id)) as [N|E].
  - cbn [sweep].
    pose proof (processBorrow_step env now j db) as S.
    destruct (processBorrow env now j db) as [db1 c].
    rewrite (IH db1); [reflexivity |].
    pose proof (fines_step_count _ _ id S) as C. cbn zeta in C.
    unfold overdue_fines in *. cbn [fst] in C. lia.
  - apply dec_stable in E. subst j. cbn [sweep].
    rewrite (processBorrow_skips env now id db H).
    rewrite <- (IH db H).
    destruct (sweep env now ids db) as [db2 n]. reflexivity.
Qed.

End FineCollection.

(** ** Settlement: balance conservation and the terminal state *)

Section SettlementProperties.

Import Calculator FineService NotificationService.
Local Open Scope Q_scope.


(** C7. A paid fine is terminal: [payFine] on it fails with 'Fine is
    already paid' and [waiveFine] on it fails with 'Cannot waive already
    paid fine', each leaving the whole database, so the fine and the
    user's balance, unchanged; and after any sequence of ledger operations
    and sweeps the fine is still the same paid fine. *)
Theorem paid_is_terminal db fid f :
  fines db !! fid = Some f ->
  Fine.status f = Fine.paid ->
  (forall env now staff, payFine env now fid staff db = (db, Err AlreadyPaid))
  /\ (forall env now staff reason,
        waiveFine env now fid staff reason db = (db, Err CannotWaivePaid))
  /\ (forall cs, fines (after_all cs db) !! fid = Some f).
Proof.
  intros Hf Hs. split; [| split].
  - intros. now apply payFine_paid with f.
  - intros. now apply waiveFine_paid with f.
  - intros cs. eapply rtc_fines_step_paid; [apply after_all_steps | exact Hf | exact Hs].
Qed.

End SettlementProperties.

Section SettlementScenarios.

Import Calculator FineService NotificationService.
Local Open Scope Q_scope.


(** In double arithmetic the two increments cancel from a balance of 0,
    whatever the amount. *)
Lemma increments_cancel_from_zero sign m e :
  let amount := S754_finite sign m e in
  Double.inc (Double.opp amount) (Double.inc amount (S754_zero false))
  = S754_zero false.
Proof.
  cbn zeta. unfold Double.inc, Double.add, Double.opp.
  change (SFadd Double.prec Double.emax (S754_zero false) (S754_finite sign m e))
    with (S754_finite sign m e).
  unfold SFadd, SFopp. rewrite Z.min_id.
  assert (A : shl_align m e e = (m, e)).
  { unfold shl_align. now rewrite Z.sub_diag. }
  rewrite A. cbn [fst].
  assert (Z0 : (cond_Zopp sign (Z.pos m) + cond_Zopp (negb sign) (Z.pos m) = 0)%Z)
    by (destruct sign; cbn; lia).
  rewrite Z0. reflexivity.
Qed.


Lemma paid_is_terminal_witness :
  (forall env now staff,
      payFine env now 0 staff Scenario.paid_up = (Scenario.paid_up, Err AlreadyPaid))
  /\ (forall env now staff reason,
        waiveFine env now 0 staff reason Scenario.paid_up
        = (Scenario.paid_up, Err CannotWaivePaid))
  /\ (forall cs,
        fines (after_all cs Scenario.paid_up) !! 0%nat
        = Some (Fine.markAsPaid Scenario.fifth 7 Scenario.fine)).
Proof.
  apply (paid_is_terminal Scenario.paid_up 0%nat
           (Fine.markAsPaid Scenario.fifth 7 Scenario.fine)).
  - vm_compute. reflexivity.
  - reflexivity.
Defined.

(** Scenario 5 of the specification: the fine is paid, the balance is
    back at zero, and a later waiver is refused. *)
Example pay_then_waive :
  Fine.status <$> fines Scenario.paid_up !! 0%nat = Some Fine.paid
  /\ balance Scenario.charged 0 = Some (0 + Fine.amount Scenario.fine)
  /\ balance Scenario.paid_up 0
     = Some (0 + Fine.amount Scenario.fine + - Fine.amount Scenario.fine)
  /\ (waiveFine Scenario.calm Scenario.fifth 0 7 "goodwill" Scenario.paid_up).2
     = Err CannotWaivePaid.
Proof. repeat split. Qed.

End SettlementScenarios.

(** ** Paying a waived fine *)

Section WaivedThenPaid.

Import Calculator FineService NotificationService.
Local Open Scope Q_scope.

(** [payFine] goes through on any fine that is not paid, when its user
    exists and the payment confirmation resolves. *)
Lemma payFine_resolves env now fid staff db f u :
  fines db !! fid = Some f ->
  Fine.status f <> Fine.paid ->
  users db !! Fine.user f = Some u ->
  Env.create_resolves env = true ->
  Env.failed_saved env = true ->
  exists db',
    payFine env now fid staff db = (db', Ok (fid, Fine.markAsPaid now staff f))
    /\ same_ledger (settled db fid (Fine.markAsPaid now staff f) u) db'.
Proof.
  intros Hf Hs Hu Hc Hsv.
  pose proof (payFine_ledger env now fid staff db f u Hf Hs Hu) as L.
  rewrite (payFine_unpaid _ _ _ _ _ _ _ Hf Hs Hu) in *.
  edestruct (sendNotification_resolves env now (recipient (Fine.user f, u))
               Notification.fine_paid [Notification.email]) as [db' E];
    [exact Hc | exact Hsv |].
  rewrite E in *. now exists db'.
Qed.

(** C10. [payFine] rejects a fine for its status only when that status is
    'paid': on a fine that is pending, waived or cancelled it never
    rejects with 'Fine is already paid', it turns the fine into a paid
    one and decrements the user's [fineBalance] by the amount, and it
    resolves when the payment confirmation does. So a waived fine can be
    paid, and the balance is decremented once more: once
    [createOverdueFine] has written a fine, whether it then resolved or
    rejected on its notice, [waiveFine] and then [payFine] on that fine
    leave the balance at the pre-fine balance plus the amount minus it
    twice, below the pre-fine balance. *)
Theorem waived_fine_can_be_paid :
  (forall env now fid staff db f,
      fines db !! fid = Some f ->
      let out := payFine env now fid staff db in
      (out.2 = Err AlreadyPaid <-> Fine.status f = Fine.paid)
      /\ (Fine.status f <> Fine.paid ->
          forall u,
            users db !! Fine.user f = Some u ->
            Fine.status <$> fines out.1 !! fid = Some Fine.paid
            /\ balance out.1 (Fine.user f) = Some (User.fineBalance u + - Fine.amount f)
            /\ (Env.create_resolves env = true ->
                Env.failed_saved env = true ->
                out.2 = Ok (fid, Fine.markAsPaid now staff f))))
  /\ (forall env now id db b u f envw noww staffw reason envp nowp staffp,
        charge now id db b u f ->
        let fid := length (fines db) in
        let db1 := (createOverdueFine env now id db).1 in
        let db2 := (waiveFine envw noww fid staffw reason db1).1 in
        let out := payFine envp nowp fid staffp db2 in
        exists q0 q3,
          Fine.status <$> fines db2 !! fid = Some Fine.waived
          /\ out.2 <> Err AlreadyPaid
          /\ Fine.status <$> fines out.1 !! fid = Some Fine.paid
          /\ (Env.create_resolves envp = true ->
              Env.failed_saved envp = true ->
              exists f', out.2 = Ok (fid, f') /\ Fine.status f' = Fine.paid)
          /\ balance db (Fine.user f) = Some q0
          /\ balance db2 (Fine.user f) = Some (q0 + Fine.amount f + - Fine.amount f)
          /\ balance out.1 (Fine.user f) = Some q3
          /\ q3 = q0 + Fine.amount f + - Fine.amount f + - Fine.amount f
          /\ q3 < q0).
Proof.
  assert (A : forall env now fid staff db f,
             fines db !! fid = Some f ->
             let out := payFine env now fid staff db in
             (out.2 = Err AlreadyPaid <-> Fine.status f = Fine.paid)
             /\ (Fine.status f <> Fine.paid ->
                 forall u,
                   users db !! Fine.user f = Some u ->
                   Fine.status <$> fines out.1 !! fid = Some Fine.paid
                   /\ balance out.1 (Fine.user f)
                      = Some (User.fineBalance u + - Fine.amount f)
                   /\ (Env.create_resolves env = true ->
                       Env.failed_saved env = true ->
                       out.2 = Ok (fid, Fine.markAsPaid now staff f)))).
  { intros env now fid staff db f Hf out. split.
    - destruct (decide (Fine.status f = Fine.paid)) as [Hs|Hn].
      + unfold out. rewrite (payFine_paid _ _ _ _ _ _ Hf Hs). now split.
      + split; [| contradiction]. intros E. exfalso. revert E. unfold out.
        destruct (users db !! Fine.user f) as [u|] eqn:Hu.
        * rewrite (payFine_unpaid _ _ _ _ _ _ _ Hf Hn Hu).
          destruct (sendNotification _ _ _ _ _ _) as [db' [nid|e]] eqn:E; [discriminate |].
          apply sendNotification_error in E as ->. discriminate.
        * unfold payFine, bind, get. rewrite Hf.
          destruct (decide _) as [|_]; [contradiction |].
          unfold Fine_save, populated_user.
          cbn [users set_fines Fine.user Fine.markAsPaid fst]. rewrite Hu. discriminate.
    - intros Hn u Hu.
      destruct (payFine_ledger env now fid staff db f u Hf Hn Hu) as (_ & Lf & Lu & _).
      fold out in Lf, Lu.
      split; [| split].
      + rewrite Lf. now rewrite (settled_fine _ _ _ _ _ Hf).
      + unfold balance. rewrite Lu.
        change (Fine.user f) with (Fine.user (Fine.markAsPaid now staff f)).
        now rewrite settled_user by exact Hu.
      + intros Hc Hsv.
        destruct (payFine_resolves env now fid staff db f u Hf Hn Hu Hc Hsv)
          as (db' & E & _).
        unfold out. now rewrite E. }
  split; [exact A |].
  intros env now id db b u f envw noww staffw reason envp nowp staffp C fid db1 db2 out.
  destruct (charged_ledger env now id db b u f C) as (Hu & Hf1 & Hu1 & Hs & Hpos).
  fold db1 fid in Hf1, Hu1.
  assert (Hn : Fine.status f <> Fine.paid) by (rewrite Hs; discriminate).
  destruct (waiveFine_ledger envw noww fid staffw reason db1 f _ Hf1 Hn Hu1)
    as (_ & Lf2 & Lu2 & _).
  fold db2 in Lf2, Lu2.
  set (fw := Fine.waiveFine noww staffw reason f) in *.
  assert (Hf2 : fines db2 !! fid = Some fw)
    by (rewrite Lf2; apply (settled_fine _ _ _ _ _ Hf1)).
  assert (Hu2 : users db2 !! Fine.user fw
                = Some (User.inc (- Fine.amount fw) (User.inc (Fine.amount f) u)))
    by (rewrite Lu2; apply settled_user; exact Hu1).
  assert (Hw : Fine.status fw <> Fine.paid) by discriminate.
  destruct (A envp nowp fid staffp db2 fw Hf2) as (P0 & P).
  destruct (P Hw _ Hu2) as (P1 & P2 & P3).
  fold out in P0, P1, P2, P3.
  exists (User.fineBalance u),
         (User.fineBalance u + Fine.amount f + - Fine.amount f + - Fine.amount f).
  split; [now rewrite Hf2 |].
  split; [intros E; apply P0 in E; discriminate E |].
  split; [exact P1 |].
  split; [intros Hc Hsv; eexists; split; [apply P3; assumption | reflexivity] |].
  split; [unfold balance; now rewrite Hu |].
  split; [unfold balance; change (Fine.user f) with (Fine.user fw); now rewrite Hu2 |].
  split; [exact P2 |].
  split; [reflexivity |]. lra.
Qed.

Lemma waived_fine_can_be_paid_witness :
  let db := Scenario.library Scenario.loan (Scenario.policy 2000) in
  let fid := length (fines db) in
  let db1 := (createOverdueFine Scenario.unpopulated Scenario.fifth 0 db).1 in
  let db2 := (waiveFine Scenario.calm Scenario.fifth fid 7 "goodwill" db1).1 in
  let out := payFine Scenario.calm Scenario.fifth fid 7 db2 in
  exists q0 q3,
    Fine.status <$> fines db2 !! fid = Some Fine.waived
    /\ out.2 <> Err AlreadyPaid
    /\ Fine.status <$> fines out.1 !! fid = Some Fine.paid
    /\ (Env.create_resolves Scenario.calm = true ->
        Env.failed_saved Scenario.calm = true ->
        exists f', out.2 = Ok (fid, f') /\ Fine.status f' = Fine.paid)
    /\ balance db (Fine.user Scenario.fine) = Some q0
    /\ balance db2 (Fine.user Scenario.fine)
       = Some (q0 + Fine.amount Scenario.fine + - Fine.amount Scenario.fine)
    /\ balance out.1 (Fine.user Scenario.fine) = Some q3
    /\ q3 = q0 + Fine.amount Scenario.fine + - Fine.amount Scenario.fine
            + - Fine.amount Scenario.fine
    /\ q3 < q0.
Proof.
  apply (proj2 waived_fine_can_be_paid Scenario.unpopulated Scenario.fifth 0%nat
           (Scenario.library Scenario.loan (Scenario.policy 2000))
           Scenario.loan Scenario.member Scenario.fine).
  split; try reflexivity. discriminate.
Defined.

(** In figures: a balance of 0 before the fine of 100, 0 after the waiver,
    -100 after the payment of the waived fine. *)
Example waived_then_paid_balance :
  let db2 := (waiveFine Scenario.calm Scenario.fifth 0 7 "goodwill" Scenario.charged).1 in
  let out := payFine Scenario.calm Scenario.fifth 0 7 db2 in
  exists q f', balance out.1 0 = Some q /\ q == -100
               /\ out.2 = Ok (0%nat, f') /\ Fine.status f' = Fine.paid.
Proof.
  do 2 eexists. split; [vm_compute; reflexivity |].
  split; [reflexivity |]. split; reflexivity.
Qed.

End WaivedThenPaid.

(** ** Lost books *)

Section LostBook.

Import Calculator FineService NotificationService.
Local Open Scope Q_scope.

(** C8. For a loan on a book priced 1000 with no 'lost' fine yet and no
    [replacementCost] argument, [createLostBookFine] appends a fine of
    amount 2000 of type 'lost', sets the loan's [isLost] to true and its
    status to 'completed', and increments the user's [fineBalance] by
    2000; it resolves to that fine when the fine notice resolves. *)
Theorem lost_book_fine env now id db b u bk :
  borrows db !! id = Some b ->
  users db !! Borrow.user b = Some u ->
  books db !! Borrow.book b = Some bk ->
  Book.price bk == 1000 ->
  Fine_findOne id Fine.lost db = None ->
  exists f b' u',
    fines (createLostBookFine env now id None db).1 = fines db ++ [f]
    /\ Fine.amount f == 2000
    /\ Fine.type f = Fine.lost /\ Fine.borrow f = id /\ Fine.user f = Borrow.user b
    /\ Fine.status f = Fine.pending
    /\ borrows (createLostBookFine env now id None db).1 !! id = Some b'
    /\ Borrow.isLost b' = true /\ Borrow.status b' = Borrow.completed
    /\ users (createLostBookFine env now id None db).1 !! Borrow.user b = Some u'
    /\ User.fineBalance u' == User.fineBalance u + 2000
    /\ (forall user, Env.populated env = Some user ->
                     Env.create_resolves env = true ->
                     Env.failed_saved env = true ->
                     (createLostBookFine env now id None db).2
                     = Ok (length (fines db), f)).
Proof.
  intros Hb Hu Hbk Hp Hf.
  assert (Hv : bookValue None b db = (db, Ok (Book.price bk)))
    by (unfold bookValue; now rewrite Hbk).
  assert (Hval : Fine.validate (lostFineData now (Borrow.user b) id (Book.price bk)) = true).
  { unfold Fine.validate. cbn. rewrite andb_true_r.
    apply Qle_bool_iff. rewrite Hp. discriminate. }
  rewrite (createLostBookFine_charge env now id None db b u _ Hb Hf Hv Hu Hval).
  cbn zeta.
  set (f := lostFineData now (Borrow.user b) id (Book.price bk)).
  assert (L : same_ledger (lost_booked now db id b u f)
                (match sendFineNotice env now (length (fines db), f)
                         (lost_booked now db id b u f) with
                 | (db', Ok _) => (db', Ok (length (fines db), f))
                 | (db', Err e) => (db', Err e)
                 end).1).
  { destruct (sendFineNotice _ _ _ _) as [db' [nid|e]] eqn:E;
      eapply sendFineNotice_ledger, E. }
  destruct L as (Lb & Lf & Lu & _).
  exists f. eexists. eexists.
  rewrite Lb, Lf, Lu.
  split; [reflexivity |].
  split; [cbn; rewrite Hp; reflexivity |].
  do 4 (split; [reflexivity |]).
  split; [cbn; apply list_lookup_insert_eq; eapply lookup_lt_Some, Hb |].
  do 2 (split; [reflexivity |]).
  split; [cbn; apply list_lookup_insert_eq; eapply lookup_lt_Some, Hu |].
  split; [cbn; rewrite Hp; reflexivity |].
  intros user Hpop Hc Hs.
  edestruct (sendFineNotice_resolves env now (length (fines db), f)
               (lost_booked now db id b u f)) as [db' ->]; eauto.
Qed.

Lemma lost_book_fine_witness :
  let db := Scenario.library Scenario.loan (Scenario.policy 2000) in
  exists f b' u',
    fines (createLostBookFine Scenario.calm Scenario.fifth 0 None db).1 = fines db ++ [f]
    /\ Fine.amount f == 2000
    /\ Fine.type f = Fine.lost /\ Fine.borrow f = 0%nat
    /\ Fine.user f = Borrow.user Scenario.loan
    /\ Fine.status f = Fine.pending
    /\ borrows (createLostBookFine Scenario.calm Scenario.fifth 0 None db).1 !! 0%nat
       = Some b'
    /\ Borrow.isLost b' = true /\ Borrow.status b' = Borrow.completed
    /\ users (createLostBookFine Scenario.calm Scenario.fifth 0 None db).1
         !! Borrow.user Scenario.loan = Some u'
    /\ User.fineBalance u' == User.fineBalance Scenario.member + 2000
    /\ (forall user, Env.populated Scenario.calm = Some user ->
                     Env.create_resolves Scenario.calm = true ->
                     Env.failed_saved Scenario.calm = true ->
                     (createLostBookFine Scenario.calm Scenario.fifth 0 None db).2
                     = Ok (length (fines db), f)).
Proof.
  apply (lost_book_fine Scenario.calm Scenario.fifth 0%nat
           (Scenario.library Scenario.loan (Scenario.policy 2000))
           Scenario.loan Scenario.member (Book.mk 1000)).
  - reflexivity.
  - reflexivity.
  - reflexivity.
  - reflexivity.
  - reflexivity.
Defined.

End LostBook.

(** ** Notification failures during fine creation *)

Section NoticeFailure.

Import Calculator FineService NotificationService.
Local Open Scope Q_scope.

(** C9, as amended. When [createOverdueFine] charges a fine: if the fine
    notice gets as far as its notification record and the failure of a
    channel can be recorded on it, then whatever the SMS and e-mail
    transports do, the operation resolves to the persisted fine with the
    user's balance incremented; if [sendFineNotice] itself rejects (a
    [populate] or [Notification.create] rejects), [createOverdueFine]
    rethrows that error to its caller, and the fine stays persisted and
    the balance incremented: nothing is rolled back. *)
Theorem notice_failure env now id db b u f :
  charge now id db b u f ->
  (forall user,
      Env.populated env = Some user ->
      Env.create_resolves env = true ->
      Env.failed_saved env = true ->
      exists db',
        createOverdueFine env now id db = (db', Ok (Some (length (fines db), f)))
        /\ fines db' = fines db ++ [f]
        /\ users db' = <[Borrow.user b := User.inc (Fine.amount f) u]> (users db))
  /\ (Env.populated env = None \/ Env.create_resolves env = false ->
      exists db' e,
        createOverdueFine env now id db = (db', Err e)
        /\ fines db' = fines db ++ [f]
        /\ users db' = <[Borrow.user b := User.inc (Fine.amount f) u]> (users db)).
Proof.
  intros C. rewrite (createOverdueFine_charge env now id db b u f C). split.
  - intros user Hp Hc Hs.
    destruct (sendFineNotice_resolves env now (length (fines db), f)
                (booked db (Borrow.user b) u f) user Hp Hc Hs) as [db' E].
    rewrite E. exists db'. split; [reflexivity |].
    apply sendFineNotice_ledger in E as (_ & -> & -> & _). split; reflexivity.
  - intros H.
    destruct (sendFineNotice_rejects env now (length (fines db), f)
                (booked db (Borrow.user b) u f) H) as [e E].
    rewrite E. exists (booked db (Borrow.user b) u f), e.
    split; [reflexivity |]. split; reflexivity.
Qed.

(** Both transports down, for a recipient with phone and e-mail: the fine
    notice still resolves and the operation returns the fine. *)
Example transports_down :
  (createOverdueFine Scenario.no_transport Scenario.fifth 0
     (Scenario.library Scenario.loan (Scenario.policy 2000))).2
  = Ok (Some (0%nat, Scenario.fine)).
Proof. vm_compute. reflexivity. Qed.

Lemma notice_failure_witness :
  let db := Scenario.library Scenario.loan (Scenario.policy 2000) in
  (forall user,
      Env.populated Scenario.no_transport = Some user ->
      Env.create_resolves Scenario.no_transport = true ->
      Env.failed_saved Scenario.no_transport = true ->
      exists db',
        createOverdueFine Scenario.no_transport Scenario.fifth 0 db
        = (db', Ok (Some (length (fines db), Scenario.fine)))
        /\ fines db' = fines db ++ [Scenario.fine]
        /\ users db' = <[Borrow.user Scenario.loan :=
                           User.inc (Fine.amount Scenario.fine) Scenario.member]> (users db))
  /\ (Env.populated Scenario.no_transport = None
      \/ Env.create_resolves Scenario.no_transport = false ->
      exists db' e,
        createOverdueFine Scenario.no_transport Scenario.fifth 0 db = (db', Err e)
        /\ fines db' = fines db ++ [Scenario.fine]
        /\ users db' = <[Borrow.user Scenario.loan :=
                           User.inc (Fine.amount Scenario.fine) Scenario.member]> (users db)).
Proof.
  apply (notice_failure Scenario.no_transport Scenario.fifth 0%nat
           (Scenario.library Scenario.loan (Scenario.policy 2000))
           Scenario.loan Scenario.member Scenario.fine).
  split; try reflexivity. discriminate.
Defined.

(** C9 as stated fails when the notification record cannot be created:
    [sendFineNotice] rejects, [createOverdueFine] rethrows, and the caller
    gets the error although the fine is persisted and the balance is
    incremented. *)
Lemma notice_failure_is_surfaced :
  let db := Scenario.library Scenario.loan (Scenario.policy 2000) in
  exists db',
    createOverdueFine Scenario.no_record Scenario.fifth 0 db
    = (db', Err NotificationNotSaved)
    /\ fines db' = [Scenario.fine]
    /\ balance db 0 = Some 0
    /\ exists q, balance db' 0 = Some q /\ q == 100.
Proof.
  eexists. split; [vm_compute; reflexivity |].
  split; [reflexivity |]. split; [reflexivity |].
  eexists. split; reflexivity.
Qed.

End NoticeFailure.

(** ** One overdue fine per loan *)

Section OneFinePerLoan.

Import Calculator FineService NotificationService.

Lemma overdueBorrows_NoDup now db : NoDup (overdueBorrows now db).
Proof.
  unfold overdueBorrows.
  eapply sublist_NoDup; [| apply fmap_sublist, sublist_filter].
  rewrite fmap_imap.
  rewrite (imap_ext _ (fun j _ => j)) by reflexivity.
  rewrite (imap_seq_0 (borrows db) (fun j => j)), list_fmap_id.
  apply NoDup_seq.
Qed.

(** A selected loan without a fine that is within the grace period: the
    body of the loop writes nothing and counts it. *)
Lemma processBorrow_grace env now id db b :
  borrows db !! id = Some b ->
  Borrow.status b <> Borrow.completed ->
  overdue_fines db id = 0%nat ->
  (inject_Z (days_overdue now (Borrow.dueDate b)) <= grace_of (config db))%Q ->
  processBorrow env now id db = (db, 1%nat).
Proof.
  intros Hb Hs Hc Hg. apply findOne_None_count in Hc.
  unfold processBorrow. rewrite Hc.
  unfold createOverdueFine, bind, get. rewrite Hb, Hc.
  unfold calculateOverdueFine. rewrite Hb.
  destruct (decide _) as [|_]; [contradiction |].
  rewrite (compute_within_grace _ _ _ Hg). reflexivity.
Qed.

(** The body of the loop for another loan leaves the loans, the
    configuration and the overdue fines of this one as they are. *)
Lemma processBorrow_other env now j id db :
  j <> id ->
  borrows (processBorrow env now j db).1 = borrows db
  /\ config (processBorrow env now j db).1 = config db
  /\ overdue_fines (processBorrow env now j db).1 id = overdue_fines db id.
Proof.
  intros N. unfold processBorrow.
  destruct (Fine_findOne j Fine.overdue db); [now repeat split |].
  assert (H : borrows (createOverdueFine (env j) now j db).1 = borrows db
              /\ config (createOverdueFine (env j) now j db).1 = config db
              /\ overdue_fines (createOverdueFine (env j) now j db).1 id
                 = overdue_fines db id).
  { destruct (createOverdueFine_cases (env j) now j db)
      as [(r & -> & _) | (b & u & f & C)]; [now repeat split |].
    destruct (charge_written (env j) now j db b u f C) as (Lb & Lf & _ & _ & Lc).
    destruct (charge_fine_facts _ _ _ _ _ _ C) as (Fb & _).
    unfold overdue_fines. rewrite Lb, Lf, Lc.
    cbn [borrows config fines booked set_users set_fines].
    repeat split. apply count_app_other. left. congruence. }
  destruct (createOverdueFine (env j) now j db) as [db' [x|e]]; exact H.
Qed.

Lemma sweep_other env now id ids :
  forall db,
    id ∉ ids ->
    borrows (sweep env now ids db).1 = borrows db
    /\ config (sweep env now ids db).1 = config db
    /\ overdue_fines (sweep env now ids db).1 id = overdue_fines db id.
Proof.
  induction ids as [|j ids IH]; intros db H; cbn [sweep]; [now repeat split |].
  apply not_elem_of_cons in H as [N H].
  destruct (processBorrow_other env now j id db) as (Pb & Pc & Pn); [congruence |].
  destruct (processBorrow env now j db) as [db1 c]. cbn [fst] in Pb, Pc, Pn.
  destruct (IH db1 H) as (Sb & Sc & Sn).
  destruct (sweep env now ids db1) as [db2 n]. cbn [fst] in *.
  repeat split; congruence.
Qed.

Lemma filter_others id (ids : list nat) :
  id ∉ ids -> filter (fun j => j <> id) ids = ids.
Proof.
  induction ids as [|j ids IH]; intros H; [reflexivity |].
  apply not_elem_of_cons in H as [N H].
  rewrite filter_cons_True by congruence. now rewrite IH.
Qed.

(** The loop over the selected loans counts such a loan once. *)
Lemma sweep_counts env now id b ids :
  forall db,
    NoDup ids ->
    id ∈ ids ->
    borrows db !! id = Some b ->
    Borrow.status b <> Borrow.completed ->
    overdue_fines db id = 0%nat ->
    (inject_Z (days_overdue now (Borrow.dueDate b)) <= grace_of (config db))%Q ->
    sweep env now ids db
    = (let (db2, n) := sweep env now (filter (fun j => j <> id) ids) db in (db2, S n)).
Proof.
  induction ids as [|j ids IH]; intros db D H Hb Hs Hc Hg;
    [now apply elem_of_nil in H |].
  apply NoDup_cons in D as [Dj D].
  destruct (decide (j = id)) as [->|N].
  - rewrite filter_cons_False by (intros E; now apply E).
    rewrite (filter_others id ids Dj). cbn [sweep].
    rewrite (processBorrow_grace env now id db b Hb Hs Hc Hg).
    destruct (sweep env now ids db) as [db2 n]. reflexivity.
  - apply elem_of_cons in H as [E | H]; [congruence |].
    rewrite filter_cons_True by exact N. cbn [sweep].
    destruct (processBorrow_other env now j id db N) as (Pb & Pc & Pn).
    destruct (processBorrow env now j db) as [db1 c]. cbn [fst] in Pb, Pc, Pn.
    rewrite (IH db1 D H); [| now rewrite Pb | exact Hs | congruence | now rewrite Pc].
    destruct (sweep env now (filter (fun j0 => j0 <> id) ids) db1) as [db2 n].
    f_equal. lia.
Qed.

(** C2, as amended. Run one after the other, the ledger operations and the
    sweep never record a second fine of type 'overdue' for a loan. Once
    [createOverdueFine] has written the fine of a loan, whether it then
    resolved or rejected on its notice, every call for that loan fails
    with 'Fine already exists for this borrow', writes nothing and
    leaves exactly one overdue fine for the loan; so does every call for
    a loan that has an overdue fine on record. A run of
    [processOverdueFines] after a run that recorded the fine of a loan
    creates no new fine for it and leaves it out of [processedCount]:
    the run is the run over the other selected loans. A selected loan
    that has no overdue fine and is still within the grace period gets
    no fine and adds one to [processedCount], in every such run: the run
    is the run over the other selected loans, and one more. *)
Theorem one_overdue_fine_per_loan :
  (forall db cs b,
      (overdue_fines db b <= 1)%nat -> (overdue_fines (after_all cs db) b <= 1)%nat)
  /\ (forall env now id db b u f,
        charge now id db b u f ->
        let db1 := (createOverdueFine env now id db).1 in
        overdue_fines db1 id = 1%nat
        /\ forall env' now', createOverdueFine env' now' id db1 = (db1, Err DuplicateFine))
  /\ (forall env now id db b,
        borrows db !! id = Some b ->
        (1 <= overdue_fines db id)%nat ->
        createOverdueFine env now id db = (db, Err DuplicateFine))
  /\ (forall env1 now1 env2 now2 db id,
        let db1 := (processOverdueFines env1 now1 db).1 in
        overdue_fines db id = 0%nat ->
        overdue_fines db1 id = 1%nat ->
        overdue_fines (processOverdueFines env2 now2 db1).1 id = 1%nat
        /\ processOverdueFines env2 now2 db1
           = (let ids := overdueBorrows now2 db1 in
              let (db2, n) := sweep env2 now2 (filter (fun j => j <> id) ids) db1 in
              (db2, {| processedCount := n; totalOverdue := length ids |}))
        /\ processBorrow env2 now2 id db1 = (db1, 0%nat))
  /\ (forall env now db id b,
        borrows db !! id = Some b ->
        id ∈ overdueBorrows now db ->
        overdue_fines db id = 0%nat ->
        (inject_Z (days_overdue now (Borrow.dueDate b)) <= grace_of (config db))%Q ->
        processBorrow env now id db = (db, 1%nat)
        /\ processOverdueFines env now db
           = (let ids := overdueBorrows now db in
              let (db2, n) := sweep env now (filter (fun j => j <> id) ids) db in
              (db2, {| processedCount := S n; totalOverdue := length ids |}))
        /\ overdue_fines (processOverdueFines env now db).1 id = 0%nat).
Proof.
  assert (Dup : forall env now id db b,
             borrows db !! id = Some b ->
             (1 <= overdue_fines db id)%nat ->
             createOverdueFine env now id db = (db, Err DuplicateFine)).
  { intros env now id db b Hb H. unfold createOverdueFine, bind, get. rewrite Hb.
    destruct (proj2 (findOne_Some_count db id)) as [x ->]; [exact H | reflexivity]. }
  split; [| split; [| split; [exact Dup | split]]].
  - intros db cs b H.
    pose proof (rtc_fines_step_count _ _ b (after_all_steps cs db)) as C.
    cbn zeta in C. unfold overdue_fines in *. lia.
  - intros env now id db b u f C db1.
    destruct (charge_written env now id db b u f C) as (Lb & Lf & _).
    fold db1 in Lb, Lf.
    destruct (charge_fine_facts _ _ _ _ _ _ C) as (Hb & Ht & _).
    assert (N : overdue_fines db1 id = 1%nat).
    { unfold overdue_fines. rewrite Lf. cbn [fines booked set_users set_fines].
      rewrite filter_app, length_app, filter_cons, filter_nil.
      destruct (decide _) as [_|N]; [| now destruct N].
      pose proof (proj1 (findOne_None_count db id) (charge_fresh _ _ _ _ _ _ C)) as Z0.
      unfold overdue_fines in Z0. rewrite Z0. reflexivity. }
    split; [exact N |].
    intros env' now'. apply Dup with b; [| lia].
    rewrite Lb. cbn [borrows booked set_users set_fines]. apply C.
  - intros env1 now1 env2 now2 db id db1 _ H1.
    assert (G : (1 <= overdue_fines db1 id)%nat) by lia.
    split; [| split].
    + pose proof (after_steps (ProcessOverdueFines env2 now2) db1) as S.
      apply (rtc_fines_step_count _ _ id) in S. cbn zeta in S.
      cbn [after] in S. unfold overdue_fines in *. lia.
    + unfold processOverdueFines. cbn zeta.
      now rewrite (sweep_skips env2 now2 id _ db1 G).
    + now apply processBorrow_skips.
  - intros env now db id b Hb Hsel Hc Hg.
    assert (Hs : Borrow.status b <> Borrow.completed).
    { apply overdueBorrows_spec in Hsel as (b' & Hb' & Ha & _).
      rewrite Hb in Hb'. injection Hb' as <-. rewrite Ha. discriminate. }
    pose proof (sweep_counts env now id b _ db (overdueBorrows_NoDup now db)
                  Hsel Hb Hs Hc Hg) as E.
    assert (O : id ∉ filter (fun j => j <> id) (overdueBorrows now db)).
    { intros H. apply list_elem_of_filter in H as [H _]. now apply H. }
    destruct (sweep_other env now id _ db O) as (_ & _ & Sn).
    split; [now apply processBorrow_grace with b |].
    unfold processOverdueFines. cbn zeta. rewrite E.
    destruct (sweep env now (filter (fun j => j <> id) (overdueBorrows now db)) db)
      as [db2 n].
    cbn [fst] in *. split; [reflexivity | congruence].
Qed.

Lemma one_overdue_fine_per_loan_witness :
  (let db := Scenario.library Scenario.loan (Scenario.policy 2000) in
   let db1 := (createOverdueFine Scenario.unpopulated Scenario.fifth 0 db).1 in
   overdue_fines db1 0 = 1%nat
   /\ forall env' now', createOverdueFine env' now' 0 db1 = (db1, Err DuplicateFine))
  /\ (let db := Scenario.library Scenario.loan (Scenario.policy 2000) in
      let env := fun _ : nat => Scenario.unpopulated in
      let now2 := Moment.utc 2024 1 6 in
      let db1 := (processOverdueFines env Scenario.fifth db).1 in
      overdue_fines (processOverdueFines env now2 db1).1 0 = 1%nat
      /\ processOverdueFines env now2 db1
         = (let ids := overdueBorrows now2 db1 in
            let (db2, n) := sweep env now2 (filter (fun j => j <> 0%nat) ids) db1 in
            (db2, {| processedCount := n; totalOverdue := length ids |}))
      /\ processBorrow env now2 0 db1 = (db1, 0%nat))
  /\ (let db := Scenario.library Scenario.loan (Scenario.policy 2000) in
      let env := fun _ : nat => Scenario.unpopulated in
      let now := Moment.utc 2024 1 2 in
      processBorrow env now 0 db = (db, 1%nat)
      /\ processOverdueFines env now db
         = (let ids := overdueBorrows now db in
            let (db2, n) := sweep env now (filter (fun j => j <> 0%nat) ids) db in
            (db2, {| processedCount := S n; totalOverdue := length ids |}))
      /\ overdue_fines (processOverdueFines env now db).1 0 = 0%nat).
Proof.
  split; [| split].
  - apply (proj1 (proj2 one_overdue_fine_per_loan) Scenario.unpopulated Scenario.fifth
             0%nat (Scenario.library Scenario.loan (Scenario.policy 2000))
             Scenario.loan Scenario.member Scenario.fine).
    split; try reflexivity. discriminate.
  - apply (proj1 (proj2 (proj2 (proj2 one_overdue_fine_per_loan)))
             (fun _ => Scenario.unpopulated) Scenario.fifth
             (fun _ => Scenario.unpopulated) (Moment.utc 2024 1 6)
             (Scenario.library Scenario.loan (Scenario.policy 2000)) 0%nat).
    + vm_compute. reflexivity.
    + vm_compute. reflexivity.
  - apply (proj2 (proj2 (proj2 (proj2 one_overdue_fine_per_loan)))
             (fun _ => Scenario.unpopulated) (Moment.utc 2024 1 2)
             (Scenario.library Scenario.loan (Scenario.policy 2000)) 0%nat
             Scenario.loan).
    + reflexivity.
    + vm_compute. apply elem_of_cons. now left.
    + reflexivity.
    + vm_compute. discriminate.
Defined.

(** In that scenario the second run selects the loan and counts nothing. *)
Example second_run_counts_nothing :
  let env := fun _ : nat => Scenario.calm in
  let db1 := (processOverdueFines env Scenario.fifth
                (Scenario.library Scenario.loan (Scenario.policy 2000))).1 in
  (processOverdueFines env (Moment.utc 2024 1 6) db1).2
  = {| processedCount := 0; totalOverdue := 1 |}.
Proof. vm_compute. reflexivity. Qed.

(** C2 as stated fails for a loan that is overdue but still within the
    grace period: the first run creates no fine for it and counts it, and
    so does the second run, an hour later. *)
Lemma grace_loan_is_counted_again :
  let db := Scenario.library Scenario.loan (Scenario.policy 2000) in
  let now1 := Moment.utc 2024 1 2 in
  let now2 := (Moment.utc 2024 1 2 + 3600000)%Z in
  let run1 := processOverdueFines (fun _ => Scenario.calm) now1 db in
  let run2 := processOverdueFines (fun _ => Scenario.calm) now2 run1.1 in
  overdueBorrows now1 db = [0%nat]
  /\ overdueBorrows now2 run1.1 = [0%nat]
  /\ processedCount run1.2 = 1%nat
  /\ processedCount run2.2 = 1%nat
  /\ fines run2.1 = [].
Proof. vm_compute. repeat split. Qed.

End OneFinePerLoan.

(** * Further properties *)

(** ** What each ledger operation writes *)

Section LedgerOutcomes.

Import Calculator FineService NotificationService.
Local Open Scope Q_scope.

Lemma createOverdueFine_outcome env now id db :
  (createOverdueFine env now id db).1 = db
  \/ exists b u f,
       charge now id db b u f
       /\ same_ledger (booked db (Borrow.user b) u f) (createOverdueFine env now id db).1.
Proof.
  destruct (createOverdueFine_cases env now id db) as [(r & -> & _) | (b & u & f & C)].
  - now left.
  - right. exists b, u, f. split; [exact C |].
    rewrite (createOverdueFine_charge _ _ _ _ _ _ _ C).
    destruct (sendFineNotice _ _ _ _) as [db' [nid|e]] eqn:E;
      eapply sendFineNotice_ledger, E.
Qed.

Lemma createLostBookFine_outcome env now id rc db :
  (createLostBookFine env now id rc db).1 = db
  \/ exists b u v,
       borrows db !! id = Some b
       /\ Fine_findOne id Fine.lost db = None
       /\ users db !! Borrow.user b = Some u
       /\ same_ledger (lost_booked now db id b u (lostFineData now (Borrow.user b) id v))
                      (createLostBookFine env now id rc db).1.
Proof.
  destruct (createLostBookFine_cases env now id rc db)
    as [(r & -> & _) | (b & u & v & Hb & Hf & _ & Hu & _ & ->)].
  - now left.
  - right. exists b, u, v. repeat (split; [assumption |]). cbn zeta.
    destruct (sendFineNotice _ _ _ _) as [db' [nid|e]] eqn:E;
      eapply sendFineNotice_ledger, E.
Qed.

(** A settlement either stops before any write, or replaces the fine by
    [f'] and decrements the balance of its user; when that user is gone
    it stops after the fine has been saved. *)
Lemma settle_outcome (run : Db -> Db * result (nat * Fine.t)) (mark : Fine.t -> Fine.t)
    fid db :
  (fines db !! fid = None -> (run db).1 = db) ->
  (forall f, fines db !! fid = Some f -> Fine.status f = Fine.paid -> (run db).1 = db) ->
  (forall f u, fines db !! fid = Some f -> Fine.status f <> Fine.paid ->
               users db !! Fine.user f = Some u ->
               same_ledger (settled db fid (mark f) u) (run db).1) ->
  (forall f, fines db !! fid = Some f -> Fine.status f <> Fine.paid ->
             users db !! Fine.user f = None ->
             (run db).1 = set_fines (<[fid := mark f]> (fines db)) db) ->
  (run db).1 = db
  \/ exists f, fines db !! fid = Some f /\ Fine.status f <> Fine.paid
               /\ ((exists u, users db !! Fine.user f = Some u
                              /\ same_ledger (settled db fid (mark f) u) (run db).1)
                   \/ (users db !! Fine.user f = None
                       /\ (run db).1 = set_fines (<[fid := mark f]> (fines db)) db)).
Proof.
  intros Hnone Hpaid Hsome Hgone.
  destruct (fines db !! fid) as [f|] eqn:Hf; [| left; now apply Hnone].
  destruct (decide (Fine.status f = Fine.paid)) as [Hs|Hs]; [left; now apply Hpaid with f |].
  right. exists f. split; [reflexivity |]. split; [exact Hs |].
  destruct (users db !! Fine.user f) as [u|] eqn:Hu.
  - left. exists u. split; [reflexivity |]. now apply Hsome.
  - right. split; [reflexivity |]. now apply Hgone.
Qed.

Lemma payFine_outcome env now fid staff db :
  (payFine env now fid staff db).1 = db
  \/ exists f, fines db !! fid = Some f /\ Fine.status f <> Fine.paid
               /\ ((exists u, users db !! Fine.user f = Some u
                              /\ same_ledger (settled db fid (Fine.markAsPaid now staff f) u)
                                             (payFine env now fid staff db).1)
                   \/ (users db !! Fine.user f = None
                       /\ (payFine env now fid staff db).1
                          = set_fines (<[fid := Fine.markAsPaid now staff f]> (fines db)) db)).
Proof.
  apply (settle_outcome (payFine env now fid staff) (Fine.markAsPaid now staff)).
  - intros Hf. unfold payFine, bind, get. now rewrite Hf.
  - intros f Hf Hs. now rewrite (payFine_paid _ _ _ _ _ _ Hf Hs).
  - intros f u Hf Hs Hu. now apply payFine_ledger.
  - intros f Hf Hs Hu. unfold payFine, bind, get. rewrite Hf.
    destruct (decide _) as [|_]; [contradiction |].
    unfold Fine_save, populated_user.
    cbn [users set_fines Fine.user Fine.markAsPaid fst]. now rewrite Hu.
Qed.

Lemma waiveFine_outcome env now fid staff reason db :
  (waiveFine env now fid staff reason db).1 = db
  \/ exists f, fines db !! fid = Some f /\ Fine.status f <> Fine.paid
               /\ ((exists u, users db !! Fine.user f = Some u
                              /\ same_ledger
                                   (settled db fid (Fine.waiveFine now staff reason f) u)
                                   (waiveFine env now fid staff reason db).1)
                   \/ (users db !! Fine.user f = None
                       /\ (waiveFine env now fid staff reason db).1
                          = set_fines (<[fid := Fine.waiveFine now staff reason f]> (fines db))
                                      db)).
Proof.
  apply (settle_outcome (waiveFine env now fid staff reason)
           (Fine.waiveFine now staff reason)).
  - intros Hf. unfold waiveFine, bind, get. now rewrite Hf.
  - intros f Hf Hs. now rewrite (waiveFine_paid _ _ _ _ _ _ _ Hf Hs).
  - intros f u Hf Hs Hu. now apply waiveFine_ledger.
  - intros f Hf Hs Hu. unfold waiveFine, bind, get. rewrite Hf.
    destruct (decide _) as [|_]; [contradiction |].
    unfold Fine_save, populated_user.
    cbn [users set_fines Fine.user Fine.waiveFine fst]. now rewrite Hu.
Qed.

End LedgerOutcomes.

(** ** The sweep and the loans it selects *)

Section SweepProperties.

Import Calculator FineService NotificationService.
Local Open Scope Q_scope.

(** One pass of the loop body: nothing, or the charge of [createOverdueFine]. *)
Lemma processBorrow_outcome env now id db :
  ((processBorrow env now id db).1 = db
   \/ exists b u f,
        charge now id db b u f
        /\ same_ledger (booked db (Borrow.user b) u f) (processBorrow env now id db).1)
  /\ ((processBorrow env now id db).2 <= 1)%nat.
Proof.
  unfold processBorrow.
  destruct (Fine_findOne id Fine.overdue db); [split; [now left | cbn; lia] |].
  pose proof (createOverdueFine_outcome (env id) now id db) as O.
  destruct (createOverdueFine (env id) now id db) as [db' [x|e]]; cbn [fst snd] in *;
    (split; [exact O | lia]).
Qed.

(** What the loop of the sweep does to the database. *)
Lemma sweep_appends env now ids :
  forall db,
  exists new,
    fines (sweep env now ids db).1 = fines db ++ new
    /\ (length new <= length ids)%nat
    /\ Forall (fun f => Fine.type f = Fine.overdue /\ Fine.status f = Fine.pending
                        /\ Fine.borrow f ∈ ids /\ 0 < Fine.amount f) new
    /\ borrows (sweep env now ids db).1 = borrows db
    /\ books (sweep env now ids db).1 = books db
    /\ config (sweep env now ids db).1 = config db
    /\ ((sweep env now ids db).2 <= length ids)%nat.
Proof.
  induction ids as [|id ids IH]; intros db; cbn [sweep].
  - exists []. rewrite app_nil_r. repeat split; [cbn; lia | constructor | cbn; lia].
  - destruct (processBorrow_outcome env now id db) as [O C].
    destruct (processBorrow env now id db) as [db1 c]. cbn [fst snd] in O, C.
    destruct (IH db1) as (new & Hf & Hl & Hall & Hb & Hk & Hc & Hn).
    destruct (sweep env now ids db1) as [db2 n]. cbn [fst snd] in *.
    assert (Hall' : Forall (fun f => Fine.type f = Fine.overdue
                                     /\ Fine.status f = Fine.pending
                                     /\ Fine.borrow f ∈ id :: ids /\ 0 < Fine.amount f) new).
    { eapply Forall_impl; [exact Hall |]. intros f (? & ? & ? & ?).
      repeat split; try assumption. now apply list_elem_of_further. }
    destruct O as [-> | (b & u & f & Ch & (Lb & Lf & _ & Lk & Lc))].
    + exists new. repeat split; try assumption; cbn; lia.
    + exists (f :: new).
      destruct (charge_fine_facts _ _ _ _ _ _ Ch) as (Fb & Ft & Fs & _ & Fpos).
      rewrite Hf, Lf, Hb, Lb, Hk, Lk, Hc, Lc. cbn [fines booked set_users set_fines].
      split; [now rewrite <- app_assoc |]. split; [cbn; lia |].
      split; [| repeat split; cbn; lia].
      constructor; [| exact Hall'].
      repeat split; try assumption. rewrite Fb. apply list_elem_of_here.
Qed.

(** X4. One run of [processOverdueFines] only appends to the fine
    collection: every fine that existed stays as it was, every new fine
    is a pending overdue fine of a positive amount for a loan the query
    selected, at most one fine per selected loan is added, and
    [processedCount] never exceeds [totalOverdue]. Loans, books and the
    configuration are not written. *)
Theorem sweep_only_appends env now db :
  let run := processOverdueFines env now db in
  exists new,
    fines run.1 = fines db ++ new
    /\ (length new <= totalOverdue run.2)%nat
    /\ (processedCount run.2 <= totalOverdue run.2)%nat
    /\ Forall (fun f => Fine.type f = Fine.overdue /\ Fine.status f = Fine.pending
                        /\ Fine.borrow f ∈ overdueBorrows now db /\ 0 < Fine.amount f) new
    /\ borrows run.1 = borrows db
    /\ books run.1 = books db
    /\ config run.1 = config db.
Proof.
  cbn zeta. unfold processOverdueFines.
  destruct (sweep_appends env now (overdueBorrows now db) db)
    as (new & Hf & Hl & Hall & Hb & Hk & Hc & Hn).
  destruct (sweep env now (overdueBorrows now db) db) as [db' n]. cbn [fst snd] in *.
  exists new. repeat split; assumption.
Qed.

(** A fine whose notice is rejected is written but not counted. *)
Example sweep_counts_less_than_it_writes :
  let run := processOverdueFines (fun _ => Scenario.no_record) Scenario.fifth
               (Scenario.library Scenario.loan (Scenario.policy 2000)) in
  processedCount run.2 = 0%nat /\ fines run.1 = [Scenario.fine].
Proof. vm_compute. split; reflexivity. Qed.

(** X5. The sweep fines only the loans its query selects: a loan that is
    not active, not of type 'borrowed' or not yet due at the instant of
    the run has after the run the overdue fines it had before. *)
Theorem sweep_spares_unselected_loans env now db id b :
  borrows db !! id = Some b ->
  Borrow.status b <> Borrow.active \/ Borrow.type b <> Borrow.borrowed
  \/ (now <= Borrow.dueDate b)%Z ->
  overdue_fines (processOverdueFines env now db).1 id = overdue_fines db id.
Proof.
  intros Hb Hnot.
  destruct (sweep_only_appends env now db) as (new & Hf & _ & _ & Hall & _).
  unfold overdue_fines. rewrite Hf, filter_app, length_app.
  assert (E : filter (fun f => Fine.borrow f = id /\ Fine.type f = Fine.overdue) new = []).
  { apply filter_empty_iff. eapply Forall_impl; [exact Hall |].
    intros f (_ & _ & Hin & _) [Hfb _]. rewrite Hfb in Hin.
    apply overdueBorrows_spec in Hin as (b' & Hb' & Hs & Hd & Ht).
    rewrite Hb in Hb'. injection Hb' as <-.
    destruct Hnot as [N | [N | N]]; [contradiction | contradiction | lia]. }
  rewrite E. cbn. lia.
Qed.

Lemma sweep_spares_unselected_loans_witness :
  overdue_fines
    (processOverdueFines (fun _ => Scenario.calm) Scenario.fifth
       (Scenario.library Scenario.returned_loan (Scenario.policy 2000))).1 0
  = overdue_fines (Scenario.library Scenario.returned_loan (Scenario.policy 2000)) 0.
Proof.
  apply (sweep_spares_unselected_loans (fun _ => Scenario.calm) Scenario.fifth
           (Scenario.library Scenario.returned_loan (Scenario.policy 2000)) 0%nat
           Scenario.returned_loan).
  - reflexivity.
  - left. discriminate.
Defined.

(** X6. [markAsOverdue] on a loan that is past due sets both its status
    and its type to 'overdue'; from then on no run of the sweep, at any
    instant, selects the loan, so the sweep never creates its fine. *)
Theorem marked_overdue_leaves_the_sweep now id db b :
  borrows db !! id = Some b ->
  BorrowDoc.isOverdue now b = true ->
  let db1 := (BorrowDoc.markAsOverdue now id db).1 in
  (exists b1, borrows db1 !! id = Some b1
              /\ Borrow.status b1 = Borrow.status_overdue
              /\ Borrow.type b1 = Borrow.overdue
              /\ Borrow.dueDate b1 = Borrow.dueDate b)
  /\ fines db1 = fines db
  /\ forall env now',
       (id ∉ overdueBorrows now' db1)
       /\ overdue_fines (processOverdueFines env now' db1).1 id = overdue_fines db id.
Proof.
  intros Hb Ho db1.
  assert (E : db1 = set_borrows (<[id := BorrowDoc.markedOverdue now b]> (borrows db)) db).
  { unfold db1, BorrowDoc.markAsOverdue. now rewrite Hb, Ho. }
  assert (H1 : borrows db1 !! id = Some (BorrowDoc.markedOverdue now b)).
  { rewrite E. cbn. apply list_lookup_insert_eq. eapply lookup_lt_Some, Hb. }
  assert (M : BorrowDoc.markedOverdue now b
              = Borrow.mk (Borrow.user b) (Borrow.book b) Borrow.overdue Borrow.status_overdue
                          (Borrow.dueDate b) (Borrow.isLost b) (Borrow.lostAt b)).
  { unfold BorrowDoc.markedOverdue. now rewrite Ho. }
  split; [eexists; split; [exact H1 |]; rewrite M; repeat split |].
  split; [now rewrite E |].
  intros env now'. split.
  - intros Hin. apply overdueBorrows_spec in Hin as (b' & Hb' & Hs & _).
    rewrite H1 in Hb'. injection Hb' as <-. rewrite M in Hs. discriminate.
  - rewrite (sweep_spares_unselected_loans env now' db1 id _ H1).
    + unfold overdue_fines. now rewrite E.
    + left. rewrite M. discriminate.
Qed.

Lemma marked_overdue_leaves_the_sweep_witness :
  let db := Scenario.library Scenario.loan (Scenario.policy 2000) in
  let db1 := (BorrowDoc.markAsOverdue Scenario.fifth 0 db).1 in
  (exists b1, borrows db1 !! 0%nat = Some b1
              /\ Borrow.status b1 = Borrow.status_overdue
              /\ Borrow.type b1 = Borrow.overdue
              /\ Borrow.dueDate b1 = Borrow.dueDate Scenario.loan)
  /\ fines db1 = fines db
  /\ forall env now',
       (0%nat ∉ overdueBorrows now' db1)
       /\ overdue_fines (processOverdueFines env now' db1).1 0 = overdue_fines db 0.
Proof.
  apply (marked_overdue_leaves_the_sweep Scenario.fifth 0%nat
           (Scenario.library Scenario.loan (Scenario.policy 2000)) Scenario.loan).
  - reflexivity.
  - reflexivity.
Defined.

End SweepProperties.

(** ** Completed and lost loans *)

Section CompletedLoans.

Import Calculator FineService NotificationService.
Local Open Scope Q_scope.

Lemma charge_spares_completed now id' db b0 u f id b :
  charge now id' db b0 u f ->
  borrows db !! id = Some b ->
  Borrow.status b = Borrow.completed ->
  forall db', same_ledger (booked db (Borrow.user b0) u f) db' -> settled_loan id db db'.
Proof.
  intros C Hb Hs db' (Lb & Lf & _).
  destruct (charge_fine_facts _ _ _ _ _ _ C) as (Fb & _).
  split.
  - exists b. rewrite Lb. split; [exact Hb | exact Hs].
  - unfold overdue_fines. rewrite Lf. cbn [fines booked set_users set_fines].
    apply count_app_other. left. rewrite Fb. intros ->.
    rewrite (charge_borrow _ _ _ _ _ _ C) in Hb. injection Hb as ->.
    now apply (charge_open _ _ _ _ _ _ C).
Qed.

Lemma sweep_spares_completed env now ids id :
  forall db b,
    borrows db !! id = Some b ->
    Borrow.status b = Borrow.completed ->
    settled_loan id db (sweep env now ids db).1.
Proof.
  induction ids as [|j ids IH]; intros db b Hb Hs; cbn [sweep].
  - split; [now exists b | reflexivity].
  - destruct (processBorrow_outcome env now j db) as [O _].
    destruct (processBorrow env now j db) as [db1 c]. cbn [fst] in O.
    assert (S1 : settled_loan id db db1).
    { destruct O as [-> | (b0 & u & f & C & L)].
      - split; [now exists b | reflexivity].
      - eapply charge_spares_completed; eassumption. }
    destruct S1 as [(b1 & Hb1 & Hs1) E1].
    specialize (IH db1 b1 Hb1 Hs1).
    destruct (sweep env now ids db1) as [db2 n]. cbn [fst] in *.
    destruct IH as [Hc E2]. split; [exact Hc | congruence].
Qed.

Lemma settle_spares_completed db db' fid f' id b :
  borrows db !! id = Some b ->
  Borrow.status b = Borrow.completed ->
  (exists f, fines db !! fid = Some f /\ Fine.borrow f' = Fine.borrow f
             /\ Fine.type f' = Fine.type f) ->
  borrows db' = borrows db ->
  fines db' = <[fid := f']> (fines db) ->
  settled_loan id db db'.
Proof.
  intros Hb Hs (f & Hf & Eb & Et) Lb Lf. split.
  - exists b. now rewrite Lb.
  - unfold overdue_fines. rewrite Lf.
    apply count_insert with (g := f); [exact Hf |]. now rewrite Eb, Et.
Qed.

Lemma after_spares_completed c db id b :
  borrows db !! id = Some b ->
  Borrow.status b = Borrow.completed ->
  settled_loan id db (after c db).
Proof.
  intros Hb Hs.
  assert (Same : settled_loan id db db) by (split; [now exists b | reflexivity]).
  destruct c as [env now id' | env now id' rc | env now fid staff
                 | env now fid staff reason | env now]; cbn [after].
  - destruct (createOverdueFine_outcome env now id' db) as [-> | (b0 & u & f & C & L)];
      [exact Same |].
    eapply charge_spares_completed; eassumption.
  - destruct (createLostBookFine_outcome env now id' rc db)
      as [-> | (b0 & u & v & Hb0 & _ & _ & (Lb & Lf & _))]; [exact Same |].
    split.
    + rewrite Lb. cbn [borrows lost_booked set_users set_borrows set_fines].
      destruct (decide (id' = id)) as [->|N].
      * eexists. split; [apply list_lookup_insert_eq; eapply lookup_lt_Some, Hb0 |].
        reflexivity.
      * exists b. now rewrite list_lookup_insert_ne.
    + unfold overdue_fines. rewrite Lf.
      cbn [fines lost_booked set_users set_borrows set_fines].
      apply count_app_other. right. discriminate.
  - destruct (payFine_outcome env now fid staff db)
      as [-> | (f & Hf & _ & [(u & _ & (Lb & Lf & _)) | (_ & ->)])]; [exact Same | |].
    + apply (settle_spares_completed db _ fid (Fine.markAsPaid now staff f) id b Hb Hs);
        [exists f; split; [exact Hf | split; reflexivity] | exact Lb | exact Lf].
    + apply (settle_spares_completed db _ fid (Fine.markAsPaid now staff f) id b Hb Hs);
        [exists f; split; [exact Hf | split; reflexivity] | reflexivity | reflexivity].
  - destruct (waiveFine_outcome env now fid staff reason db)
      as [-> | (f & Hf & _ & [(u & _ & (Lb & Lf & _)) | (_ & ->)])]; [exact Same | |].
    + apply (settle_spares_completed db _ fid (Fine.waiveFine now staff reason f) id b Hb Hs);
        [exists f; split; [exact Hf | split; reflexivity] | exact Lb | exact Lf].
    + apply (settle_spares_completed db _ fid (Fine.waiveFine now staff reason f) id b Hb Hs);
        [exists f; split; [exact Hf | split; reflexivity] | reflexivity | reflexivity].
  - unfold processOverdueFines.
    pose proof (sweep_spares_completed env now (overdueBorrows now db) id db b Hb Hs) as S.
    destruct (sweep env now (overdueBorrows now db) db) as [db' n]. exact S.
Qed.

Lemma after_all_spares_completed cs :
  forall db id b,
    borrows db !! id = Some b ->
    Borrow.status b = Borrow.completed ->
    settled_loan id db (after_all cs db).
Proof.
  induction cs as [|c cs IH]; intros db id b Hb Hs;
    [split; [now exists b | reflexivity] |].
  destruct (after_spares_completed c db id b Hb Hs) as [(b1 & Hb1 & Hs1) E1].
  destruct (IH (after c db) id b1 Hb1 Hs1) as [Hc E2].
  change (after_all (c :: cs) db) with (after_all cs (after c db)).
  split; [exact Hc | now rewrite E2, E1].
Qed.

(** X2. A completed loan is never charged an overdue fine: whatever
    ledger operations and sweeps run, in any order and at any instants,
    the loan stays completed and the number of its overdue fines stays
    what it was; [createOverdueFine] on it always rejects without a
    write. *)
Theorem completed_loan_is_never_fined db id b :
  borrows db !! id = Some b ->
  Borrow.status b = Borrow.completed ->
  (forall cs,
      overdue_fines (after_all cs db) id = overdue_fines db id
      /\ exists b', borrows (after_all cs db) !! id = Some b'
                    /\ Borrow.status b' = Borrow.completed)
  /\ (forall env now,
        exists e, createOverdueFine env now id db = (db, Err e)
                  /\ (e = DuplicateFine \/ e = InvalidBorrow)).
Proof.
  intros Hb Hs. split.
  - intros cs. destruct (after_all_spares_completed cs db id b Hb Hs) as [Hc E].
    split; [exact E | exact Hc].
  - intros env now. unfold createOverdueFine, bind, get. rewrite Hb.
    destruct (Fine_findOne id Fine.overdue db); [eexists; split; [reflexivity | now left] |].
    rewrite (calculateOverdueFine_rejects db now id b Hb Hs).
    eexists. split; [reflexivity | now right].
Qed.

Lemma completed_loan_is_never_fined_witness :
  let db := Scenario.library Scenario.returned_loan (Scenario.policy 2000) in
  (forall cs,
      overdue_fines (after_all cs db) 0 = overdue_fines db 0
      /\ exists b', borrows (after_all cs db) !! 0%nat = Some b'
                    /\ Borrow.status b' = Borrow.completed)
  /\ (forall env now,
        exists e, createOverdueFine env now 0 db = (db, Err e)
                  /\ (e = DuplicateFine \/ e = InvalidBorrow)).
Proof.
  apply (completed_loan_is_never_fined
           (Scenario.library Scenario.returned_loan (Scenario.policy 2000)) 0%nat
           Scenario.returned_loan).
  - reflexivity.
  - reflexivity.
Defined.

(** X3. Once [createLostBookFine] has written the fine of a loan,
    whether it then resolved or rejected on its notice, every further
    call for that loan rejects with 'Fine already exists for this lost
    book' and writes nothing, whatever replacement cost it is given; the
    loan is completed and marked lost, so no later operation or sweep
    adds an overdue fine for it. The call writes when the loan and its
    user exist, the loan has no lost fine, the value of the book can be
    read and the fine passes the validators. *)
Theorem lost_fine_is_recorded_once env now id rc db b u v :
  borrows db !! id = Some b ->
  Fine_findOne id Fine.lost db = None ->
  bookValue rc b db = (db, Ok v) ->
  users db !! Borrow.user b = Some u ->
  Fine.validate (lostFineData now (Borrow.user b) id v) = true ->
  let db' := (createLostBookFine env now id rc db).1 in
  fines db' = fines db ++ [lostFineData now (Borrow.user b) id v]
  /\ (forall env' now' rc',
        createLostBookFine env' now' id rc' db' = (db', Err DuplicateLostFine))
  /\ (exists b', borrows db' !! id = Some b'
                 /\ Borrow.status b' = Borrow.completed /\ Borrow.isLost b' = true)
  /\ (forall cs, overdue_fines (after_all cs db') id = overdue_fines db id).
Proof.
  intros Hb Hf Hv Hu Hval db'.
  destruct (lost_written env now id rc db b u v Hb Hf Hv Hu Hval) as (Lb & Lf & _).
  fold db' in Lb, Lf.
  cbn [borrows fines lost_booked set_users set_borrows set_fines] in Lb, Lf.
  assert (Hb' : borrows db' !! id
                = Some (Borrow.mk (Borrow.user b) (Borrow.book b) (Borrow.type b)
                          Borrow.completed (Borrow.dueDate b) true (Some now))).
  { rewrite Lb. apply list_lookup_insert_eq. eapply lookup_lt_Some, Hb. }
  split; [exact Lf |]. split; [| split].
  - intros env' now' rc'. unfold createLostBookFine, bind, get. rewrite Hb'.
    destruct (Fine_findOne id Fine.lost db') eqn:F; [reflexivity |].
    apply (list_find_None (fun f => Fine.borrow f = id /\ Fine.type f = Fine.lost)) in F.
    rewrite Lf in F. apply Forall_app in F as [_ F].
    inversion F as [|? ? Hx _]. exfalso. apply Hx. split; reflexivity.
  - eexists. split; [exact Hb' |]. split; reflexivity.
  - intros cs.
    destruct (after_all_spares_completed cs db' id _ Hb' eq_refl) as [_ ->].
    unfold overdue_fines. rewrite Lf. apply count_app_other. right. discriminate.
Qed.

End CompletedLoans.

Section LostLoanScenario.

Import Calculator FineService NotificationService.

Lemma lost_fine_is_recorded_once_witness :
  let db := Scenario.library Scenario.loan (Scenario.policy 2000) in
  let db' := (createLostBookFine Scenario.unpopulated Scenario.fifth 0 None db).1 in
  fines db' = fines db ++ [lostFineData Scenario.fifth (Borrow.user Scenario.loan) 0 1000]
  /\ (forall env' now' rc',
        createLostBookFine env' now' 0 rc' db' = (db', Err DuplicateLostFine))
  /\ (exists b', borrows db' !! 0%nat = Some b'
                 /\ Borrow.status b' = Borrow.completed /\ Borrow.isLost b' = true)
  /\ (forall cs, overdue_fines (after_all cs db') 0 = overdue_fines db 0).
Proof.
  apply (lost_fine_is_recorded_once Scenario.unpopulated Scenario.fifth 0%nat None
           (Scenario.library Scenario.loan (Scenario.policy 2000))
           Scenario.loan Scenario.member 1000%Q).
  - reflexivity.
  - reflexivity.
  - reflexivity.
  - reflexivity.
  - reflexivity.
Defined.

End LostLoanScenario.

(** ** The virtuals of the documents *)

Section DocumentVirtuals.

Import Calculator FineService NotificationService.

Lemma ceil_quotient_div a d : BorrowDoc.ceil_quotient a d = (- ((- a) / d))%Z.
Proof.
  unfold BorrowDoc.ceil_quotient, Qceiling. f_equal.
  rewrite Zdiv_Qdiv. apply Qfloor_comp.
  rewrite inject_Z_opp. unfold Qdiv. ring.
Qed.

(** X9. The virtual [overdueDays] of a loan rounds up where the fine
    service truncates: for a loan that is not completed and past its due
    instant it is the service's day count when the delay is a whole
    number of days and one more otherwise, so it is at least 1 as soon
    as the loan is a millisecond late. It is positive exactly when
    [isOverdue] holds, and it is 0 for a completed loan. *)
Theorem overdue_days_round_up now b :
  (Borrow.status b = Borrow.completed ->
   BorrowDoc.overdueDays now b = 0 /\ BorrowDoc.isOverdue now b = false)
  /\ (Borrow.status b <> Borrow.completed ->
      (BorrowDoc.isOverdue now b = true <-> 0 < BorrowDoc.overdueDays now b)
      /\ (Borrow.dueDate b <= now ->
          BorrowDoc.overdueDays now b
          = if (now - Borrow.dueDate b) mod 86400000 =? 0
            then days_overdue now (Borrow.dueDate b)
            else days_overdue now (Borrow.dueDate b) + 1)).
Proof.
  unfold BorrowDoc.overdueDays, BorrowDoc.isOverdue. split.
  - intros Hs. destruct (decide _); [split; reflexivity | contradiction].
  - intros Hs. destruct (decide _) as [|_]; [contradiction |].
    cbn zeta. rewrite ceil_quotient_div.
    change (1000 * 60 * 60 * 24) with 86400000.
    split.
    + case_bool_decide as Hd; split; intros Hx; try discriminate; try reflexivity.
      * Z.div_mod_to_equations. lia.
      * exfalso. Z.div_mod_to_equations. lia.
    + intros Hd. unfold days_overdue, Moment.diff.
      change (Moment.unit_ms Moment.days) with 86400000.
      rewrite Z.quot_div_nonneg by lia.
      destruct (Z.eqb_spec ((now - Borrow.dueDate b) mod 86400000) 0);
        Z.div_mod_to_equations; lia.
Qed.

Lemma overdue_days_round_up_witness :
  Borrow.status Scenario.loan <> Borrow.completed
  /\ Borrow.dueDate Scenario.loan <= Moment.utc 2024 1 1 + 60000
  /\ BorrowDoc.overdueDays (Moment.utc 2024 1 1 + 60000) Scenario.loan
     = if (Moment.utc 2024 1 1 + 60000 - Borrow.dueDate Scenario.loan) mod 86400000 =? 0
       then days_overdue (Moment.utc 2024 1 1 + 60000) (Borrow.dueDate Scenario.loan)
       else days_overdue (Moment.utc 2024 1 1 + 60000) (Borrow.dueDate Scenario.loan) + 1.
Proof.
  assert (S0 : Borrow.status Scenario.loan <> Borrow.completed) by discriminate.
  assert (D : Borrow.dueDate Scenario.loan <= Moment.utc 2024 1 1 + 60000)
    by (vm_compute; discriminate).
  split; [exact S0 |]. split; [exact D |].
  exact (proj2 (proj2 (overdue_days_round_up (Moment.utc 2024 1 1 + 60000) Scenario.loan)
                  S0) D).
Defined.

(** One minute late: a day for the loan's virtual, none for the service. *)
Example one_minute_late :
  BorrowDoc.overdueDays (Moment.utc 2024 1 1 + 60000) Scenario.loan = 1
  /\ days_overdue (Moment.utc 2024 1 1 + 60000) (Borrow.dueDate Scenario.loan) = 0.
Proof. split; reflexivity. Qed.

Local Open Scope Q_scope.

(** A charge happens past the grace period only. *)
Lemma charge_past_grace now id db b u f :
  charge now id db b u f ->
  grace_of (config db) < inject_Z (days_overdue now (Borrow.dueDate b)).
Proof.
  intros C. apply Qnot_le_lt. intros L.
  pose proof (charge_due _ _ _ _ _ _ C) as D.
  rewrite (compute_within_grace _ _ _ L) in D. discriminate.
Qed.

Lemma charge_fine_fields now id db b u f :
  charge now id db b u f ->
  Fine.baseAmount f = Fine.amount f
  /\ Fine.dueDate f = Moment.add_days now 7
  /\ Fine.overdueDays f = days_overdue now (Borrow.dueDate b)
  /\ Fine.rateType f = rate_type_of (config db)
  /\ (String.eqb (rate_type_of (config db)) "per_hour" = false ->
      Fine.rate f = daily_of (config db)).
Proof.
  intros C. pose proof (charge_past_grace _ _ _ _ _ _ C) as G.
  apply num_leb_false in G.
  rewrite (charge_fine _ _ _ _ _ _ C).
  unfold overdueFineData, compute.
  unfold days_overdue, grace_of in G. rewrite G.
  cbn [fineAmount Calculator.rateType Calculator.overdueDays rate_daily rate_hourly
       Fine.baseAmount Fine.amount Fine.dueDate Fine.overdueDays Fine.rateType Fine.rate
       default from_option].
  repeat split. intros E. unfold rate_type_of in E. now rewrite E.
Qed.

(** X10. The virtual [totalAmount], which the fine notice quotes, is not
    the amount charged to the balance: for the fine that
    [createOverdueFine] writes, whether it then resolves or rejects on
    its notice, under the per_day rate type with a grace period that is
    not negative, it is the amount plus the whole overdue-day count
    times the daily rate, so strictly more when the rate is positive.
    Once the fine is paid or waived it is the amount again. *)
Theorem total_amount_of_new_fine env now id db b u f :
  charge now id db b u f ->
  rate_type_of (config db) = "per_day"%string ->
  0 <= grace_of (config db) ->
  fines (createOverdueFine env now id db).1 = fines db ++ [f]
  /\ (0 < Fine.overdueDays f)%Z
  /\ FineDoc.totalAmount f
     == Fine.amount f + inject_Z (Fine.overdueDays f) * daily_of (config db)
  /\ (0 < daily_of (config db) -> Fine.amount f < FineDoc.totalAmount f)
  /\ (forall now' staff,
        FineDoc.totalAmount (Fine.markAsPaid now' staff f) = Fine.amount f)
  /\ (forall now' staff reason,
        FineDoc.totalAmount (Fine.waiveFine now' staff reason f) = Fine.amount f).
Proof.
  intros C Hrt Hg.
  pose proof (charge_past_grace _ _ _ _ _ _ C) as G.
  destruct (charge_fine_facts _ _ _ _ _ _ C) as (_ & Ft & Fs & _ & _).
  destruct (charge_fine_fields _ _ _ _ _ _ C) as (Fb & _ & Fd & Fr & Frate).
  assert (Hpos : (0 < Fine.overdueDays f)%Z).
  { rewrite Fd. rewrite Zlt_Qlt. change (inject_Z 0) with 0. lra. }
  assert (T : FineDoc.totalAmount f
              = Fine.baseAmount f + inject_Z (Fine.overdueDays f) * Fine.rate f).
  { unfold FineDoc.totalAmount. rewrite Fs, Ft, Fr, Hrt.
    rewrite (proj2 (Z.ltb_lt _ _) Hpos). reflexivity. }
  rewrite Hrt in Frate. specialize (Frate eq_refl).
  split; [now destruct (charge_written env now id db b u f C) as (_ & -> & _) |].
  split; [exact Hpos |].
  split; [rewrite T, Fb, Frate; reflexivity |].
  split; [| split; intros; reflexivity].
  intros Hr. rewrite T, Fb, Frate.
  assert (0 < inject_Z (Fine.overdueDays f) * daily_of (config db)).
  { apply Qmult_lt_0_compat; [| exact Hr]. rewrite Zlt_Qlt in Hpos. exact Hpos. }
  lra.
Qed.

Lemma total_amount_of_new_fine_witness :
  let db := Scenario.library Scenario.loan (Scenario.policy 2000) in
  fines (createOverdueFine Scenario.unpopulated Scenario.fifth 0 db).1
  = fines db ++ [Scenario.fine]
  /\ (0 < Fine.overdueDays Scenario.fine)%Z
  /\ FineDoc.totalAmount Scenario.fine
     == Fine.amount Scenario.fine
        + inject_Z (Fine.overdueDays Scenario.fine) * daily_of (Scenario.policy 2000)
  /\ (0 < daily_of (Scenario.policy 2000) ->
      Fine.amount Scenario.fine < FineDoc.totalAmount Scenario.fine)
  /\ (forall now' staff,
        FineDoc.totalAmount (Fine.markAsPaid now' staff Scenario.fine)
        = Fine.amount Scenario.fine)
  /\ (forall now' staff reason,
        FineDoc.totalAmount (Fine.waiveFine now' staff reason Scenario.fine)
        = Fine.amount Scenario.fine).
Proof.
  apply (total_amount_of_new_fine Scenario.unpopulated Scenario.fifth 0%nat
           (Scenario.library Scenario.loan (Scenario.policy 2000))
           Scenario.loan Scenario.member Scenario.fine).
  - split; try reflexivity. discriminate.
  - reflexivity.
  - vm_compute. discriminate.
Defined.

(** In figures: a fine of 100 is quoted as 300. *)
Example notice_quotes_300 :
  Fine.amount Scenario.fine == 100 /\ FineDoc.totalAmount Scenario.fine == 300.
Proof. split; reflexivity. Qed.

End DocumentVirtuals.

(** ** Settlement deadlines *)

Section SettlementWindow.

Import Calculator FineService NotificationService.

(** X11. A fine is due for settlement a fixed time after it is written:
    [isOverdue] of the fine that [createOverdueFine] writes at instant
    [now], whether it then resolves or rejects on its notice, holds
    exactly from the first millisecond after [now] plus 7 days, and of
    the fine that [createLostBookFine] writes exactly after [now] plus
    14 days. *)
Theorem settlement_deadlines :
  (forall env now id db b u f,
      charge now id db b u f ->
      fines (createOverdueFine env now id db).1 = fines db ++ [f]
      /\ forall now', FineDoc.isOverdue now' f = true <-> now + 7 * 86400000 < now')
  /\ (forall env now id rc db b u v,
        borrows db !! id = Some b ->
        Fine_findOne id Fine.lost db = None ->
        bookValue rc b db = (db, Ok v) ->
        users db !! Borrow.user b = Some u ->
        Fine.validate (lostFineData now (Borrow.user b) id v) = true ->
        exists f,
          fines (createLostBookFine env now id rc db).1 = fines db ++ [f]
          /\ forall now', FineDoc.isOverdue now' f = true <-> now + 14 * 86400000 < now').
Proof.
  split.
  - intros env now id db b u f C.
    split; [now destruct (charge_written env now id db b u f C) as (_ & -> & _) |].
    intros now'.
    destruct (charge_fine_fields _ _ _ _ _ _ C) as (_ & Fd & _).
    unfold FineDoc.isOverdue. rewrite Fd. unfold Moment.add_days.
    change (Moment.unit_ms Moment.days) with 86400000.
    now rewrite bool_decide_eq_true.
  - intros env now id rc db b u v Hb Hf Hv Hu Hval.
    exists (lostFineData now (Borrow.user b) id v).
    split; [now destruct (lost_written env now id rc db b u v Hb Hf Hv Hu Hval)
                  as (_ & -> & _) |].
    intros now'.
    unfold FineDoc.isOverdue, lostFineData, Moment.add_days. cbn [Fine.dueDate].
    change (Moment.unit_ms Moment.days) with 86400000.
    now rewrite bool_decide_eq_true.
Qed.

Lemma settlement_deadlines_witness :
  fines (createOverdueFine Scenario.unpopulated Scenario.fifth 0
           (Scenario.library Scenario.loan (Scenario.policy 2000))).1
  = fines (Scenario.library Scenario.loan (Scenario.policy 2000)) ++ [Scenario.fine]
  /\ forall now',
      FineDoc.isOverdue now' Scenario.fine = true
      <-> Scenario.fifth + 7 * 86400000 < now'.
Proof.
  apply (proj1 settlement_deadlines Scenario.unpopulated Scenario.fifth 0%nat
           (Scenario.library Scenario.loan (Scenario.policy 2000))
           Scenario.loan Scenario.member Scenario.fine).
  split; try reflexivity. discriminate.
Defined.

End SettlementWindow.

(** ** The stock of a book *)

Section BookStockProperties.

Import BookStock.

(** X12. [updateAvailableCopies] keeps the available copies between 0
    and the total, whatever change it is given. Issuing a copy and
    taking it back restores the stock when at least one copy was
    available; taking a copy back and issuing it restores the stock only
    when a copy was out: on a full stock the return is absorbed by the
    clamp and the issue then leaves one copy fewer. *)
Theorem stock_stays_in_range b :
  0 <= totalCopies b ->
  (forall change,
      0 <= availableCopies (updateAvailableCopies change b) <= totalCopies b
      /\ totalCopies (updateAvailableCopies change b) = totalCopies b)
  /\ (1 <= availableCopies b <= totalCopies b ->
      updateAvailableCopies 1 (updateAvailableCopies (-1) b) = b)
  /\ (0 <= availableCopies b < totalCopies b ->
      updateAvailableCopies (-1) (updateAvailableCopies 1 b) = b)
  /\ (availableCopies b = totalCopies b -> 0 < totalCopies b ->
      availableCopies (updateAvailableCopies (-1) (updateAvailableCopies 1 b))
      = totalCopies b - 1).
Proof.
  intros Ht. destruct b as [t a br ac]. cbn [totalCopies availableCopies] in *.
  unfold updateAvailableCopies. cbn [totalCopies availableCopies isBorrowable isActive].
  split; [intros change; split; [lia | reflexivity] |].
  split; [intros H; f_equal; lia |].
  split; [intros H; f_equal; lia |].
  intros -> H. lia.
Qed.

Lemma stock_stays_in_range_witness :
  0 <= totalCopies (mk 3 3 true true)
  /\ 1 <= availableCopies (mk 3 3 true true) <= totalCopies (mk 3 3 true true)
  /\ updateAvailableCopies 1 (updateAvailableCopies (-1) (mk 3 3 true true))
     = mk 3 3 true true.
Proof.
  assert (T : 0 <= totalCopies (mk 3 3 true true)) by (cbn; lia).
  assert (A : 1 <= availableCopies (mk 3 3 true true) <= totalCopies (mk 3 3 true true))
    by (cbn; lia).
  split; [exact T |]. split; [exact A |].
  exact (proj1 (proj2 (stock_stays_in_range (mk 3 3 true true) T)) A).
Defined.

(** X13. A book that [canBeBorrowed] is never reported 'unavailable';
    the status is 'unavailable' exactly when no copy is available, and
    after the last available copy has been issued the book is
    'unavailable' and can no longer be borrowed. With copies in stock
    the status is 'low' exactly when at most a fifth of the total is
    available. *)
Theorem availability_and_borrowing b :
  (canBeBorrowed b = true -> availabilityStatus b <> unavailable)
  /\ (availabilityStatus b = unavailable <-> availableCopies b = 0)
  /\ (availableCopies b = 1 -> 0 <= totalCopies b ->
      availabilityStatus (updateAvailableCopies (-1) b) = unavailable
      /\ canBeBorrowed (updateAvailableCopies (-1) b) = false)
  /\ (availableCopies b <> 0 ->
      (availabilityStatus b = low <-> 5 * availableCopies b <= totalCopies b)).
Proof.
  destruct b as [t a br ac]. unfold canBeBorrowed, availabilityStatus, updateAvailableCopies.
  cbn [totalCopies availableCopies isBorrowable isActive].
  assert (L : Js.num_leb (inject_Z a) (inject_Z t * (2 # 10)) = true <-> 5 * a <= t).
  { unfold Js.num_leb. rewrite Qle_bool_iff. unfold Qle. cbn. lia. }
  split; [| split; [| split]].
  - intros H. apply andb_true_iff in H as [H _]. apply andb_true_iff in H as [_ H].
    apply Z.ltb_lt in H. destruct (Z.eqb_spec a 0); [lia |].
    destruct (Js.num_leb _ _); discriminate.
  - destruct (Z.eqb_spec a 0); [tauto |].
    destruct (Js.num_leb _ _); split; (discriminate || lia).
  - intros -> Ht. replace (Z.max 0 (Z.min t (1 + -1))) with 0 by lia.
    cbn. now rewrite andb_false_r.
  - intros Ha. destruct (Z.eqb_spec a 0); [contradiction |].
    destruct (Js.num_leb _ _) eqn:E.
    + split; [intros _; now apply L | reflexivity].
    + split; [discriminate |]. intros H. apply L in H. congruence.
Qed.

(** The last copy of three. *)
Lemma availability_and_borrowing_witness :
  availableCopies (mk 3 1 true true) = 1
  /\ 0 <= totalCopies (mk 3 1 true true)
  /\ availabilityStatus (updateAvailableCopies (-1) (mk 3 1 true true)) = unavailable
  /\ canBeBorrowed (updateAvailableCopies (-1) (mk 3 1 true true)) = false.
Proof.
  assert (A : availableCopies (mk 3 1 true true) = 1) by reflexivity.
  assert (T : 0 <= totalCopies (mk 3 1 true true)) by (cbn; lia).
  split; [exact A |]. split; [exact T |].
  exact (proj1 (proj2 (proj2 (availability_and_borrowing (mk 3 1 true true)))) A T).
Defined.

End BookStockProperties.

(** ** Notification records *)

Section NotificationRecords.

Import Notification NotificationService.

Lemma record_failures_budget fs :
  forall n,
    (retryCount n <= maxRetries n)%nat ->
    retryCount (record_failures fs n)
    = Nat.min (retryCount n + length fs) (maxRetries n)
    /\ maxRetries (record_failures fs n) = maxRetries n
    /\ (fs <> [] ->
        status (record_failures fs n)
        = if (retryCount n + length fs <=? maxRetries n)%nat then pending else failed).
Proof.
  induction fs as [|f fs IH]; intros n Hn.
  - cbn. rewrite Nat.add_0_r. split; [lia |]. split; [reflexivity | congruence].
  - change (record_failures (f :: fs) n)
      with (record_failures fs (markAsFailed f.1.1 f.1.2 f.2 n)).
    set (n1 := markAsFailed f.1.1 f.1.2 f.2 n).
    assert (R1 : retryCount n1
                 = if (retryCount n <? maxRetries n)%nat
                   then (retryCount n + 1)%nat else retryCount n) by reflexivity.
    assert (M1 : maxRetries n1 = maxRetries n) by reflexivity.
    assert (S1 : status n1 = if (retryCount n <? maxRetries n)%nat then pending else failed)
      by reflexivity.
    assert (H1 : (retryCount n1 <= maxRetries n1)%nat).
    { rewrite R1, M1. destruct (Nat.ltb_spec (retryCount n) (maxRetries n)); lia. }
    destruct (IH n1 H1) as (R & M & St). clear IH.
    cbn [length].
    split; [rewrite R, M1, R1;
            destruct (Nat.ltb_spec (retryCount n) (maxRetries n)); lia |].
    split; [now rewrite M |]. intros _.
    destruct fs as [|g fs].
    + cbn [record_failures foldl length]. fold n1. rewrite S1.
      destruct (Nat.ltb_spec (retryCount n) (maxRetries n)),
               (Nat.leb_spec (retryCount n + 1) (maxRetries n)); (reflexivity || lia).
    + rewrite St by discriminate. rewrite M1, R1. cbn [length].
      destruct (Nat.ltb_spec (retryCount n) (maxRetries n));
        destruct (Nat.leb_spec (retryCount n + S (S (length fs))) (maxRetries n));
        match goal with
        | |- context [(?x <=? ?y)%nat] => destruct (Nat.leb_spec x y)
        end; (reflexivity || lia).
Qed.

(** X14. The retry budget of a notification: every recorded failure
    uses one retry until [maxRetries] is reached, [retryCount] never
    exceeds [maxRetries], and the status is 'pending' after each of the
    first [maxRetries] failures and 'failed' from the next one on. A
    notification as [Notification.create] makes it (3 retries) is
    declared failed by its fourth recorded failure, whatever channels
    the failures were on. *)
Theorem retry_budget fs :
  (forall n,
      (retryCount n <= maxRetries n)%nat ->
      fs <> [] ->
      retryCount (record_failures fs n)
      = Nat.min (retryCount n + length fs) (maxRetries n)
      /\ status (record_failures fs n)
         = if (retryCount n + length fs <=? maxRetries n)%nat then pending else failed)
  /\ (forall user ty cs,
        fs <> [] ->
        status (record_failures fs (fresh_notification user ty cs))
        = if (length fs <=? 3)%nat then pending else failed).
Proof.
  split.
  - intros n Hn Hfs. destruct (record_failures_budget fs n Hn) as (R & _ & St).
    split; [exact R | now apply St].
  - intros user ty cs Hfs.
    destruct (record_failures_budget fs (fresh_notification user ty cs)) as (_ & _ & St);
      [cbn; lia |].
    now apply St.
Qed.

Lemma retry_budget_witness :
  status (record_failures [(0, sms, "down"%string); (0, email, "down"%string)]
            (fresh_notification 0 fine_notice [sms; email]))
  = if (length [(0, sms, "down"%string); (0, email, "down"%string)] <=? 3)%nat
    then pending else failed.
Proof.
  apply (proj2 (retry_budget [(0, sms, "down"%string); (0, email, "down"%string)])
           0%nat fine_notice [sms; email]).
  discriminate.
Defined.

Lemma touches_only_refl nid a db : touches_only nid a db db.
Proof. repeat split; auto. Qed.

Lemma touches_only_trans nid a db1 db2 db3 :
  touches_only nid a db1 db2 -> touches_only nid a db2 db3 -> touches_only nid a db1 db3.
Proof.
  intros (L1 & O1 & K1) (L2 & O2 & K2). split; [congruence |]. split.
  - intros i Hi. now rewrite O2, O1.
  - auto.
Qed.

Lemma save_touches ok nid n db db' r :
  save ok nid n db = (db', r) -> touches_only nid (addressing n) db db'.
Proof.
  unfold save, throw. destruct ok; intros [= <- <-]; [| apply touches_only_refl].
  cbn [notifications set_notifications]. split; [apply length_insert |]. split.
  - intros i Hi. now apply list_lookup_insert_ne.
  - intros (n0 & Hn0 & _). exists n. split; [| reflexivity].
    apply list_lookup_insert_eq. eapply lookup_lt_Some, Hn0.
Qed.

Lemma deliver_touches send env now nid c n db db' n' oe :
  (forall d d' x, send d = (d', x) -> d' = d) ->
  deliver send env now nid c n db = (db', (n', oe)) ->
  addressing n' = addressing n /\ touches_only nid (addressing n) db db'.
Proof.
  intros Hs. unfold deliver.
  destruct (send db) as [db1 [[]|e]] eqn:E1; apply Hs in E1 as ->.
  - destruct (save _ _ _ db) as [db2 [[]|e]] eqn:E2; intros [= <- <- <-];
      (split; [reflexivity |]); apply save_touches in E2; exact E2.
  - intros [= <- <- <-]. split; [reflexivity | apply touches_only_refl].
Qed.

Lemma sendSMS_reads env d d' x : sendSMS env d = (d', x) -> d' = d.
Proof. unfold sendSMS, ret, throw. destruct (Env.sms_resolves env); now intros [= <- <-]. Qed.

Lemma sendEmail_reads env d d' x : sendEmail env d = (d', x) -> d' = d.
Proof.
  unfold sendEmail, ret, throw. destruct (Env.email_resolves env); now intros [= <- <-].
Qed.

Lemma try_channel_touches env now user nid c n db db' n' oe :
  try_channel env now user nid c n db = (db', (n', oe)) ->
  addressing n' = addressing n /\ touches_only nid (addressing n) db db'.
Proof.
  unfold try_channel.
  destruct (bool_decide (c = sms) && _).
  - destruct (deliver (sendSMS env) env now nid sms n db) as [db1 [n1 [e|]]] eqn:E1;
      apply deliver_touches in E1 as [A1 T1]; try apply sendSMS_reads.
    + intros [= <- <- <-]. now split.
    + destruct (bool_decide (c = email) && _).
      * intros E2. apply deliver_touches in E2 as [A2 T2]; [| apply sendEmail_reads].
        rewrite A1 in A2, T2. split; [exact A2 |].
        eapply touches_only_trans; eassumption.
      * intros [= <- <- <-]. now split.
  - destruct (bool_decide (c = email) && _).
    + intros E2. apply deliver_touches in E2; [exact E2 | apply sendEmail_reads].
    + intros [= <- <- <-]. split; [reflexivity | apply touches_only_refl].
Qed.

Lemma send_channel_touches env now user nid c n db db' r :
  send_channel env now user nid c n db = (db', r) ->
  touches_only nid (addressing n) db db'
  /\ forall n', r = Ok n' -> addressing n' = addressing n.
Proof.
  unfold send_channel.
  destruct (try_channel env now user nid c n db) as [db1 [n1 [e|]]] eqn:E1;
    apply try_channel_touches in E1 as [A1 T1].
  - destruct (save _ _ _ db1) as [db2 [[]|e']] eqn:E2;
      apply save_touches in E2; change (addressing (markAsFailed _ _ _ n1))
        with (addressing n1) in E2; rewrite A1 in E2;
      intros [= <- <-];
      (split; [eapply touches_only_trans; eassumption |]).
    + intros n' [= <-]. exact A1.
    + discriminate.
  - intros [= <- <-]. split; [exact T1 |]. now intros n' [= <-].
Qed.

Lemma send_channels_touches env now user nid cs :
  forall n db db' r,
    send_channels env now user nid cs n db = (db', r) ->
    touches_only nid (addressing n) db db'.
Proof.
  induction cs as [|c cs IH]; intros n db db' r; simpl.
  - unfold ret. intros [= <- <-]. apply touches_only_refl.
  - unfold bind.
    destruct (send_channel env now user nid c n db) as [db1 [n1|e]] eqn:E1;
      apply send_channel_touches in E1 as [T1 A1].
    + intros E2. apply IH in E2. rewrite (A1 n1 eq_refl) in E2.
      eapply touches_only_trans; eassumption.
    + now intros [= <- <-].
Qed.

(** X15. [sendNotification] writes to the notification collection only.
    When [Notification.create] rejects it rejects and nothing is
    recorded. When it resolves, exactly one document is added, at the
    end of the collection; it is addressed to the recipient with the
    type and the channels of the call, and the documents that were there
    are untouched, whatever the transports and the later saves do. The
    call then resolves to the [_id] of that document, or rejects because
    a failure could not be saved. *)
Theorem one_record_per_notification env now rcp ty cs db :
  let out := sendNotification env now rcp ty cs db in
  same_ledger db out.1
  /\ (Env.create_resolves env = false -> out = (db, Err NotificationNotSaved))
  /\ (Env.create_resolves env = true ->
      length (notifications out.1) = S (length (notifications db))
      /\ (forall i, (i < length (notifications db))%nat ->
                    notifications out.1 !! i = notifications db !! i)
      /\ (exists n, notifications out.1 !! length (notifications db) = Some n
                    /\ user n = Env.rid rcp /\ type n = ty /\ channels n = cs)
      /\ (out.2 = Ok (length (notifications db)) \/ out.2 = Err NotificationNotSaved)).
Proof.
  cbn zeta. split; [| split].
  - destruct (sendNotification env now rcp ty cs db) as [db' r] eqn:E.
    eapply sendNotification_ledger, E.
  - intros Hc. unfold sendNotification, bind, create, throw. now rewrite Hc.
  - intros Hc. unfold sendNotification, bind, create. rewrite Hc. cbn [fst snd].
    set (n0 := mk (Env.rid rcp) ty cs pending pending pending None None None 0 3).
    set (db0 := set_notifications (notifications db ++ [n0]) db).
    destruct (send_channels env now rcp (length (notifications db)) cs n0 db0)
      as [db1 [[]|e]] eqn:E.
    all: pose proof (send_channels_touches _ _ _ _ _ _ _ _ _ E) as (L & O & K).
    all: cbn [fst snd ret].
    all: assert (L0 : length (notifications db0) = S (length (notifications db)))
      by (unfold db0; cbn; rewrite length_app; cbn; lia).
    all: split; [congruence |].
    all: split; [intros i Hi; rewrite O by lia; unfold db0; cbn;
                 now apply lookup_app_l |].
    all: split; [destruct K as (n' & Hn' & [= A1 A2 A3]);
                 [exists n0; split; [unfold db0; cbn; now apply list_lookup_middle
                                    | reflexivity]
                 | exists n'; auto] |].
    + now left.
    + right. f_equal. eapply send_channels_error, E.
Qed.

Lemma one_record_per_notification_witness :
  Env.create_resolves Scenario.no_transport = true
  /\ length (notifications
               (sendNotification Scenario.no_transport Scenario.fifth
                  (FineService.recipient (0%nat, Scenario.member)) fine_notice
                  [sms; email] Scenario.charged).1)
     = S (length (notifications Scenario.charged)).
Proof.
  assert (C : Env.create_resolves Scenario.no_transport = true) by reflexivity.
  split; [exact C |].
  exact (proj1 (proj2 (proj2 (one_record_per_notification Scenario.no_transport
                                Scenario.fifth
                                (FineService.recipient (0%nat, Scenario.member))
                                fine_notice [sms; email] Scenario.charged)) C)).
Defined.



End NotificationRecords.

(** ** Telephone numbers and plain text *)

Section TextProperties.

Import Text.

Lemma filter_visible_id s : Forall visible s -> filter visible s = s.
Proof.
  induction 1 as [|c s Hc _ IH]; [reflexivity |].
  rewrite filter_cons_True by exact Hc. now rewrite IH.
Qed.

Lemma filter_visible_Forall s : Forall visible (filter visible s).
Proof.
  apply Forall_forall. intros c Hc. now apply list_elem_of_filter in Hc as [Hc _].
Qed.

Lemma formatPhoneNumber_visible s :
  Forall visible s ->
  formatPhoneNumber s
  = let g := if startsWith [plus] s then drop 1 s else s in
    if negb (startsWith kenya g) && startsWith [zero] g then kenya ++ drop 1 g else g.
Proof. intros H. unfold formatPhoneNumber. now rewrite (filter_visible_id s H). Qed.

Lemma startsWith_one a c f : startsWith [a] (c :: f) = (a =? c)%N.
Proof. cbn [startsWith]. apply andb_true_r. Qed.

Lemma startsWith_two a b c f :
  startsWith [a; b] (c :: f) = (a =? c)%N && startsWith [b] f.
Proof. reflexivity. Qed.

Lemma local_prefix g :
  startsWith [zero] g = true -> startsWith kenya g = false.
Proof.
  destruct g as [|c g]; [discriminate |]. unfold kenya. cbn [startsWith].
  destruct (N.eqb_spec zero c) as [<- |]; [reflexivity | discriminate].
Qed.

Lemma formatPhoneNumber_no_zero phone :
  startsWith [zero] (formatPhoneNumber phone) = false.
Proof.
  unfold formatPhoneNumber.
  set (g := if startsWith [plus] _ then _ else _).
  destruct (startsWith [zero] g) eqn:Z.
  - rewrite (local_prefix g Z). reflexivity.
  - rewrite andb_false_r. exact Z.
Qed.

Lemma formatPhoneNumber_Forall phone : Forall visible (formatPhoneNumber phone).
Proof.
  unfold formatPhoneNumber.
  pose proof (filter_visible_Forall phone) as F.
  set (f := filter visible phone) in *.
  assert (G : Forall visible (if startsWith [plus] f then drop 1 f else f))
    by (destruct (startsWith [plus] f); [apply Forall_drop |]; exact F).
  set (g := if startsWith [plus] f then _ else _) in *.
  destruct (negb _ && _); [| exact G].
  apply Forall_app. split; [| now apply Forall_drop].
  repeat constructor.
Qed.

(** X17. [formatPhoneNumber] brings the Kenyan forms of a number to one:
    its result holds no white space and never begins with ['0']; the
    local form [0...], the international form [+254...] and the bare
    form [254...] of the same digits give the same result, [254]
    followed by the digits without their white space. Formatting a
    result again changes nothing unless the result begins with ['+'],
    which happens exactly when the number, white space apart, begins
    with two of them: one ['+'] only is removed. *)
Theorem phone_number_forms :
  (forall phone,
      Forall visible (formatPhoneNumber phone)
      /\ startsWith [zero] (formatPhoneNumber phone) = false)
  /\ (forall digits,
        formatPhoneNumber (zero :: digits) = kenya ++ filter visible digits
        /\ formatPhoneNumber (plus :: kenya ++ digits) = kenya ++ filter visible digits
        /\ formatPhoneNumber (kenya ++ digits) = kenya ++ filter visible digits)
  /\ (forall phone,
        startsWith [plus] (formatPhoneNumber phone) = false ->
        formatPhoneNumber (formatPhoneNumber phone) = formatPhoneNumber phone)
  /\ (forall phone,
        startsWith [plus] (formatPhoneNumber phone)
        = startsWith [plus; plus] (filter visible phone)).
Proof.
  split; [| split; [| split]].
  - intros phone. split; [apply formatPhoneNumber_Forall | apply formatPhoneNumber_no_zero].
  - intros digits. unfold formatPhoneNumber, kenya.
    rewrite !(filter_cons_True visible) by reflexivity.
    cbn [app]. rewrite !(filter_cons_True visible) by reflexivity.
    repeat split.
  - intros phone Hp.
    rewrite (formatPhoneNumber_visible _ (formatPhoneNumber_Forall phone)).
    cbn zeta. rewrite Hp, (formatPhoneNumber_no_zero phone), andb_false_r. reflexivity.
  - intros phone. unfold formatPhoneNumber.
    destruct (filter visible phone) as [|c f]; [reflexivity |].
    rewrite startsWith_two, !startsWith_one.
    destruct (N.eqb_spec plus c) as [<- | Hc]; cbn [andb].
    + change (drop 1 (plus :: f)) with f.
      destruct (startsWith [zero] f) eqn:Z.
      * rewrite (local_prefix f Z). cbn [negb andb].
        destruct f as [|d f]; [discriminate |].
        rewrite startsWith_one in Z. apply N.eqb_eq in Z as <-. reflexivity.
      * now rewrite andb_false_r.
    + destruct (startsWith [zero] (c :: f)) eqn:Z.
      * rewrite (local_prefix _ Z). reflexivity.
      * rewrite andb_false_r, startsWith_one. now apply N.eqb_neq.
Qed.

(** The local number 0712 345 678, written with spaces. *)
Lemma phone_number_forms_witness :
  startsWith [plus]
    (formatPhoneNumber [48; 55; 49; 50; 32; 51; 52; 53; 32; 54; 55; 56]%N) = false
  /\ formatPhoneNumber
       (formatPhoneNumber [48; 55; 49; 50; 32; 51; 52; 53; 32; 54; 55; 56]%N)
     = formatPhoneNumber [48; 55; 49; 50; 32; 51; 52; 53; 32; 54; 55; 56]%N.
Proof.
  split; [reflexivity |].
  apply (proj1 (proj2 (proj2 phone_number_forms))
           [48; 55; 49; 50; 32; 51; 52; 53; 32; 54; 55; 56]%N).
  reflexivity.
Defined.

(** [++0712] keeps a ['+'] and its local form; a second pass converts it. *)
Example double_plus_needs_two_passes :
  formatPhoneNumber [43; 43; 48; 55; 49; 50]%N = [43; 48; 55; 49; 50]%N
  /\ formatPhoneNumber [43; 48; 55; 49; 50]%N = [50; 53; 52; 55; 49; 50]%N.
Proof. split; reflexivity. Qed.

Lemma tag_end_Some s : gt ∈ s -> exists r, tag_end s = Some r.
Proof.
  induction s as [|c s IH]; [now intros ?%elem_of_nil |].
  intros H. cbn. case_bool_decide as Hc; [now eexists |].
  apply elem_of_cons in H as [H | H]; [congruence | now apply IH].
Qed.

Lemma tag_end_None s : gt ∉ s -> tag_end s = None.
Proof.
  induction s as [|c s IH]; [reflexivity |].
  intros H. apply not_elem_of_cons in H as [H1 H2]. cbn.
  rewrite bool_decide_eq_false_2 by congruence. now apply IH.
Qed.

Lemma scan_inside s : forall r, tag_end s = Some r -> scan true s = scan false r.
Proof.
  induction s as [|c s IH]; [discriminate |].
  intros r. cbn. case_bool_decide as Hc; [now intros [= ->] | apply IH].
Qed.

Lemma scan_no_gt s : gt ∉ s -> scan false s = s.
Proof.
  induction s as [|c s IH]; [reflexivity |].
  intros H. apply not_elem_of_cons in H as [H1 H2]. cbn.
  rewrite (bool_decide_eq_false_2 (gt ∈ s)) by exact H2.
  rewrite andb_false_r. now rewrite IH.
Qed.

(** The scanner computes the replacement of every match, the matches
    being looked for from left to right. *)
Lemma stripHtml_cons c r :
  stripHtml (c :: r)
  = if bool_decide (c = lt) then
      match tag_end r with
      | Some r' => stripHtml r'
      | None => c :: stripHtml r
      end
    else c :: stripHtml r.
Proof.
  unfold stripHtml. cbn [scan]. case_bool_decide as Hc; [| reflexivity].
  cbn [andb]. case_bool_decide as Hg.
  - destruct (tag_end_Some r Hg) as [r' Hr]. rewrite Hr. now apply scan_inside.
  - now rewrite (tag_end_None r Hg).
Qed.

Lemma scan_no_tag s : forall inside, no_tag (scan inside s).
Proof.
  induction s as [|c s IH]; intros inside pre post.
  - cbn. now destruct pre.
  - cbn [scan]. destruct inside.
    + case_bool_decide; apply IH.
    + destruct (bool_decide (c = lt) && bool_decide (gt ∈ s)) eqn:E; [apply IH |].
      destruct pre as [|d pre]; cbn [app].
      * intros [= -> Hs]. rewrite bool_decide_eq_true_2 in E by reflexivity.
        cbn [andb] in E. apply bool_decide_eq_false in E.
        rewrite (scan_no_gt s E) in Hs. now subst post.
      * intros [= -> Hs]. eapply IH, Hs.
Qed.

Lemma no_tag_fixed s : no_tag s -> scan false s = s.
Proof.
  induction s as [|c s IH]; [reflexivity |].
  intros H. cbn [scan].
  assert (Hs : no_tag s).
  { intros pre post ->. apply (H (c :: pre) post). reflexivity. }
  destruct (bool_decide (c = lt) && bool_decide (gt ∈ s)) eqn:E.
  - apply andb_true_iff in E as [E1 E2].
    apply bool_decide_eq_true in E1, E2. subst c.
    exfalso. now apply (H [] s).
  - now rewrite (IH Hs).
Qed.

Lemma scan_sublist s : forall inside, sublist (scan inside s) s.
Proof.
  induction s as [|c s IH]; intros inside; [constructor |].
  cbn [scan]. destruct inside.
  - case_bool_decide; apply sublist_cons, IH.
  - destruct (_ && _); [apply sublist_cons, IH | apply sublist_skip, IH].
Qed.

(** X18. [stripHtml] removes every tag and nothing else: its result is a
    subsequence of the input in which no ['<'] is followed, however far,
    by a ['>'], so that stripping twice is stripping once; a text in
    which no ['<'] is followed by a ['>'] is returned as it is, a lone
    ['>'] or an unclosed ['<'] included; and a tag after a text free of
    ['<'] is dropped up to its first ['>'], the text before it being
    kept and the rest stripped in turn. *)
Theorem strip_html_removes_tags html :
  sublist (stripHtml html) html
  /\ no_tag (stripHtml html)
  /\ stripHtml (stripHtml html) = stripHtml html
  /\ (no_tag html -> stripHtml html = html)
  /\ (forall text tag rest,
        lt ∉ text -> gt ∉ tag ->
        html = text ++ lt :: tag ++ gt :: rest ->
        stripHtml html = text ++ stripHtml rest).
Proof.
  split; [apply scan_sublist |].
  split; [apply scan_no_tag |].
  split; [apply no_tag_fixed, scan_no_tag |].
  split; [apply no_tag_fixed |].
  intros text tag rest Ht Hg ->.
  induction text as [|c text IH].
  - cbn [app]. rewrite stripHtml_cons, bool_decide_eq_true_2 by reflexivity.
    assert (E : tag_end (tag ++ gt :: rest) = Some rest).
    { clear -Hg. induction tag as [|d tag IH]; cbn.
      - now rewrite bool_decide_eq_true_2.
      - apply not_elem_of_cons in Hg as [H1 H2].
        rewrite bool_decide_eq_false_2 by congruence. now apply IH. }
    now rewrite E.
  - apply not_elem_of_cons in Ht as [H1 H2]. cbn [app].
    rewrite stripHtml_cons, bool_decide_eq_false_2 by congruence.
    now rewrite (IH H2).
Qed.

(** [<b>Due</b>: 5 > 3] loses its two tags and keeps its ['>']. *)
Lemma strip_html_removes_tags_witness :
  stripHtml
    (lt :: [98%N] ++ gt :: [68; 117; 101; 60; 47; 98; 62; 58; 32; 53; 32; 62; 32; 51]%N)
  = [] ++ stripHtml [68; 117; 101; 60; 47; 98; 62; 58; 32; 53; 32; 62; 32; 51]%N
  /\ stripHtml [68; 117; 101; 60; 47; 98; 62; 58; 32; 53; 32; 62; 32; 51]%N
     = [68; 117; 101; 58; 32; 53; 32; 62; 32; 51]%N.
Proof.
  split; [| reflexivity].
  apply (proj2 (proj2 (proj2 (proj2
           (strip_html_removes_tags
              (lt :: [98%N] ++ gt
                  :: [68; 117; 101; 60; 47; 98; 62; 58; 32; 53; 32; 62; 32; 51]%N)))))
           [] [98%N] [68; 117; 101; 60; 47; 98; 62; 58; 32; 53; 32; 62; 32; 51]%N).
  - apply not_elem_of_nil.
  - intros H. apply elem_of_cons in H as [H | H]; [discriminate H |].
    now apply elem_of_nil in H.
  - reflexivity.
Defined.

End TextProperties.

(** ** Roles *)

Section RoleChecks.

Import Auth.

Lemma same_value_Name role a : same_value role a = true <-> a = Name role.
Proof.
  destruct a as [s|l]; cbn [same_value].
  - rewrite String.eqb_eq. split; [now intros -> | now intros [= ->]].
  - split; discriminate.
Qed.

(** X19. [requireRole] lets a request pass exactly when the role of its
    user is one of the arguments. An array of names given as the one
    argument, as the audit and the administration routes give it, is not
    a name: the check then refuses every request, with 401 when no user
    is attached and with 403 for every user, an administrator too. *)
Theorem role_array_refuses_everyone :
  (forall roles req,
      requireRole roles req = next
      <-> exists role, user req = Some role /\ Name role ∈ roles)
  /\ (forall names req, requireRole [Names names] req <> next)
  /\ (forall names role body params,
        requireRole [Names names] (mk (Some role) body params)
        = reply 403 "Insufficient permissions")
  /\ (forall names role body params,
        role ∈ names ->
        requireRole (Name <$> names) (mk (Some role) body params) = next).
Proof.
  assert (A : forall roles req,
             requireRole roles req = next
             <-> exists role, user req = Some role /\ Name role ∈ roles).
  { intros roles req. unfold requireRole. destruct (user req) as [role|].
    - destruct (existsb (same_value role) roles) eqn:E.
      + apply existsb_exists in E as (a & Ha & Hs).
        apply same_value_Name in Hs as ->. apply list_elem_of_In in Ha.
        split; [intros _; now exists role | reflexivity].
      + split; [discriminate |]. intros (r & [= <-] & Hr).
        assert (existsb (same_value role) roles = true); [| congruence].
        apply existsb_exists. exists (Name role).
        split; [now apply list_elem_of_In | now apply same_value_Name].
    - split; [discriminate | now intros (r & [=] & _)]. }
  split; [exact A |]. split; [| split].
  - intros names req H. apply A in H as (role & _ & H).
    apply elem_of_cons in H as [[=] | H]. now apply elem_of_nil in H.
  - reflexivity.
  - intros names role body params H. apply A. exists role.
    split; [reflexivity |]. apply list_elem_of_fmap. now exists role.
Qed.

Lemma role_array_refuses_everyone_witness :
  "admin"%string ∈ ["admin"; "chief_librarian"]%string
  /\ requireRole (Name <$> ["admin"; "chief_librarian"]%string)
       (mk (Some "admin"%string) None None) = next
  /\ requireRole [Names ["admin"; "chief_librarian"]%string]
       (mk (Some "admin"%string) None None) = reply 403 "Insufficient permissions".
Proof.
  assert (H : "admin"%string ∈ ["admin"; "chief_librarian"]%string) by (apply elem_of_cons; now left).
  split; [exact H |]. split; [| reflexivity].
  exact (proj2 (proj2 (proj2 role_array_refuses_everyone))
           ["admin"; "chief_librarian"]%string "admin"%string None None H).
Defined.

Ltac roles r :=
  destruct (String.eqb_spec r "admin") as [-> |];
  [| destruct (String.eqb_spec r "chief_librarian") as [-> |];
     [| destruct (String.eqb_spec r "librarian") as [-> |]]].

(** X20. The fixed checks are instances of [requireRole] and are nested:
    [canManageFines] passes the three staff roles, [canManageBooks] the
    chief librarian and the administrator, [canViewAudits] the
    administrator only, so that who may view the audits may manage the
    books and who may manage the books may manage the fines; and the
    users that [canManageUsers] can pass are those that may manage the
    fines, all of them when the request names no role. *)
Theorem staff_checks req :
  (canManageFines req = next
   <-> requireRole [Name "librarian"; Name "chief_librarian"; Name "admin"] req = next)
  /\ (canManageBooks req = next
      <-> requireRole [Name "admin"; Name "chief_librarian"] req = next)
  /\ (canViewAudits req = next <-> requireRole [Name "admin"] req = next)
  /\ (canViewAudits req = next -> canManageBooks req = next)
  /\ (canManageBooks req = next -> canManageFines req = next)
  /\ (canManageUsers req = next -> canManageFines req = next)
  /\ (canManageFines req = next ->
      body_role req = None -> params_role req = None ->
      canManageUsers req = next).
Proof.
  destruct req as [[r|] b p];
    unfold canManageFines, canManageBooks, canViewAudits, canManageUsers, requireRole,
      includes;
    cbn [user body_role params_role existsb same_value].
  - roles r; cbn; repeat split; try (discriminate || reflexivity || tauto).
    all: try (intros _ -> ->; reflexivity).
    all: destruct (or_else b p) as [t|]; cbn [existsb];
      repeat match goal with |- context [String.eqb ?x ?y] =>
                               destruct (String.eqb x y) end;
      cbn; (discriminate || reflexivity).
  - repeat split; discriminate.
Qed.

Lemma staff_checks_witness :
  canManageFines (mk (Some "librarian"%string) None None) = next
  /\ canManageUsers (mk (Some "librarian"%string) None None) = next.
Proof.
  assert (H : canManageFines (mk (Some "librarian"%string) None None) = next)
    by reflexivity.
  split; [exact H |].
  exact (proj2 (proj2 (proj2 (proj2 (proj2 (proj2
           (staff_checks (mk (Some "librarian"%string) None None)))))))
           H eq_refl eq_refl).
Defined.

(** X21. [canManageUsers] follows the order of the staff roles: it lets
    a request pass exactly when its user is an administrator or ranks
    strictly above the role the request names, the role of the body
    when it is a non-empty string and that of the route parameters
    otherwise; a request that names no role, or a role that is not a
    staff role, passes for every member of staff. Behind
    [requireRole('librarian', 'chief_librarian', 'admin')], as the user
    routes mount it, its last answer is never given. *)
Theorem user_management_ranks role body params :
  let req := mk (Some role) body params in
  (canManageUsers req = next
   <-> role = "admin"%string \/ (rank (or_else body params) < rank (Some role))%nat)
  /\ (rank (or_else body params) = 0%nat ->
      (canManageUsers req = next <-> canManageFines req = next))
  /\ (requireRole [Name "librarian"; Name "chief_librarian"; Name "admin"] req = next ->
      canManageUsers req <> reply 403 "Insufficient permissions to manage users").
Proof.
  cbn zeta.
  unfold canManageUsers, canManageFines, requireRole, includes, rank;
    cbn [user body_role params_role existsb same_value].
  destruct (or_else body params) as [t|].
  - roles role; roles t; cbn;
      repeat match goal with
             | H : ?x <> ?y |- context [String.eqb ?x ?y] =>
                 rewrite (proj2 (String.eqb_neq x y) H)
             end;
      cbn; repeat split; intros; try (discriminate || reflexivity || lia || congruence);
      try (right; lia); try (now left);
      try match goal with H : _ \/ _ |- _ => destruct H; [congruence | lia] end.
  - roles role; cbn;
      repeat match goal with
             | H : ?x <> ?y |- context [String.eqb ?x ?y] =>
                 rewrite (proj2 (String.eqb_neq x y) H)
             end;
      cbn; repeat split; intros; try (discriminate || reflexivity || lia || congruence);
      try (right; lia); try (now left);
      try match goal with H : _ \/ _ |- _ => destruct H; [congruence | lia] end.
Qed.

Lemma user_management_ranks_witness :
  requireRole [Name "librarian"; Name "chief_librarian"; Name "admin"]
    (mk (Some "librarian"%string) (Some "chief_librarian"%string) None) = next
  /\ canManageUsers (mk (Some "librarian"%string) (Some "chief_librarian"%string) None)
     <> reply 403 "Insufficient permissions to manage users".
Proof.
  assert (H : requireRole [Name "librarian"; Name "chief_librarian"; Name "admin"]
                (mk (Some "librarian"%string) (Some "chief_librarian"%string) None) = next)
    by reflexivity.
  split; [exact H |].
  exact (proj2 (proj2 (user_management_ranks "librarian"%string
                         (Some "chief_librarian"%string) None)) H).
Defined.

End RoleChecks.

(** ** The settlement routes *)

Section SettlementRoutes.

Import FineService NotificationService FineRoutes.







(** A reason of one blank passes [notEmpty] and is stored empty. *)
Example blank_reason_is_stored_empty :
  notEmpty (Some " "%string) = true
  /\ Fine.waiverReason (Fine.waiveFine Scenario.fifth 7 " " Scenario.fine)
     = Some EmptyString.
Proof. split; reflexivity. Qed.

Lemma sendNotification_unrecorded env now rcp ty cs db :
  Env.create_resolves env = false ->
  sendNotification env now rcp ty cs db = (db, Err NotificationNotSaved).
Proof. intros Hc. unfold sendNotification, bind, create, throw. now rewrite Hc. Qed.

Lemma waiveFine_resolves env now fid staff reason db f u :
  fines db !! fid = Some f ->
  Fine.status f <> Fine.paid ->
  users db !! Fine.user f = Some u ->
  Env.create_resolves env = true ->
  Env.failed_saved env = true ->
  exists db',
    waiveFine env now fid staff reason db
    = (db', Ok (fid, Fine.waiveFine now staff reason f))
    /\ same_ledger (settled db fid (Fine.waiveFine now staff reason f) u) db'.
Proof.
  intros Hf Hs Hu Hc Hsv.
  pose proof (waiveFine_ledger env now fid staff reason db f u Hf Hs Hu) as L.
  rewrite (waiveFine_unpaid _ _ _ _ _ _ _ _ Hf Hs Hu) in *.
  edestruct (sendNotification_resolves env now (recipient (Fine.user f, u))
               Notification.fine_waived [Notification.email]) as [db' E];
    [exact Hc | exact Hsv |].
  rewrite E in *. now exists db'.
Qed.

(** X23. An answer 500 of a settlement route does not mean that nothing
    was recorded. When the confirmation cannot be recorded
    ([Notification.create] rejects), the route answers 500 after the
    fine has been marked and the balance of its user decremented. The
    payment asked again is then answered 500 ('Fine is already paid'):
    it leaves the database of the services as it is and writes its audit
    entry only. The waiver asked again is carried out again: it answers
    200 once the confirmation can be recorded, and the balance has then
    been decremented twice by the amount of the fine. *)
Theorem answer_500_after_the_write env recorded now role userId fineId db log f u :
  Auth.canManageFines (Auth.mk (Some role) None None) = Auth.next ->
  fines db !! fineId = Some f ->
  Fine.status f <> Fine.paid ->
  users db !! Fine.user f = Some u ->
  Env.create_resolves env = false ->
  (forall paymentMethod,
      isIn ["cash"; "mpesa"; "bank"]%string paymentMethod = true ->
      let db1 := settled db fineId (Fine.markAsPaid now userId f) u in
      pay env recorded now role userId fineId paymentMethod (db, log)
      = ((db1, logActivity recorded "fine_payment" "fine" userId 500 log), 500)
      /\ forall env' recorded' now' userId' paymentMethod' log',
          isIn ["cash"; "mpesa"; "bank"]%string paymentMethod' = true ->
          pay env' recorded' now' role userId' fineId paymentMethod' (db1, log')
          = ((db1, logActivity recorded' "fine_payment" "fine" userId' 500 log'), 500))
  /\ (forall reason,
        notEmpty (Some reason) = true ->
        let db1 := settled db fineId (Fine.waiveFine now userId reason f) u in
        waive env recorded now role userId fineId (Some reason) (db, log)
        = ((db1, logActivity recorded "fine_waiver" "fine" userId 500 log), 500)
        /\ forall env' recorded' now' userId' reason' log',
            notEmpty (Some reason') = true ->
            Env.create_resolves env' = true ->
            Env.failed_saved env' = true ->
            let out := waive env' recorded' now' role userId' fineId (Some reason')
                         (db1, log') in
            out.2 = 200
            /\ balance out.1.1 (Fine.user f)
               = Some (User.fineBalance u + - Fine.amount f + - Fine.amount f)%Q).
Proof.
  intros Hr Hf Hs Hu Hc. split.
  - intros method Hm. cbn zeta. split.
    + unfold pay. rewrite Hr, Hm. cbn [negb fst snd].
      rewrite (payFine_unpaid _ _ _ _ _ _ _ Hf Hs Hu).
      now rewrite (sendNotification_unrecorded _ _ _ _ _ _ Hc).
    + intros env' recorded' now' userId' method' log' Hm'. unfold pay.
      rewrite Hr, Hm'. cbn [negb fst snd].
      rewrite (payFine_paid env' now' fineId userId' _ (Fine.markAsPaid now userId f));
        [reflexivity | now apply settled_fine with f | reflexivity].
  - intros reason Hn. cbn zeta. split.
    + unfold waive. rewrite Hr, Hn. cbn [negb fst snd].
      rewrite (waiveFine_unpaid _ _ _ _ _ _ _ _ Hf Hs Hu).
      now rewrite (sendNotification_unrecorded _ _ _ _ _ _ Hc).
    + intros env' recorded' now' userId' reason' log' Hn' Hc' Hsv'. unfold waive.
      rewrite Hr, Hn'. cbn [negb fst snd].
      set (f1 := Fine.waiveFine now userId reason f).
      set (db1 := settled db fineId f1 u).
      assert (Hf1 : fines db1 !! fineId = Some f1) by now apply settled_fine with f.
      assert (Hs1 : Fine.status f1 <> Fine.paid) by discriminate.
      assert (Hu1 : users db1 !! Fine.user f1
                    = Some (User.inc (- Fine.amount f1)%Q u))
        by now apply settled_user.
      destruct (waiveFine_resolves env' now' fineId userId' reason' db1 f1 _
                  Hf1 Hs1 Hu1 Hc' Hsv') as (db2 & -> & (_ & _ & L & _)).
      cbn [fst snd]. split; [reflexivity |].
      unfold balance. rewrite L.
      set (f2 := Fine.waiveFine now' userId' reason' f1).
      change (Fine.user f) with (Fine.user f2).
      rewrite (settled_user db1 fineId f2 _ Hu1). reflexivity.
Qed.

Lemma answer_500_after_the_write_witness :
  pay Scenario.no_record true Scenario.fifth "librarian" 7 0 (Some "cash"%string)
      (Scenario.charged, [])
  = ((settled Scenario.charged 0 (Fine.markAsPaid Scenario.fifth 7 Scenario.fine)
        (User.inc (Fine.amount Scenario.fine) Scenario.member),
      logActivity true "fine_payment" "fine" 7 500 []), 500).
Proof.
  apply (proj1 (answer_500_after_the_write Scenario.no_record true Scenario.fifth
                  "librarian" 7 0 Scenario.charged [] Scenario.fine
                  (User.inc (Fine.amount Scenario.fine) Scenario.member)
                  eq_refl eq_refl ltac:(discriminate) eq_refl eq_refl)
           (Some "cash"%string) eq_refl).
Defined.

End SettlementRoutes.
